(** * A shallow embedding of the Texas Hold'em betting engine
    ([autonomous_poker_ai.py]) and the properties of its specification.

    Python integers are unbounded, so chips, bets and indices are [Z].
    Objects that the program mutates in place (players, the pot, the
    controller) live in one explicit state, threaded by a small state and
    exception monad: a computation returns the state reached at the point
    where it returned or raised. *)

From Stdlib Require Import ZArith String Ascii List Lia Bool.
From Stdlib Require Import QArith Qround Qabs Permutation.
From Stdlib Require Floats.SpecFloat.
From stdpp Require Import base list gmap strings.
Import ListNotations.

Local Open Scope string_scope.
Local Open Scope Z_scope.

(** ** Python values, exceptions and list indexing *)

(** The texts of the [ValueError]s the program raises; the data they
    interpolate is kept, the wording is not. *)
Inductive message :=
| MsgMustSpecifyAmount (raise_to_min : Z)
| MsgRaiseTooSmall (amount min_legal : Z)
| MsgAlreadyBet (current_bet : Z)
| MsgIllegalAction (action : string)
| MsgInvalidFormat (card_str : string)
| MsgInvalidSuitOrRank
| MsgNotAGamePhase (value : Z)
| MsgNaNToInteger.

Inductive exn :=
| ValueError (m : message)
| IndexError
| ZeroDivisionError
| OverflowError
| KeyError (key : Z).

Inductive result (A : Type) :=
| Ok (a : A)
| Raise (e : exn).
Arguments Ok {A} a.
Arguments Raise {A} e.

(** The values of the legal-action dictionary are booleans or integers. *)
Inductive pyval :=
| VBool (b : bool)
| VInt (z : Z).

(** [if v:] *)
Definition truthy (v : pyval) : bool :=
  match v with
  | VBool b => b
  | VInt z => negb (z =? 0)
  end.

(** [v is not False]: only the boolean [False] itself is excluded; the
    integer [0] is a different object. *)
Definition is_not_False (v : pyval) : bool :=
  match v with
  | VBool false => false
  | _ => true
  end.

(** A boolean used as a number is 0 or 1. *)
Definition as_int (v : pyval) : Z :=
  match v with
  | VBool b => if b then 1 else 0
  | VInt z => z
  end.

(** [l[i]]: indices [0 .. len-1] count from the front, [-len .. -1] from
    the back, everything else raises [IndexError]. *)
Definition py_index {A} (l : list A) (i : Z) : option nat :=
  let n := Z.of_nat (length l) in
  if (0 <=? i) && (i <? n) then Some (Z.to_nat i)
  else if (- n <=? i) && (i <? 0) then Some (Z.to_nat (n + i))
  else None.

(** ** The state and exception monad *)

Definition M (S A : Type) : Type := S -> result A * S.

Definition ret {S A} (a : A) : M S A := fun s => (Ok a, s).

Definition bind {S A B} (m : M S A) (k : A -> M S B) : M S B :=
  fun s =>
    match m s with
    | (Ok a, s') => k a s'
    | (Raise e, s') => (Raise e, s')
    end.

Definition raise {S A} (e : exn) : M S A := fun s => (Raise e, s).
Definition get {S} : M S S := fun s => (Ok s, s).
Definition gets {S A} (f : S -> A) : M S A := fun s => (Ok (f s), s).
Definition modify {S} (f : S -> S) : M S unit := fun s => (Ok tt, f s).
Definition lift_result {S A} (r : result A) : M S A := fun s => (r, s).

Notation "'let!' x := m 'in' k" := (bind m (fun x => k))
  (at level 10, x name, m at level 100, k at level 200).

(** ** 1. Models: Player, Pot, Table *)

(** [Player]; the statistics list [history] is created empty and never
    read or written again, and is left out. Cards are treys' integers. *)
Record Player := mkPlayer {
  name : string;
  stack : Z;
  is_ai : bool;
  hole_cards : list Z;
  is_active : bool;
  is_all_in : bool;
  current_bet : Z;
  total_invested : Z
}.

(** [Player.__init__] *)
Definition Player_init (name : string) (stack : Z) (is_ai : bool) : Player :=
  mkPlayer name stack is_ai [] true false 0 0.

(** [Player.reset_for_hand] *)
Definition Player_reset_for_hand (p : Player) : Player :=
  mkPlayer (name p) (stack p) (is_ai p) [] (0 <? stack p) false 0 0.

(** [Player.reset_for_round] *)
Definition Player_reset_for_round (p : Player) : Player :=
  mkPlayer (name p) (stack p) (is_ai p) (hole_cards p) (is_active p)
           (is_all_in p) 0 (total_invested p).

(** [Player.bet]: the player after the bet and the chips really moved. *)
Definition Player_bet (p : Player) (amount : Z) : Player * Z :=
  let '(actual, all_in) :=
    if stack p <=? amount then (stack p, true) else (amount, is_all_in p) in
  (mkPlayer (name p) (stack p - actual) (is_ai p) (hole_cards p) (is_active p)
            all_in (current_bet p + actual) (total_invested p + actual),
   actual).

Definition Player_fold (p : Player) : Player :=
  mkPlayer (name p) (stack p) (is_ai p) (hole_cards p) false
           (is_all_in p) (current_bet p) (total_invested p).

Record Pot := mkPot {
  amount : Z;
  eligible_players : list Player
}.

Definition Pot_init : Pot := mkPot 0 [].

(** [Pot.add] *)
Definition Pot_add (pot : Pot) (amt : Z) : Pot :=
  mkPot (amount pot + amt) (eligible_players pot).

Record Table := mkTable {
  players : list Player;
  community_cards : list Z;
  small_blind_amount : Z;
  big_blind_amount : Z;
  button_idx : Z;
  pots : list Pot
}.

(** [Table.__init__] *)
Definition Table_init (small_blind big_blind : Z) : Table :=
  mkTable [] [] small_blind big_blind 0 [Pot_init].

(** [Table.add_player] *)
Definition Table_add_player (t : Table) (p : Player) : Table :=
  mkTable (players t ++ [p]) (community_cards t) (small_blind_amount t)
          (big_blind_amount t) (button_idx t) (pots t).

(** [Table.reset_for_hand] *)
Definition Table_reset_for_hand (t : Table) : Table :=
  mkTable (map Player_reset_for_hand (players t)) [] (small_blind_amount t)
          (big_blind_amount t) (button_idx t) [Pot_init].

(** [Table.get_total_pot_size] *)
Definition get_total_pot_size (t : Table) : Z :=
  fold_right Z.add 0 (map amount (pots t)).

(** [Table.get_active_players] *)
Definition get_active_players (t : Table) : list Player :=
  filter (fun p => is_active p = true) (players t).

Definition set_players (t : Table) (ps : list Player) : Table :=
  mkTable ps (community_cards t) (small_blind_amount t)
          (big_blind_amount t) (button_idx t) (pots t).

Definition set_pots (t : Table) (ps : list Pot) : Table :=
  mkTable (players t) (community_cards t) (small_blind_amount t)
          (big_blind_amount t) (button_idx t) ps.

Definition set_button_idx (t : Table) (b : Z) : Table :=
  mkTable (players t) (community_cards t) (small_blind_amount t)
          (big_blind_amount t) b (pots t).

(** ** 3. Game state controller *)

Inductive GamePhase := PRE_FLOP | FLOP | TURN | RIVER | SHOWDOWN.

Definition GamePhase_value (ph : GamePhase) : Z :=
  match ph with
  | PRE_FLOP => 0 | FLOP => 1 | TURN => 2 | RIVER => 3 | SHOWDOWN => 4
  end.

(** [GamePhase(v)]: a [ValueError] for a number that is no phase. *)
Definition GamePhase_of_value (v : Z) : result GamePhase :=
  match v with
  | 0 => Ok PRE_FLOP | 1 => Ok FLOP | 2 => Ok TURN | 3 => Ok RIVER
  | 4 => Ok SHOWDOWN
  | _ => Raise (ValueError (MsgNotAGamePhase v))
  end.

Record GameController := mkGame {
  table : Table;
  phase : GamePhase;
  current_idx : Z;
  min_raise : Z;
  highest_bet : Z;
  acted_this_round : gset Z
}.

(** [GameController.__init__] *)
Definition GameController_init (t : Table) : GameController :=
  mkGame t PRE_FLOP 0 (big_blind_amount t) 0 ∅.

Definition set_table (g : GameController) (t : Table) : GameController :=
  mkGame t (phase g) (current_idx g) (min_raise g) (highest_bet g)
         (acted_this_round g).
Definition set_phase (g : GameController) (ph : GamePhase) : GameController :=
  mkGame (table g) ph (current_idx g) (min_raise g) (highest_bet g)
         (acted_this_round g).
Definition set_current_idx (g : GameController) (i : Z) : GameController :=
  mkGame (table g) (phase g) i (min_raise g) (highest_bet g)
         (acted_this_round g).
Definition set_min_raise (g : GameController) (m : Z) : GameController :=
  mkGame (table g) (phase g) (current_idx g) m (highest_bet g)
         (acted_this_round g).
Definition set_highest_bet (g : GameController) (h : Z) : GameController :=
  mkGame (table g) (phase g) (current_idx g) (min_raise g) h
         (acted_this_round g).
Definition set_acted (g : GameController) (a : gset Z) : GameController :=
  mkGame (table g) (phase g) (current_idx g) (min_raise g) (highest_bet g) a.

(** A player that may still act: [p.is_active and not p.is_all_in]. *)
Definition can_act (p : Player) : bool := is_active p && negb (is_all_in p).

(** The loop of [_next_active]: [k] iterations are left and [i] is the
    loop variable; [n] is the number of players. *)
Fixpoint next_active_loop (ps : list Player) (n start_idx i : Z) (k : nat) : Z :=
  match k with
  | O => -1
  | S k' =>
      let idx := (start_idx + i) mod n in
      match ps !! Z.to_nat idx with
      | Some p => if can_act p then idx
                  else next_active_loop ps n start_idx (i + 1) k'
      | None => next_active_loop ps n start_idx (i + 1) k'
      end
  end.

(** [GameController._next_active] *)
Definition _next_active (g : GameController) (start_idx : Z) : Z :=
  let ps := players (table g) in
  next_active_loop ps (Z.of_nat (length ps)) start_idx 1 (length ps).

(** The loop of [is_round_over] over [enumerate(self.table.players)],
    [i] being the index of the head of [ps]. *)
Fixpoint round_over_loop (g : GameController) (i : Z) (ps : list Player) : bool :=
  match ps with
  | [] => true
  | p :: ps' =>
      if can_act p
         && (negb (bool_decide (i ∈ acted_this_round g))
             || (current_bet p <? highest_bet g))
      then false
      else round_over_loop g (i + 1) ps'
  end.

(** [GameController.is_round_over]; the list comprehension and the empty
    [if] in front of the loop have no effect. *)
Definition is_round_over (g : GameController) : bool :=
  round_over_loop g 0 (players (table g)).

(** The dictionary returned by [get_legal_actions] has these five keys. *)
Record legal_actions := mkLegal {
  FOLD : pyval;
  CALL : pyval;
  CHECK : pyval;
  RAISE_TO_MIN : pyval;
  RAISE_TO_MAX : pyval
}.

(** [self.table.players[self.current_idx]] *)
Definition current_player (g : GameController) : result (nat * Player) :=
  match py_index (players (table g)) (current_idx g) with
  | Some i =>
      match players (table g) !! i with
      | Some p => Ok (i, p)
      | None => Raise IndexError
      end
  | None => Raise IndexError
  end.

Definition legal_for (g : GameController) (p : Player) : legal_actions :=
  let call_amt := highest_bet g - current_bet p in
  if call_amt <? stack p then
    mkLegal (VBool true) (VInt (Z.min call_amt (stack p)))
            (VBool (call_amt =? 0))
            (VInt (Z.min (highest_bet g + min_raise g) (stack p + current_bet p)))
            (VInt (stack p + current_bet p))
  else
    mkLegal (VBool true) (VInt (Z.min call_amt (stack p)))
            (VBool (call_amt =? 0)) (VBool false) (VBool false).

(** [GameController.get_legal_actions] *)
Definition get_legal_actions (g : GameController) : result legal_actions :=
  match current_player g with
  | Ok (_, p) => Ok (legal_for g p)
  | Raise e => Raise e
  end.

(** *** Mutation of the objects reachable from the controller *)

Definition set_player (g : GameController) (i : nat) (p : Player) : GameController :=
  set_table g (set_players (table g) (<[i := p]> (players (table g)))).

(** [self.table.players[idx]], giving the position of the object. *)
Definition players_at (idx : Z) : M GameController nat :=
  fun g =>
    match py_index (players (table g)) idx with
    | Some i => (Ok i, g)
    | None => (Raise IndexError, g)
    end.

Definition player_at (i : nat) : M GameController Player :=
  fun g =>
    match players (table g) !! i with
    | Some p => (Ok p, g)
    | None => (Raise IndexError, g)
    end.

(** [p.bet(amount)] on the player object at position [i]. *)
Definition bet_at (i : nat) (amount : Z) : M GameController Z :=
  let! p := player_at i in
  let '(p', actual) := Player_bet p amount in
  let! _ := modify (fun g => set_player g i p') in
  ret actual.

(** [p.is_active = False] *)
Definition fold_at (i : nat) : M GameController unit :=
  let! p := player_at i in
  modify (fun g => set_player g i (Player_fold p)).

(** [self.table.pots[0]]: the subscript is evaluated, and can raise,
    before the argument of the call on it. *)
Definition pots_0 : M GameController unit :=
  fun g =>
    match pots (table g) with
    | _ :: _ => (Ok tt, g)
    | [] => (Raise IndexError, g)
    end.

(** [pot.add(amt)] on the first pot. *)
Definition pots_0_add (amt : Z) : M GameController unit :=
  modify (fun g =>
    set_table g (set_pots (table g)
      match pots (table g) with
      | pot :: rest => Pot_add pot amt :: rest
      | [] => []
      end)).

(** [GameController.start_hand] *)
Definition start_hand : M GameController unit :=
  let! _ := modify (fun g => set_table g (Table_reset_for_hand (table g))) in
  let! _ := modify (fun g => set_phase g PRE_FLOP) in
  let! n := gets (fun g => Z.of_nat (length (players (table g)))) in
  let! _ := (if n =? 0 then raise ZeroDivisionError else ret tt) in
  let! _ := modify (fun g =>
              set_table g (set_button_idx (table g)
                             ((button_idx (table g) + 1) mod n))) in
  let! sb_idx := gets (fun g => _next_active g (button_idx (table g))) in
  let! bb_idx := gets (fun g => _next_active g sb_idx) in
  let! i_sb := players_at sb_idx in
  let! small := gets (fun g => small_blind_amount (table g)) in
  let! sb_amt := bet_at i_sb small in
  let! i_bb := players_at bb_idx in
  let! big := gets (fun g => big_blind_amount (table g)) in
  let! bb_amt := bet_at i_bb big in
  let! _ := pots_0 in
  let! _ := pots_0_add (sb_amt + bb_amt) in
  let! _ := modify (fun g => set_highest_bet g (big_blind_amount (table g))) in
  let! _ := modify (fun g => set_min_raise g (big_blind_amount (table g))) in
  let! _ := modify (fun g => set_current_idx g (_next_active g bb_idx)) in
  modify (fun g => set_acted g ∅).

(** The [RAISE] branch of [process_action], for the player at [i]. *)
Definition process_raise (i : nat) (legal : legal_actions) (amount : Z)
  : M GameController unit :=
  if amount =? 0 then
    raise (ValueError (MsgMustSpecifyAmount (as_int (RAISE_TO_MIN legal))))
  else
    let! g := get in
    let! p := player_at i in
    let min_legal := highest_bet g + min_raise g in
    if (amount <? min_legal) && negb (amount =? stack p + current_bet p) then
      raise (ValueError (MsgRaiseTooSmall amount min_legal))
    else
      let raise_add := amount - current_bet p in
      if raise_add <? 0 then
        raise (ValueError (MsgAlreadyBet (current_bet p)))
      else
        let! _ := pots_0 in
        let! actual := bet_at i raise_add in
        let! _ := pots_0_add actual in
        let! _ := modify (fun g =>
                    if min_raise g <=? amount - highest_bet g then
                      set_acted (set_min_raise g (amount - highest_bet g)) ∅
                    else g) in
        modify (fun g => set_highest_bet g amount).

(** [GameController.process_action] *)
Definition process_action (action : string) (amount : Z) : M GameController unit :=
  let! i := (fun g => players_at (current_idx g) g) in
  let! legal := (fun g => lift_result (get_legal_actions g) g) in
  let! _ :=
    if String.eqb action "FOLD" then fold_at i
    else if String.eqb action "CHECK" && truthy (CHECK legal) then ret tt
    else if String.eqb action "CALL" && is_not_False (CALL legal) then
      let! _ := pots_0 in
      let! actual := bet_at i (as_int (CALL legal)) in
      pots_0_add actual
    else if String.eqb action "RAISE" && truthy (RAISE_TO_MIN legal) then
      process_raise i legal amount
    else raise (ValueError (MsgIllegalAction action)) in
  let! _ := modify (fun g =>
              set_acted g ({[current_idx g]} ∪ acted_this_round g)) in
  let! over := gets is_round_over in
  if over then ret tt
  else modify (fun g => set_current_idx g (_next_active g (current_idx g))).

(** [GameController.advance_phase] *)
Definition advance_phase : M GameController unit :=
  let! ph := (fun g => lift_result (GamePhase_of_value (GamePhase_value (phase g) + 1)) g) in
  let! _ := modify (fun g => set_phase g ph) in
  let! _ := modify (fun g =>
              set_table g (set_players (table g)
                             (map Player_reset_for_round (players (table g))))) in
  let! _ := modify (fun g => set_highest_bet g 0) in
  let! _ := modify (fun g => set_min_raise g (big_blind_amount (table g))) in
  let! _ := modify (fun g => set_acted g ∅) in
  modify (fun g => set_current_idx g (_next_active g (button_idx (table g)))).

(** *** The two test scenarios *)

Definition two_player_table (small_blind big_blind stack : Z) : Table :=
  Table_add_player
    (Table_add_player (Table_init small_blind big_blind)
       (Player_init "P1" stack false))
    (Player_init "P2" stack false).

Definition scenario (big_blind stack : Z) : GameController :=
  GameController_init (two_player_table (big_blind / 2) big_blind stack).

(** ** The effect of an accepted action, written without the monad *)

Definition pot_add_game (g : GameController) (amt : Z) : GameController :=
  set_table g (set_pots (table g)
    match pots (table g) with
    | pot :: rest => Pot_add pot amt :: rest
    | [] => []
    end).

Definition do_call (g : GameController) (i : nat) (p : Player) : GameController :=
  let bet := Player_bet p (Z.min (highest_bet g - current_bet p) (stack p)) in
  pot_add_game (set_player g i (fst bet)) (snd bet).

Definition do_raise (g : GameController) (i : nat) (p : Player) (amount : Z)
  : GameController :=
  let bet := Player_bet p (amount - current_bet p) in
  let g1 := pot_add_game (set_player g i (fst bet)) (snd bet) in
  let g2 := if min_raise g <=? amount - highest_bet g
            then set_acted (set_min_raise g1 (amount - highest_bet g)) ∅
            else g1 in
  set_highest_bet g2 amount.

(** The end of [process_action]: record the actor, move the turn on. *)
Definition finish_action (g : GameController) : GameController :=
  let g1 := set_acted g ({[current_idx g]} ∪ acted_this_round g) in
  if is_round_over g1 then g1
  else set_current_idx g1 (_next_active g1 (current_idx g1)).

Inductive accepted (g : GameController) (i : nat) (p : Player)
  : string -> Z -> GameController -> Prop :=
| acc_fold amount :
    accepted g i p "FOLD" amount (set_player g i (Player_fold p))
| acc_check amount :
    highest_bet g - current_bet p = 0 ->
    accepted g i p "CHECK" amount g
| acc_call amount :
    pots (table g) <> [] ->
    accepted g i p "CALL" amount (do_call g i p)
| acc_raise amount :
    pots (table g) <> [] ->
    highest_bet g - current_bet p < stack p ->
    Z.min (highest_bet g + min_raise g) (stack p + current_bet p) <> 0 ->
    amount <> 0 ->
    (highest_bet g + min_raise g <= amount \/ amount = stack p + current_bet p) ->
    current_bet p <= amount ->
    accepted g i p "RAISE" amount (do_raise g i p amount).

(** ** Basic facts *)

Lemma py_index_Some {A} (l : list A) (i : Z) (k : nat) :
  py_index l i = Some k ->
  (k < length l)%nat /\
  (Z.of_nat k = i \/ (i < 0 /\ Z.of_nat k = Z.of_nat (length l) + i)).
Proof.
  unfold py_index. intros H. repeat case_match; simplify_eq; lia.
Qed.

Lemma current_player_Some (g : GameController) (i : nat) (p : Player) :
  current_player g = Ok (i, p) ->
  py_index (players (table g)) (current_idx g) = Some i /\
  players (table g) !! i = Some p.
Proof.
  unfold current_player. intros H. repeat case_match; simplify_eq. done.
Qed.

Lemma current_player_index (g : GameController) (i : nat) :
  py_index (players (table g)) (current_idx g) = Some i ->
  exists p, current_player g = Ok (i, p).
Proof.
  intros H. unfold current_player. rewrite H.
  apply py_index_Some in H as [Hlt _].
  destruct (lookup_lt_is_Some_2 (players (table g)) i Hlt) as [p Hp].
  exists p. by rewrite Hp.
Qed.

Ltac run_monad :=
  repeat progress
    (unfold bind, ret, raise, get, gets, modify, lift_result, player_at,
       players_at, pots_0, pots_0_add, bet_at, fold_at in *; simpl in * ).

(** A rejected action leaves the controller as it found it. *)
Lemma process_action_Raise (action : string) (amount : Z)
      (g g' : GameController) (e : exn) :
  process_action action amount g = (Raise e, g') -> g' = g.
Proof.
  unfold process_action, process_raise, get_legal_actions, current_player.
  run_monad. intros H.
  repeat (case_match; simplify_eq; simpl in *; try done).
Qed.


Lemma legal_for_CALL (g : GameController) (p : Player) :
  CALL (legal_for g p) = VInt (Z.min (highest_bet g - current_bet p) (stack p)).
Proof. unfold legal_for. by case_match. Qed.

Lemma legal_for_CHECK (g : GameController) (p : Player) :
  CHECK (legal_for g p) = VBool (highest_bet g - current_bet p =? 0).
Proof. unfold legal_for. by case_match. Qed.

Lemma legal_for_RAISE_truthy (g : GameController) (p : Player) :
  truthy (RAISE_TO_MIN (legal_for g p)) =
  (highest_bet g - current_bet p <? stack p)
  && negb (Z.min (highest_bet g + min_raise g) (stack p + current_bet p) =? 0).
Proof. unfold legal_for. by case_match. Qed.

(** An accepted action is one of the four cases of [accepted], followed
    by [finish_action]. *)
Lemma process_action_Ok (action : string) (amount : Z) (g g' : GameController) :
  process_action action amount g = (Ok tt, g') ->
  exists i p g1,
    current_player g = Ok (i, p) /\ accepted g i p action amount g1 /\
    g' = finish_action g1.
Proof.
  unfold process_action, process_raise, get_legal_actions.
  destruct (current_player g) as [[i p]|e] eqn:Hcur.
  2:{ run_monad. intros H. exfalso.
      destruct (py_index (players (table g)) (current_idx g)); [|done].
      simpl in H. by rewrite Hcur in H. }
  destruct (current_player_Some _ _ _ Hcur) as [Hidx Hp].
  intros H. exists i, p. run_monad. rewrite Hidx in H. simpl in H.
  rewrite Hcur in H. simpl in H.
  rewrite legal_for_CALL, legal_for_CHECK, legal_for_RAISE_truthy in H.
  simpl in H.
  destruct (String.eqb_spec action "FOLD") as [->|HF].
  { rewrite Hp in H. eexists. split; [done|]. split; [constructor|].
    unfold finish_action. simpl in *. by case_match; simplify_eq. }
  destruct (String.eqb_spec action "CHECK") as [->|HC].
  { simpl in H.
    destruct (highest_bet g - current_bet p =? 0) eqn:Hz; simpl in H.
    - exists g. split; [done|]. split; [constructor; lia|].
      unfold finish_action. simpl in *. by case_match; simplify_eq.
    - done. }
  destruct (String.eqb_spec action "CALL") as [->|HL].
  { exists (do_call g i p). split; [done|]. simpl in H.
    destruct (pots (table g)) as [|pot rest] eqn:Hpots; [done|].
    rewrite Hp in H. simpl in H.
    split; [constructor; congruence|].
    unfold finish_action, do_call, pot_add_game. simpl. rewrite Hpots.
    destruct (Player_bet p (Z.min (highest_bet g - current_bet p) (stack p)))
      as [p' actual] eqn:Hbet.
    simpl in *. rewrite Hpots in H. simpl in H.
    by case_match; simplify_eq. }
  destruct (String.eqb_spec action "RAISE") as [->|HR]; [|done].
  exists (do_raise g i p amount). split; [done|]. simpl in H.
  destruct (highest_bet g - current_bet p <? stack p) eqn:Hlegal; simpl in H;
    [|done].
  destruct (Z.min (highest_bet g + min_raise g) (stack p + current_bet p) =? 0)
    eqn:Hmin; simpl in H; [done|].
  destruct (amount =? 0) eqn:Ha; [done|].
  rewrite Hp in H.
  destruct ((amount <? highest_bet g + min_raise g)
            && negb (amount =? stack p + current_bet p)) eqn:Hsmall; [done|].
  destruct (amount - current_bet p <? 0) eqn:Hadd; [done|].
  destruct (pots (table g)) as [|pot rest] eqn:Hpots; [done|].
  rewrite Hp in H. simpl in H.
  assert (highest_bet g + min_raise g <= amount
          \/ amount = stack p + current_bet p) as Hbig.
  { apply andb_false_iff in Hsmall as [?|Hs]; [left; lia|right].
    apply negb_false_iff in Hs. lia. }
  split.
  - constructor; first [lia | congruence | done].
  - unfold finish_action, do_raise, pot_add_game. simpl. rewrite Hpots.
    destruct (Player_bet p (amount - current_bet p)) as [p' actual] eqn:Hbet.
    simpl in *. rewrite Hpots in H. simpl in H.
    repeat (case_match; simplify_eq; simpl in *; try done).
Qed.

(** ** Chip accounting *)

(** Σ(player.total_invested) *)
Definition invested_sum (ps : list Player) : Z :=
  fold_right Z.add 0 (map total_invested ps).

Definition chips_conserved (g : GameController) : Prop :=
  invested_sum (players (table g)) = get_total_pot_size (table g).

(** Tables built by [Table(sb, bb)] and [add_player(Player(...))]. *)
Inductive table_setup : Table -> Prop :=
| setup_new small_blind big_blind :
    table_setup (Table_init small_blind big_blind)
| setup_add t name stack is_ai :
    table_setup t ->
    table_setup (Table_add_player t (Player_init name stack is_ai)).

(** The controller states that calls of [start_hand], [process_action]
    and [advance_phase] lead to, whether a call returns or raises. *)
Inductive reachable : GameController -> Prop :=
| reach_init t :
    table_setup t -> reachable (GameController_init t)
| reach_start_hand g :
    reachable g -> reachable (snd (start_hand g))
| reach_process_action g action amount :
    reachable g -> reachable (snd (process_action action amount g))
| reach_advance_phase g :
    reachable g -> reachable (snd (advance_phase g)).

Lemma invested_sum_insert (ps : list Player) (i : nat) (p p' : Player) :
  ps !! i = Some p ->
  invested_sum (<[i := p']> ps)
  = invested_sum ps - total_invested p + total_invested p'.
Proof.
  unfold invested_sum. revert i.
  induction ps as [|q ps IH]; intros [|i] H; simplify_eq/=; [lia|].
  rewrite (IH i H). lia.
Qed.

Lemma invested_sum_app (ps qs : list Player) :
  invested_sum (ps ++ qs) = invested_sum ps + invested_sum qs.
Proof.
  unfold invested_sum. induction ps as [|q ps IH]; simpl; lia.
Qed.

Lemma invested_sum_reset_for_hand (ps : list Player) :
  invested_sum (map Player_reset_for_hand ps) = 0.
Proof. unfold invested_sum. induction ps as [|q ps IH]; simpl; lia. Qed.

Lemma invested_sum_reset_for_round (ps : list Player) :
  invested_sum (map Player_reset_for_round ps) = invested_sum ps.
Proof. unfold invested_sum. induction ps as [|q ps IH]; simpl; lia. Qed.

Lemma Player_bet_actual (p : Player) (amount : Z) :
  snd (Player_bet p amount) = Z.min amount (stack p).
Proof. unfold Player_bet. destruct (Z.leb_spec (stack p) amount); simpl; lia. Qed.

Lemma Player_bet_fields (p : Player) (amount : Z) :
  let p' := fst (Player_bet p amount) in
  let actual := snd (Player_bet p amount) in
  stack p' = stack p - actual /\
  current_bet p' = current_bet p + actual /\
  total_invested p' = total_invested p + actual /\
  is_active p' = is_active p /\
  is_all_in p' = is_all_in p || (stack p <=? amount).
Proof.
  unfold Player_bet. destruct (stack p <=? amount); simpl;
    repeat split; try done.
  - by rewrite orb_true_r.
  - by rewrite orb_false_r.
Qed.

Lemma pot_add_game_size (g : GameController) (amt : Z) :
  pots (table g) <> [] ->
  get_total_pot_size (table (pot_add_game g amt))
  = get_total_pot_size (table g) + amt.
Proof.
  unfold get_total_pot_size, pot_add_game. simpl.
  destruct (pots (table g)); [done|]. simpl. lia.
Qed.

Lemma table_finish_action (g : GameController) :
  table (finish_action g) = table g.
Proof. unfold finish_action. by case_match. Qed.

Lemma accepted_conserved g i p action amount g1 :
  players (table g) !! i = Some p ->
  accepted g i p action amount g1 ->
  chips_conserved g -> chips_conserved g1.
Proof.
  intros Hp Hacc Hc. unfold chips_conserved in *.
  destruct Hacc as [amt|amt Hz|amt Hpots|amt Hpots Hl Hm Ha Hb Hcb].
  - simpl. rewrite (invested_sum_insert _ _ _ _ Hp). simpl.
    unfold get_total_pot_size in *. simpl. lia.
  - done.
  - unfold do_call. rewrite pot_add_game_size by done.
    simpl. rewrite (invested_sum_insert _ _ _ _ Hp).
    destruct (Player_bet_fields p (Z.min (highest_bet g - current_bet p) (stack p)))
      as (_ & _ & Ht & _).
    rewrite Ht. unfold get_total_pot_size in *. simpl. lia.
  - unfold do_raise.
    assert (forall h, chips_conserved h ->
              chips_conserved
                (if min_raise g <=? amt - highest_bet g
                 then set_acted (set_min_raise h (amt - highest_bet g)) ∅
                 else h)) as Hif by (intros; by case_match).
    apply (Hif _). unfold chips_conserved.
    rewrite pot_add_game_size by done.
    simpl. rewrite (invested_sum_insert _ _ _ _ Hp).
    destruct (Player_bet_fields p (amt - current_bet p)) as (_ & _ & Ht & _).
    rewrite Ht. unfold get_total_pot_size in *. simpl. lia.
Qed.

Lemma process_action_conserved (action : string) (amount : Z) (g : GameController) :
  chips_conserved g -> chips_conserved (snd (process_action action amount g)).
Proof.
  intros Hc. destruct (process_action action amount g) as [[[]|e] g'] eqn:H.
  - apply process_action_Ok in H as (i & p & g1 & Hcur & Hacc & ->).
    apply current_player_Some in Hcur as [_ Hp].
    unfold chips_conserved. simpl. rewrite table_finish_action.
    by eapply accepted_conserved.
  - apply process_action_Raise in H as ->. done.
Qed.

Lemma advance_phase_conserved (g : GameController) :
  chips_conserved g -> chips_conserved (snd (advance_phase g)).
Proof.
  unfold chips_conserved, advance_phase. run_monad.
  destruct (GamePhase_of_value (GamePhase_value (phase g) + 1)); simpl; [|done].
  rewrite invested_sum_reset_for_round. done.
Qed.

(** ** Whose turn: [_next_active] *)

Lemma next_active_loop_range (ps : list Player) (n start_idx i : Z) (k : nat) :
  0 < n ->
  let r := next_active_loop ps n start_idx i k in
  r = -1 \/ (0 <= r < n /\ exists p, ps !! Z.to_nat r = Some p /\ can_act p = true).
Proof.
  intros Hn. revert i. induction k as [|k IH]; intros i; simpl; [by left|].
  destruct (ps !! Z.to_nat ((start_idx + i) mod n)) as [p|] eqn:Hp; [|apply IH].
  destruct (can_act p) eqn:Hact; [|apply IH].
  right. split; [apply Z.mod_pos_bound; lia|]. by exists p.
Qed.

Lemma next_active_range (g : GameController) (start_idx : Z) :
  players (table g) <> [] ->
  let r := _next_active g start_idx in
  r = -1 \/ (0 <= r < Z.of_nat (length (players (table g)))
             /\ exists p, players (table g) !! Z.to_nat r = Some p
                          /\ can_act p = true).
Proof.
  intros Hne. unfold _next_active. apply next_active_loop_range.
  destruct (players (table g)); [done|]. simpl. lia.
Qed.

Lemma py_index_next_active (g : GameController) (start_idx : Z) :
  players (table g) <> [] ->
  exists i p, py_index (players (table g)) (_next_active g start_idx) = Some i
              /\ players (table g) !! i = Some p.
Proof.
  intros Hne.
  assert (0 < length (players (table g)))%nat as Hlen
      by (destruct (players (table g)); [done|simpl; lia]).
  destruct (next_active_range g start_idx Hne) as [Hr|[Hr _]].
  - rewrite Hr. unfold py_index.
    replace ((0 <=? -1) && (-1 <? Z.of_nat (length (players (table g)))))
      with false by done.
    replace ((- Z.of_nat (length (players (table g))) <=? -1) && (-1 <? 0))
      with true by (symmetry; apply andb_true_iff; split; [apply Z.leb_le; lia|done]).
    eexists.
    destruct (lookup_lt_is_Some_2 (players (table g))
                (Z.to_nat (Z.of_nat (length (players (table g))) + -1)))
      as [p Hp]; [lia|]. eauto.
  - unfold py_index.
    replace ((0 <=? _next_active g start_idx)
             && (_next_active g start_idx <? Z.of_nat (length (players (table g)))))
      with true
      by (symmetry; apply andb_true_iff; split;
          [apply Z.leb_le|apply Z.ltb_lt]; lia).
    eexists.
    destruct (lookup_lt_is_Some_2 (players (table g))
                (Z.to_nat (_next_active g start_idx))) as [p Hp]; [lia|]. eauto.
Qed.

Lemma next_active_same_players (g g' : GameController) (start_idx : Z) :
  players (table g) = players (table g') ->
  _next_active g start_idx = _next_active g' start_idx.
Proof. unfold _next_active. by intros ->. Qed.

(** ** [start_hand], step by step *)

Definition hand_reset (g : GameController) : GameController :=
  let g0 := set_phase (set_table g (Table_reset_for_hand (table g))) PRE_FLOP in
  set_table g0
    (set_button_idx (table g0)
       ((button_idx (table g0) + 1) mod Z.of_nat (length (players (table g))))).

Definition hand_open (g3 : GameController) (bb_idx : Z) : GameController :=
  let big := big_blind_amount (table g3) in
  set_acted
    (set_current_idx (set_min_raise (set_highest_bet g3 big) big)
       (_next_active g3 bb_idx)) ∅.

Lemma bind_run {S A B} (m : M S A) (k : A -> M S B) (s s' : S) (a : A) :
  m s = (Ok a, s') -> bind m k s = k a s'.
Proof. unfold bind. by intros ->. Qed.

Lemma players_at_run (g : GameController) (idx : Z) (i : nat) :
  py_index (players (table g)) idx = Some i -> players_at idx g = (Ok i, g).
Proof. unfold players_at. by intros ->. Qed.

Lemma bet_at_run (g : GameController) (i : nat) (p : Player) (amount : Z) :
  players (table g) !! i = Some p ->
  bet_at i amount g
  = (Ok (snd (Player_bet p amount)), set_player g i (fst (Player_bet p amount))).
Proof.
  intros Hp. unfold bet_at, bind, player_at. rewrite Hp.
  by destruct (Player_bet p amount).
Qed.

Lemma py_index_same_length {A} (l l' : list A) (i : Z) :
  length l = length l' -> py_index l i = py_index l' i.
Proof. unfold py_index. by intros ->. Qed.

Section StartHandRun.

#[local] Arguments bet_at : simpl never.
#[local] Arguments players_at : simpl never.
#[local] Arguments pots_0 : simpl never.

Lemma start_hand_run (g : GameController) :
  players (table g) <> [] ->
  let g1 := hand_reset g in
  let sb_idx := _next_active g1 (button_idx (table g1)) in
  let bb_idx := _next_active g1 sb_idx in
  exists i_sb p_sb i_bb p_bb,
    py_index (players (table g1)) sb_idx = Some i_sb /\
    players (table g1) !! i_sb = Some p_sb /\
    let bet1 := Player_bet p_sb (small_blind_amount (table g)) in
    let g2 := set_player g1 i_sb (fst bet1) in
    py_index (players (table g1)) bb_idx = Some i_bb /\
    players (table g2) !! i_bb = Some p_bb /\
    let bet2 := Player_bet p_bb (big_blind_amount (table g)) in
    let g3 := pot_add_game (set_player g2 i_bb (fst bet2)) (snd bet1 + snd bet2) in
    start_hand g = (Ok tt, hand_open g3 bb_idx).
Proof.
  intros Hne g1 sb_idx bb_idx.
  assert (players (table g1) <> []) as Hne1.
  { simpl. by destruct (players (table g)). }
  destruct (py_index_next_active g1 (button_idx (table g1)) Hne1)
    as (i_sb & p_sb & Hsb & Hpsb).
  destruct (py_index_next_active g1 sb_idx Hne1) as (i_bb & p_bb0 & Hbb & Hpbb).
  set (bet1 := Player_bet p_sb (small_blind_amount (table g))).
  set (g2 := set_player g1 i_sb (fst bet1)).
  assert (exists p_bb, players (table g2) !! i_bb = Some p_bb) as [p_bb Hp_bb].
  { apply lookup_lt_is_Some_2. simpl. rewrite length_insert.
    by eapply lookup_lt_Some. }
  exists i_sb, p_sb, i_bb, p_bb. repeat split; try done.
  assert ((Z.of_nat (length (players (table g))) =? 0) = false) as Hn0.
  { apply Z.eqb_neq. destruct (players (table g)); [done|simpl; lia]. }
  rewrite (py_index_same_length _ (players (table g2))) in Hbb
    by (simpl; by rewrite length_insert).
  unfold start_hand, bind, gets, modify, ret, raise. simpl.
  rewrite !length_map, Hn0.
  rewrite (players_at_run _ _ i_sb) by exact Hsb.
  rewrite (bet_at_run _ _ p_sb) by exact Hpsb.
  rewrite (players_at_run _ _ i_bb) by exact Hbb.
  rewrite (bet_at_run _ _ p_bb) by exact Hp_bb.
  reflexivity.
Qed.

End StartHandRun.

Lemma start_hand_conserved (g : GameController) :
  chips_conserved (snd (start_hand g)).
Proof.
  destruct (players (table g)) as [|q qs] eqn:Hps.
  - unfold chips_conserved, start_hand, bind, gets, modify, ret, raise. simpl.
    rewrite Hps. simpl. by rewrite invested_sum_reset_for_hand.
  - assert (players (table g) <> []) as Hne by congruence.
    destruct (start_hand_run g Hne)
      as (i_sb & p_sb & i_bb & p_bb & _ & Hp1 & _ & Hp2 & ->).
    unfold chips_conserved. simpl snd.
    change (table (hand_open ?h ?b)) with (table h).
    rewrite pot_add_game_size by (simpl; done).
    simpl in Hp1, Hp2. simpl.
    rewrite (invested_sum_insert _ _ _ _ Hp2).
    rewrite (invested_sum_insert _ _ _ _ Hp1).
    rewrite invested_sum_reset_for_hand.
    destruct (Player_bet_fields p_sb (small_blind_amount (table g)))
      as (_ & _ & Ht1 & _).
    destruct (Player_bet_fields p_bb (big_blind_amount (table g)))
      as (_ & _ & Ht2 & _).
    rewrite Ht1, Ht2. unfold get_total_pot_size. simpl. lia.
Qed.

Lemma table_setup_fresh (t : Table) :
  table_setup t -> invested_sum (players t) = 0 /\ pots t = [Pot_init].
Proof.
  induction 1 as [|t nm st ai _ [IH1 IH2]]; simpl; [done|].
  rewrite invested_sum_app, IH1. done.
Qed.

(** C1. Chip conservation: in every state reachable from table setup
    through [start_hand], [process_action] and [advance_phase], the
    players' [total_invested] add up to the amounts of the pots. *)
Theorem chip_conservation (g : GameController) :
  reachable g -> chips_conserved g.
Proof.
  induction 1 as [t Ht|g _ IH|g action amt _ IH|g _ IH].
  - destruct (table_setup_fresh t Ht) as [Hs Hp].
    unfold chips_conserved, get_total_pot_size. simpl. by rewrite Hs, Hp.
  - apply start_hand_conserved.
  - by apply process_action_conserved.
  - by apply advance_phase_conserved.
Qed.

Lemma scenario_reachable (big_blind stack : Z) :
  reachable (scenario big_blind stack).
Proof.
  apply reach_init. unfold two_player_table.
  repeat apply setup_add. apply setup_new.
Qed.

Lemma chip_conservation_witness :
  chips_conserved
    (snd (process_action "RAISE" 60 (snd (start_hand (scenario 20 1000))))).
Proof.
  apply chip_conservation. apply reach_process_action, reach_start_hand.
  apply scenario_reachable.
Defined.

(** ** Rejected actions *)

(** The error kinds of the specification. The program raises
    [ValueError] for all of them; the kind is read off the message:
    a missing amount, a raise below the minimum and a raise below the
    player's own bet are [InvalidRaiseAmount], "Illegal action" is
    [IllegalAction], the two parser messages are [InvalidFormat] and
    [InvalidSuitOrRank]. *)
Inductive error_kind :=
| InvalidFormat
| InvalidSuitOrRank
| IllegalAction
| InvalidRaiseAmount
| OtherError.

Definition kind_of (e : exn) : error_kind :=
  match e with
  | ValueError (MsgMustSpecifyAmount _) => InvalidRaiseAmount
  | ValueError (MsgRaiseTooSmall _ _) => InvalidRaiseAmount
  | ValueError (MsgAlreadyBet _) => InvalidRaiseAmount
  | ValueError (MsgIllegalAction _) => IllegalAction
  | ValueError (MsgInvalidFormat _) => InvalidFormat
  | ValueError MsgInvalidSuitOrRank => InvalidSuitOrRank
  | _ => OtherError
  end.

(** C2 as the specification words it: a raise below the minimum by a
    player who is not going all-in is rejected as [InvalidRaiseAmount]
    and nothing changes. *)
Definition low_raise_is_InvalidRaiseAmount (g : GameController) (amount : Z) : Prop :=
  forall i p,
    current_player g = Ok (i, p) ->
    amount < highest_bet g + min_raise g ->
    amount <> stack p + current_bet p ->
    exists e, process_action "RAISE" amount g = (Raise e, g)
              /\ kind_of e = InvalidRaiseAmount.

(** A short stack facing a raise it cannot even call. *)
Definition short_stack_table : Table :=
  Table_add_player
    (Table_add_player (Table_init 10 20) (Player_init "P1" 1000 false))
    (Player_init "P2" 100 false).

Definition short_stack_to_act : GameController :=
  snd (process_action "RAISE" 500
         (snd (start_hand (GameController_init short_stack_table)))).

Lemma process_RAISE_run (g : GameController) (i : nat) (p : Player) (amount : Z) :
  current_player g = Ok (i, p) ->
  process_action "RAISE" amount g =
  (let! _ := (if truthy (RAISE_TO_MIN (legal_for g p))
              then process_raise i (legal_for g p) amount
              else raise (ValueError (MsgIllegalAction "RAISE"))) in
   let! _ := modify (fun g =>
               set_acted g ({[current_idx g]} ∪ acted_this_round g)) in
   let! over := gets is_round_over in
   if over then ret tt
   else modify (fun g => set_current_idx g (_next_active g (current_idx g)))) g.
Proof.
  intros Hcur. destruct (current_player_Some _ _ _ Hcur) as [Hidx Hp].
  unfold process_action, get_legal_actions.
  unfold bind at 1. rewrite (players_at_run _ _ _ Hidx).
  unfold bind at 1. unfold lift_result. rewrite Hcur.
  rewrite legal_for_CALL, legal_for_CHECK. simpl.
  by destruct (highest_bet g - current_bet p =? 0).
Qed.

Lemma low_raise_run (g : GameController) (i : nat) (p : Player) (amount : Z) :
  current_player g = Ok (i, p) ->
  amount < highest_bet g + min_raise g ->
  amount <> stack p + current_bet p ->
  process_action "RAISE" amount g =
  (Raise (ValueError
     (if truthy (RAISE_TO_MIN (legal_for g p)) then
        if amount =? 0
        then MsgMustSpecifyAmount (as_int (RAISE_TO_MIN (legal_for g p)))
        else MsgRaiseTooSmall amount (highest_bet g + min_raise g)
      else MsgIllegalAction "RAISE")), g).
Proof.
  intros Hcur Hlow Hall. rewrite (process_RAISE_run _ _ _ _ Hcur).
  destruct (current_player_Some _ _ _ Hcur) as [Hidx Hp].
  destruct (truthy (RAISE_TO_MIN (legal_for g p))); [|done].
  unfold process_raise. destruct (amount =? 0); [done|].
  run_monad. rewrite Hp. simpl.
  replace (amount <? highest_bet g + min_raise g) with true
    by (symmetry; apply Z.ltb_lt; lia).
  replace (amount =? stack p + current_bet p) with false
    by (symmetry; apply Z.eqb_neq; lia).
  done.
Qed.

Lemma illegal_CHECK_run (g : GameController) (i : nat) (p : Player) (amount : Z) :
  current_player g = Ok (i, p) ->
  current_bet p <> highest_bet g ->
  process_action "CHECK" amount g
  = (Raise (ValueError (MsgIllegalAction "CHECK")), g).
Proof.
  intros Hcur Hne. destruct (current_player_Some _ _ _ Hcur) as [Hidx Hp].
  unfold process_action, get_legal_actions.
  unfold bind at 1. rewrite (players_at_run _ _ _ Hidx).
  unfold bind at 1. unfold lift_result. rewrite Hcur.
  rewrite legal_for_CHECK. simpl.
  replace (highest_bet g - current_bet p =? 0) with false
    by (symmetry; apply Z.eqb_neq; lia).
  done.
Qed.

Lemma Raise_pair_inv {A S} (e e' : exn) (s s' : S) :
  (@Raise A e, s) = (Raise e', s') -> e = e'.
Proof. congruence. Qed.

Lemma short_stack_actor :
  current_player short_stack_to_act
  = Ok (1%nat, mkPlayer "P2" 80 false [] true false 20 20).
Proof. vm_compute. reflexivity. Qed.

(** C2, counterexample: the short stack may not raise at all, and its
    low raise is turned down as an illegal action. *)
Lemma low_raise_counterexample :
  ~ low_raise_is_InvalidRaiseAmount short_stack_to_act 50.
Proof.
  intros H.
  destruct (H _ _ short_stack_actor) as (e & He & Hk).
  - vm_compute. reflexivity.
  - vm_compute. discriminate.
  - rewrite (low_raise_run _ _ _ _ short_stack_actor) in He.
    + apply Raise_pair_inv in He. subst e. vm_compute in Hk. discriminate.
    + vm_compute. reflexivity.
    + vm_compute. discriminate.
Qed.

Lemma short_stack_reachable : reachable short_stack_to_act.
Proof.
  apply reach_process_action, reach_start_hand, reach_init.
  unfold short_stack_table. repeat apply setup_add. apply setup_new.
Qed.

Lemma missing_amount_run (g : GameController) (i : nat) (p : Player) :
  current_player g = Ok (i, p) ->
  process_action "RAISE" 0 g =
  (Raise (ValueError
     (if truthy (RAISE_TO_MIN (legal_for g p))
      then MsgMustSpecifyAmount (as_int (RAISE_TO_MIN (legal_for g p)))
      else MsgIllegalAction "RAISE")), g).
Proof.
  intros Hcur. rewrite (process_RAISE_run _ _ _ _ Hcur).
  by destruct (truthy (RAISE_TO_MIN (legal_for g p))).
Qed.

(** C2, amended. For an acting player who is not going all-in, a [RAISE]
    to less than [highest_bet + min_raise] is rejected and the controller
    is left exactly as it was. The error is [InvalidRaiseAmount] when the
    player's stack exceeds the call amount and the least raise target,
    [min (highest_bet + min_raise) (stack + current_bet)], is not 0; it
    is [IllegalAction] when the stack does not exceed the call amount.
    A [CHECK] while facing a bet and a [RAISE] without an amount are
    rejected in the same way, and every rejected action leaves the whole
    state unmutated. *)
Theorem rejected_actions_are_atomic
        (g : GameController) (i : nat) (p : Player) (amount : Z) :
  current_player g = Ok (i, p) ->
  amount < highest_bet g + min_raise g ->
  amount <> stack p + current_bet p ->
  let call_amt := highest_bet g - current_bet p in
  let raise_to_min :=
    Z.min (highest_bet g + min_raise g) (stack p + current_bet p) in
  (exists e, process_action "RAISE" amount g = (Raise e, g)
             /\ (call_amt < stack p -> raise_to_min <> 0 ->
                 kind_of e = InvalidRaiseAmount)
             /\ (stack p <= call_amt -> kind_of e = IllegalAction))
  /\ (current_bet p <> highest_bet g ->
      exists e, process_action "CHECK" amount g = (Raise e, g)
                /\ kind_of e = IllegalAction)
  /\ (exists e, process_action "RAISE" 0 g = (Raise e, g)
                /\ (call_amt < stack p -> raise_to_min <> 0 ->
                    kind_of e = InvalidRaiseAmount)
                /\ (stack p <= call_amt -> kind_of e = IllegalAction))
  /\ (forall action amt e g',
        process_action action amt g = (Raise e, g') -> g' = g).
Proof.
  intros Hcur Hlow Hall call_amt raise_to_min.
  pose proof (legal_for_RAISE_truthy g p) as Hlegal.
  fold call_amt raise_to_min in Hlegal.
  assert (call_amt < stack p -> raise_to_min <> 0 ->
          truthy (RAISE_TO_MIN (legal_for g p)) = true) as Hoffered.
  { intros Hstack Hmin. rewrite Hlegal. apply andb_true_intro. split.
    - by apply Z.ltb_lt.
    - apply negb_true_iff. by apply Z.eqb_neq. }
  assert (stack p <= call_amt ->
          truthy (RAISE_TO_MIN (legal_for g p)) = false) as Hnone.
  { intros Hstack. rewrite Hlegal. apply andb_false_intro1.
    apply Z.ltb_ge. lia. }
  split; [|split; [|split]].
  - eexists. split; [by apply (low_raise_run _ i)|]. split.
    + intros Hstack Hmin. rewrite (Hoffered Hstack Hmin).
      by destruct (amount =? 0).
    + intros Hstack. by rewrite (Hnone Hstack).
  - intros Hne. eexists. split; [by apply (illegal_CHECK_run _ i p)|done].
  - eexists. split; [by apply (missing_amount_run _ i)|]. split.
    + intros Hstack Hmin. by rewrite (Hoffered Hstack Hmin).
    + intros Hstack. by rewrite (Hnone Hstack).
  - intros action amt e g'. apply process_action_Raise.
Qed.

Definition after_blinds : GameController := snd (start_hand (scenario 20 1000)).

Lemma after_blinds_actor :
  current_player after_blinds
  = Ok (0%nat, mkPlayer "P1" 990 false [] true false 10 10).
Proof. vm_compute. reflexivity. Qed.

Lemma rejected_actions_are_atomic_witness :
  exists e, process_action "RAISE" 30 after_blinds = (Raise e, after_blinds)
            /\ kind_of e = InvalidRaiseAmount.
Proof.
  destruct (rejected_actions_are_atomic after_blinds 0
              (mkPlayer "P1" 990 false [] true false 10 10) 30)
    as [(e & Hrun & Hkind & _) _].
  - exact after_blinds_actor.
  - vm_compute. reflexivity.
  - vm_compute. discriminate.
  - exists e. split; [exact Hrun|]. apply Hkind.
    + vm_compute. reflexivity.
    + vm_compute. discriminate.
Defined.

(** The short stack of the counterexample, for comparison: its raise to
    50 is an illegal action, and nothing changes. *)
Example short_stack_low_raise :
  process_action "RAISE" 50 short_stack_to_act
  = (Raise (ValueError (MsgIllegalAction "RAISE")), short_stack_to_act).
Proof.
  rewrite (low_raise_run _ _ _ _ short_stack_actor).
  - vm_compute. reflexivity.
  - vm_compute. reflexivity.
  - vm_compute. discriminate.
Qed.

(** ** The end of a betting round *)

(** C3 as the specification words it: every player that is active and
    not all-in has acted and has matched the highest bet exactly. *)
Definition round_over_as_specified (g : GameController) : Prop :=
  forall (i : nat) (p : Player),
    players (table g) !! i = Some p ->
    is_active p = true -> is_all_in p = false ->
    Z.of_nat i ∈ acted_this_round g /\ current_bet p = highest_bet g.

(** What the loop tests: acted, and not below the highest bet. *)
Definition round_over_as_coded (g : GameController) : Prop :=
  forall (i : nat) (p : Player),
    players (table g) !! i = Some p ->
    is_active p = true -> is_all_in p = false ->
    Z.of_nat i ∈ acted_this_round g /\ highest_bet g <= current_bet p.

(** No player who has acted and may still act is above the highest bet. *)
Definition acted_bets_bounded (g : GameController) : Prop :=
  forall (i : nat) (p : Player),
    players (table g) !! i = Some p ->
    Z.of_nat i ∈ acted_this_round g ->
    can_act p = true ->
    current_bet p <= highest_bet g.

Lemma can_act_iff (p : Player) :
  can_act p = true <-> is_active p = true /\ is_all_in p = false.
Proof.
  unfold can_act. rewrite andb_true_iff, negb_true_iff. done.
Qed.

Lemma forall_lookup_cons {A} (P : nat -> A -> Prop) (x : A) (l : list A) :
  (forall j y, (x :: l) !! j = Some y -> P j y)
  <-> P 0%nat x /\ forall j y, l !! j = Some y -> P (S j) y.
Proof.
  split.
  - intros H. split; [by apply H|]. intros j y Hy. by apply H.
  - intros [H0 HS] [|j] y Hy; simplify_eq/=; [done|by apply HS].
Qed.

Lemma round_over_loop_spec (g : GameController) (k : Z) (ps : list Player) :
  round_over_loop g k ps = true <->
  forall (j : nat) (p : Player),
    ps !! j = Some p -> can_act p = true ->
    (k + Z.of_nat j) ∈ acted_this_round g /\ highest_bet g <= current_bet p.
Proof.
  revert k. induction ps as [|q ps IH]; intros k.
  { split; [intros _ j p H; done|done]. }
  rewrite forall_lookup_cons. simpl round_over_loop.
  assert ((forall (j : nat) (y : Player),
             ps !! j = Some y -> can_act y = true ->
             (k + Z.of_nat (S j)) ∈ acted_this_round g
             /\ highest_bet g <= current_bet y)
          <-> round_over_loop g (k + 1) ps = true) as ->.
  { rewrite IH. split; intros H j y Hy Hact.
    - replace (k + 1 + Z.of_nat j) with (k + Z.of_nat (S j)) by lia. by apply H.
    - replace (k + Z.of_nat (S j)) with (k + 1 + Z.of_nat j) by lia. by apply H. }
  replace (k + Z.of_nat 0) with k by lia.
  destruct (can_act q) eqn:Hq; simpl; [|intuition discriminate].
  destruct (bool_decide (k ∈ acted_this_round g)) eqn:Hk; simpl.
  - apply bool_decide_eq_true in Hk.
    destruct (Z.ltb_spec (current_bet q) (highest_bet g)) as [Hlt|Hge].
    + split; [done|]. intros [H _]. specialize (H eq_refl). lia.
    + intuition lia.
  - apply bool_decide_eq_false in Hk. intuition discriminate.
Qed.

Lemma is_round_over_coded (g : GameController) :
  is_round_over g = true <-> round_over_as_coded g.
Proof.
  unfold is_round_over, round_over_as_coded. rewrite round_over_loop_spec.
  split; intros H i p Hp.
  - intros Ha Hn. apply (H i p Hp). by apply can_act_iff.
  - intros Hact. apply can_act_iff in Hact as [Ha Hn]. by apply H.
Qed.

(** The player the turn points at, when the index is not negative. *)
Definition actor_bounded (g : GameController) (cur : Z) : Prop :=
  forall (j : nat) (q : Player),
    players (table g) !! j = Some q -> Z.of_nat j = cur ->
    can_act q = true -> current_bet q <= highest_bet g.

Lemma finish_action_bounded (g : GameController) :
  acted_bets_bounded g -> actor_bounded g (current_idx g) ->
  acted_bets_bounded (finish_action g).
Proof.
  intros Ha Hb.
  assert (acted_bets_bounded
            (set_acted g ({[current_idx g]} ∪ acted_this_round g))) as H.
  { intros j q Hq Hin Hact. simpl in *.
    apply elem_of_union in Hin as [Hin|Hin].
    - apply elem_of_singleton in Hin. by eapply Hb.
    - by eapply Ha. }
  unfold finish_action. by case_match.
Qed.

Lemma can_act_bet (p : Player) (amount : Z) :
  can_act (fst (Player_bet p amount)) = true ->
  amount < stack p /\ current_bet (fst (Player_bet p amount)) = current_bet p + amount.
Proof.
  unfold Player_bet, can_act.
  destruct (Z.leb_spec (stack p) amount); simpl.
  - rewrite andb_false_r. done.
  - done.
Qed.

Lemma accepted_bounded g i p action amount g1 :
  current_player g = Ok (i, p) ->
  accepted g i p action amount g1 ->
  acted_bets_bounded g ->
  current_idx g1 = current_idx g
  /\ acted_bets_bounded g1 /\ actor_bounded g1 (current_idx g).
Proof.
  intros Hcur Hacc Hinv.
  destruct (current_player_Some _ _ _ Hcur) as [Hidx Hp].
  assert (forall j : nat, Z.of_nat j = current_idx g -> j = i) as Hactor.
  { intros j Hj. apply py_index_Some in Hidx as [_ [?|[? _]]]; lia. }
  assert (i < length (players (table g)))%nat as Hlt
      by (by eapply lookup_lt_Some).
  destruct Hacc as [amt|amt Hz|amt Hpots|amt Hpots Hl Hm Ha Hb Hcb].
  - (* FOLD *)
    split; [done|]. split.
    + intros j q Hq Hin Hact. simpl in *.
      destruct (decide (j = i)) as [->|Hne].
      * rewrite list_lookup_insert_eq in Hq by done. by simplify_eq.
      * rewrite list_lookup_insert_ne in Hq by done. by eapply Hinv.
    + intros j q Hq Hj Hact. simpl in *. apply Hactor in Hj as ->.
      rewrite list_lookup_insert_eq in Hq by done. by simplify_eq.
  - (* CHECK *)
    split; [done|]. split; [done|].
    intros j q Hq Hj Hact. apply Hactor in Hj as ->. simplify_eq. lia.
  - (* CALL *)
    assert (forall q, <[i := fst (Player_bet p
                (Z.min (highest_bet g - current_bet p) (stack p)))]>
              (players (table g)) !! i = Some q ->
            can_act q = true -> current_bet q <= highest_bet g) as Hme.
    { intros q Hq Hact. rewrite list_lookup_insert_eq in Hq by done.
      simplify_eq. apply can_act_bet in Hact as [? ->]. lia. }
    split; [by unfold do_call, pot_add_game|]. split.
    + intros j q Hq Hin Hact. simpl in *.
      destruct (decide (j = i)) as [->|Hne]; [by apply Hme|].
      rewrite list_lookup_insert_ne in Hq by done. by eapply Hinv.
    + intros j q Hq Hj Hact. simpl in *. apply Hactor in Hj as ->.
      by apply Hme.
  - (* RAISE *)
    assert (forall q, <[i := fst (Player_bet p (amt - current_bet p))]>
              (players (table g)) !! i = Some q ->
            can_act q = true -> current_bet q <= amt) as Hme.
    { intros q Hq Hact. rewrite list_lookup_insert_eq in Hq by done.
      simplify_eq. apply can_act_bet in Hact as [? ->]. lia. }
    unfold do_raise, pot_add_game.
    destruct (Z.leb_spec (min_raise g) (amt - highest_bet g)) as [Hre|Hshort].
    + split; [done|]. split.
      * intros j q Hq Hin Hact. simpl in *. set_solver.
      * intros j q Hq Hj Hact. simpl in *. apply Hactor in Hj as ->.
        by apply Hme.
    + split; [done|]. split.
      * intros j q Hq Hin Hact. simpl in *.
        destruct (decide (j = i)) as [->|Hne]; [by apply Hme|].
        rewrite list_lookup_insert_ne in Hq by done.
        pose proof (Hinv j q Hq Hin Hact). lia.
      * intros j q Hq Hj Hact. simpl in *. apply Hactor in Hj as ->.
        by apply Hme.
Qed.

Lemma process_action_bounded (action : string) (amount : Z) (g : GameController) :
  acted_bets_bounded g ->
  acted_bets_bounded (snd (process_action action amount g)).
Proof.
  intros Hinv.
  destruct (process_action action amount g) as [[[]|e] g'] eqn:H.
  - apply process_action_Ok in H as (i & p & g1 & Hcur & Hacc & ->).
    destruct (accepted_bounded _ _ _ _ _ _ Hcur Hacc Hinv) as (Hc & Ha & Hb).
    simpl. apply finish_action_bounded; [done|]. by rewrite Hc.
  - by apply process_action_Raise in H as ->.
Qed.

Lemma no_action_yet_bounded (g : GameController) :
  acted_this_round g = ∅ -> acted_bets_bounded g.
Proof. intros H j q _ Hin. rewrite H in Hin. set_solver. Qed.

Lemma start_hand_bounded (g : GameController) :
  acted_bets_bounded (snd (start_hand g)).
Proof.
  destruct (players (table g)) as [|q qs] eqn:Hps.
  - intros j p Hp. exfalso. revert Hp.
    unfold start_hand, bind, gets, modify, ret, raise. simpl.
    rewrite Hps. simpl. rewrite Hps. done.
  - assert (players (table g) <> []) as Hne by congruence.
    destruct (start_hand_run g Hne) as (? & ? & ? & ? & _ & _ & _ & _ & ->).
    by apply no_action_yet_bounded.
Qed.

Lemma advance_phase_bounded (g : GameController) :
  acted_bets_bounded g -> acted_bets_bounded (snd (advance_phase g)).
Proof.
  intros Hinv. unfold advance_phase. run_monad.
  destruct (GamePhase_of_value (GamePhase_value (phase g) + 1)); simpl; [|done].
  by apply no_action_yet_bounded.
Qed.

Lemma reachable_bounded (g : GameController) :
  reachable g -> acted_bets_bounded g.
Proof.
  induction 1 as [t Ht|g _ IH|g action amt _ IH|g _ IH].
  - by apply no_action_yet_bounded.
  - apply start_hand_bounded.
  - by apply process_action_bounded.
  - by apply advance_phase_bounded.
Qed.

(** C3. In every state reachable from table setup by [start_hand],
    [process_action] and [advance_phase], [is_round_over()] is true
    exactly when every player that is active and not all-in is in the
    acted-set and has [current_bet == highest_bet]; folded and all-in
    players are not looked at. The loop tests [current_bet < highest_bet]
    (first part, for any state); on a reachable state that is the same
    test, since no player who has acted and can still act is above the
    highest bet. *)
Theorem is_round_over_spec :
  (forall g, is_round_over g = true <-> round_over_as_coded g)
  /\ (forall g, reachable g ->
        (is_round_over g = true <-> round_over_as_specified g)).
Proof.
  split; [apply is_round_over_coded|].
  intros g Hreach. rewrite is_round_over_coded.
  pose proof (reachable_bounded g Hreach) as Hinv.
  split; intros H i p Hp Ha Hn; destruct (H i p Hp Ha Hn) as [Hin Hbet].
  - split; [done|].
    assert (current_bet p <= highest_bet g)
      by (apply (Hinv i p Hp Hin); by apply can_act_iff).
    lia.
  - split; [done|lia].
Qed.

Lemma is_round_over_spec_witness :
  let g := snd (process_action "CHECK" 0
                  (snd (process_action "CALL" 0 after_blinds))) in
  is_round_over g = true <-> round_over_as_specified g.
Proof.
  apply is_round_over_spec. do 2 apply reach_process_action.
  apply reach_start_hand, scenario_reachable.
Defined.

(** ** The effect of a raise *)

Lemma finish_action_fields (g : GameController) :
  highest_bet (finish_action g) = highest_bet g
  /\ min_raise (finish_action g) = min_raise g
  /\ acted_this_round (finish_action g)
     = {[current_idx g]} ∪ acted_this_round g.
Proof. unfold finish_action. by case_match. Qed.

(** C4. After an accepted [RAISE] to [amount], [highest_bet] is [amount].
    If the increment [amount - highest_bet] reaches [min_raise], the
    increment becomes the new [min_raise] and the acted-set holds the
    raiser alone. If it does not, the raise was the player's all-in,
    [min_raise] stays and the raiser joins the players already in the
    acted-set. *)
Theorem accepted_raise_effect (g g' : GameController) (amount : Z) :
  process_action "RAISE" amount g = (Ok tt, g') ->
  highest_bet g' = amount
  /\ (min_raise g <= amount - highest_bet g ->
      min_raise g' = amount - highest_bet g
      /\ acted_this_round g' = {[current_idx g]})
  /\ (amount - highest_bet g < min_raise g ->
      min_raise g' = min_raise g
      /\ acted_this_round g' = {[current_idx g]} ∪ acted_this_round g
      /\ exists i p, current_player g = Ok (i, p)
                     /\ amount = stack p + current_bet p).
Proof.
  intros H. apply process_action_Ok in H as (i & p & g1 & Hcur & Hacc & ->).
  destruct (finish_action_fields g1) as (-> & -> & ->).
  inversion Hacc as [| | |amt Hpots Hl Hm Ha Hb Hcb]; subst.
  unfold do_raise, pot_add_game.
  destruct (Z.leb_spec (min_raise g) (amount - highest_bet g)) as [Hre|Hshort];
    simpl.
  - split; [done|]. split; [|lia]. intros _. split; [done|].
    apply union_empty_r_L.
  - split; [done|]. split; [lia|]. intros _. repeat split.
    exists i, p. split; [done|lia].
Qed.

Lemma accepted_raise_effect_witness :
  highest_bet (snd (process_action "RAISE" 60 after_blinds)) = 60
  /\ min_raise (snd (process_action "RAISE" 60 after_blinds))
     = 60 - highest_bet after_blinds
  /\ acted_this_round (snd (process_action "RAISE" 60 after_blinds))
     = {[current_idx after_blinds]}.
Proof.
  destruct (accepted_raise_effect after_blinds
              (snd (process_action "RAISE" 60 after_blinds)) 60)
    as (Hh & Hre & _).
  - vm_compute. reflexivity.
  - destruct Hre as [Hm Ha]; [vm_compute; discriminate|].
    exact (conj Hh (conj Hm Ha)).
Defined.

(** ** Posting the blinds *)

Lemma reset_for_hand_lookup (ps : list Player) (i : nat) (p : Player) :
  map Player_reset_for_hand ps !! i = Some p ->
  hole_cards p = [] /\ is_all_in p = false
  /\ current_bet p = 0 /\ total_invested p = 0.
Proof.
  rewrite list_lookup_fmap. destruct (ps !! i); intros H; simplify_eq/=. done.
Qed.

Lemma Player_bet_eq (p : Player) (amount : Z) :
  Player_bet p amount
  = (mkPlayer (name p) (stack p - Z.min amount (stack p)) (is_ai p)
       (hole_cards p) (is_active p) (is_all_in p || (stack p <=? amount))
       (current_bet p + Z.min amount (stack p))
       (total_invested p + Z.min amount (stack p)),
     Z.min amount (stack p)).
Proof.
  unfold Player_bet. destruct (Z.leb_spec (stack p) amount); simpl.
  - rewrite orb_true_r. by rewrite Z.min_r by lia.
  - rewrite orb_false_r. by rewrite Z.min_l by lia.
Qed.

(** C5. [start_hand()] posts each forced blind capped at the stack of the
    player who posts it, sets [is_all_in] exactly when the blind takes the
    whole stack, and puts both posted amounts into the pot. With two
    players of stack 100 and a big blind of 200 the pot is 200 and both
    players are all-in. *)
Theorem start_hand_posts_blinds :
  (forall g : GameController,
     players (table g) <> [] ->
     let ps0 := map Player_reset_for_hand (players (table g)) in
     let small := small_blind_amount (table g) in
     let big := big_blind_amount (table g) in
     let sb_idx := _next_active (hand_reset g) (button_idx (table (hand_reset g))) in
     let bb_idx := _next_active (hand_reset g) sb_idx in
     exists g' i_sb p_sb i_bb p_bb,
       start_hand g = (Ok tt, g')
       /\ py_index ps0 sb_idx = Some i_sb /\ ps0 !! i_sb = Some p_sb
       /\ let sb_amt := Z.min small (stack p_sb) in
          let p_sb' := mkPlayer (name p_sb) (stack p_sb - sb_amt) (is_ai p_sb)
                         [] (is_active p_sb) (stack p_sb <=? small)
                         sb_amt sb_amt in
          py_index ps0 bb_idx = Some i_bb
          /\ <[i_sb := p_sb']> ps0 !! i_bb = Some p_bb
          /\ let bb_amt := Z.min big (stack p_bb) in
             let p_bb' := mkPlayer (name p_bb) (stack p_bb - bb_amt) (is_ai p_bb)
                            [] (is_active p_bb)
                            (is_all_in p_bb || (stack p_bb <=? big))
                            (current_bet p_bb + bb_amt)
                            (total_invested p_bb + bb_amt) in
             players (table g') = <[i_bb := p_bb']> (<[i_sb := p_sb']> ps0)
             /\ pots (table g') = [mkPot (sb_amt + bb_amt) []]
             /\ (is_all_in p_sb' = true <-> sb_amt = stack p_sb)
             /\ (is_all_in p_bb' = true
                 <-> is_all_in p_bb = true \/ bb_amt = stack p_bb))
  /\ (let g' := snd (start_hand (scenario 200 100)) in
      get_total_pot_size (table g') = 200
      /\ map is_all_in (players (table g')) = [true; true]).
Proof.
  split; [|by vm_compute].
  intros g Hne ps0 small big sb_idx bb_idx.
  destruct (start_hand_run g Hne)
    as (i_sb & p_sb & i_bb & p_bb & Hsb & Hpsb & Hbb & Hpbb & Hrun).
  simpl in Hsb, Hpsb, Hbb, Hpbb.
  destruct (reset_for_hand_lookup _ _ _ Hpsb) as (Hh & Ha & Hc & Ht).
  rewrite Player_bet_eq in Hpbb, Hrun. rewrite Player_bet_eq in Hrun.
  simpl in Hpbb, Hrun. rewrite Hh, Ha, Hc, Ht in Hpbb, Hrun. simpl in Hpbb, Hrun.
  assert (hole_cards p_bb = []) as Hhb.
  { destruct (decide (i_bb = i_sb)) as [->|Hne'].
    - rewrite list_lookup_insert_eq in Hpbb by (by eapply lookup_lt_Some).
      by simplify_eq.
    - rewrite list_lookup_insert_ne in Hpbb by done.
      by destruct (reset_for_hand_lookup _ _ _ Hpbb). }
  rewrite Hhb in Hrun.
  eexists _, i_sb, p_sb, i_bb, p_bb.
  split; [exact Hrun|].
  split; [exact Hsb|]. split; [exact Hpsb|]. simpl.
  split; [exact Hbb|]. split; [exact Hpbb|].
  split; [done|]. split; [done|]. split.
  - rewrite Z.leb_le. fold small. lia.
  - rewrite orb_true_iff, Z.leb_le. fold big. split; intros [?|?]; auto;
      right; lia.
Qed.

Lemma start_hand_posts_blinds_witness :
  exists g', start_hand (scenario 200 100) = (Ok tt, g')
             /\ get_total_pot_size (table g') = 200.
Proof.
  destruct start_hand_posts_blinds as [H [Hpot _]].
  destruct (H (scenario 200 100)) as (g' & ? & ? & ? & ? & Hrun & _).
  - vm_compute. discriminate.
  - exists g'. split; [exact Hrun|].
    rewrite Hrun in Hpot. exact Hpot.
Defined.

(** ** The heads-up scenario of [test_betting.py] *)

(** C6. Two players with 1000 chips each, blinds 10 and 20. After
    [start_hand()] the pot is 30 and the first to act is player 0, who
    posted the small blind; the button index is 1, so the player to act
    is the one after the button and not the button player. [CALL] makes
    the pot 40 and passes the turn to player 1, whose [CHECK] ends the
    round. *)
Theorem heads_up_scenario :
  let g0 := scenario 20 1000 in
  let g1 := snd (start_hand g0) in
  let g2 := snd (process_action "CALL" 0 g1) in
  let g3 := snd (process_action "CHECK" 0 g2) in
  fst (start_hand g0) = Ok tt
  /\ get_total_pot_size (table g1) = 30
  /\ map current_bet (players (table g1)) = [10; 20]
  /\ current_idx g1 = 0
  /\ button_idx (table g1) = 1
  /\ current_idx g1 <> button_idx (table g1)
  /\ is_round_over g1 = false
  /\ fst (process_action "CALL" 0 g1) = Ok tt
  /\ get_total_pot_size (table g2) = 40
  /\ current_idx g2 = 1
  /\ is_round_over g2 = false
  /\ fst (process_action "CHECK" 0 g2) = Ok tt
  /\ is_round_over g3 = true.
Proof. vm_compute. repeat split. discriminate. Qed.

(** ** 2. The card parser ([DeckManager.parse_card])

    Python strings are sequences of Unicode code points; the model is of
    ASCII text, where [str.upper] only moves [a-z] to [A-Z] and the
    white space of [str.strip] and of the pattern [\s] is the ten
    characters 9-13 and 28-32. *)

Definition is_space (c : ascii) : bool :=
  let n := N_of_ascii c in
  ((9 <=? n) && (n <=? 13) || (28 <=? n) && (n <=? 32))%N.

Definition upper_char (c : ascii) : ascii :=
  let n := N_of_ascii c in
  if ((97 <=? n) && (n <=? 122))%N then ascii_of_N (n - 32) else c.

Definition is_ascii_char (c : ascii) : bool := (N_of_ascii c <? 128)%N.

Fixpoint is_ascii_text (s : string) : bool :=
  match s with
  | EmptyString => true
  | String c s' => is_ascii_char c && is_ascii_text s'
  end.

(** [s.upper()] *)
Fixpoint upper (s : string) : string :=
  match s with
  | EmptyString => EmptyString
  | String c s' => String (upper_char c) (upper s')
  end.

Fixpoint lstrip (s : string) : string :=
  match s with
  | EmptyString => EmptyString
  | String c s' => if is_space c then lstrip s' else s
  end.

Fixpoint rstrip (s : string) : string :=
  match s with
  | EmptyString => EmptyString
  | String c s' =>
      let r := rstrip s' in
      if is_space c && String.eqb r "" then EmptyString else String c r
  end.

(** [s.strip()] *)
Definition strip (s : string) : string := lstrip (rstrip s).

(** [re.sub(r'\s+', ' ', s)]: every maximal run of white space becomes one
    blank; [in_run] says that the previous character was white space. *)
Fixpoint sub_ws (in_run : bool) (s : string) : string :=
  match s with
  | EmptyString => EmptyString
  | String c s' =>
      if is_space c then
        if in_run then sub_ws true s' else String " " (sub_ws true s')
      else String c (sub_ws false s')
  end.

(** [s.split(' ')]: cut at every single blank; never an empty list. *)
Fixpoint split_blank (s : string) : list string :=
  match s with
  | EmptyString => [EmptyString]
  | String c s' =>
      if Ascii.eqb c " " then EmptyString :: split_blank s'
      else match split_blank s' with
           | w :: ws => String c w :: ws
           | [] => [String c EmptyString]
           end
  end.

Definition SUITS : gmap string string :=
  list_to_map
    [("SPADE", "s"); ("SPADES", "s"); ("HEART", "h"); ("HEARTS", "h");
     ("DIAMOND", "d"); ("DIAMONDS", "d"); ("CLUB", "c"); ("CLUBS", "c")].

Definition RANKS : gmap string string :=
  list_to_map
    [("TWO", "2"); ("2", "2"); ("THREE", "3"); ("3", "3"); ("FOUR", "4");
     ("4", "4"); ("FIVE", "5"); ("5", "5"); ("SIX", "6"); ("6", "6");
     ("SEVEN", "7"); ("7", "7"); ("EIGHT", "8"); ("8", "8"); ("NINE", "9");
     ("9", "9"); ("TEN", "T"); ("10", "T"); ("JACK", "J"); ("QUEEN", "Q");
     ("KING", "K"); ("ACE", "A")].

(** [w in d] *)
Definition has_key (d : gmap string string) (w : string) : bool :=
  match d !! w with Some _ => true | None => false end.

(** The last two statements of [parse_card]. The card is built by treys'
    [Card.new] from the two-character code; the model returns the code. *)
Definition card_code (suit_word rank_word : string) : result string :=
  match SUITS !! suit_word, RANKS !! rank_word with
  | Some su, Some r => Ok (r ++ su)
  | _, _ => Raise (ValueError MsgInvalidSuitOrRank)
  end.

(** [DeckManager.parse_card] *)
Definition parse_card (card_str : string) : result string :=
  let clean_str := sub_ws false (upper (strip card_str)) in
  let parts := split_blank clean_str in
  match parts with
  | [p0; p1] =>
      if has_key RANKS p0 && has_key SUITS p1 then card_code p1 p0
      else card_code p0 p1
  | [p0; p1; p2] =>
      if String.eqb p1 "OF" then card_code p2 p0
      else Raise (ValueError (MsgInvalidFormat card_str))
  | _ => Raise (ValueError (MsgInvalidFormat card_str))
  end.

(** *** The words of a text

    The specification speaks of forms made of words. [scan s] reads [s]
    from its end: the word that is open at the front of [s], and behind it
    the words that are complete. *)
Fixpoint scan (s : string) : string * list string :=
  match s with
  | EmptyString => (EmptyString, [])
  | String c s' =>
      let '(w, ws) := scan s' in
      if is_space c
      then (EmptyString, if String.eqb w "" then ws else w :: ws)
      else (String c w, ws)
  end.

(** The maximal runs of characters that are not white space. *)
Definition words (s : string) : list string :=
  let '(w, ws) := scan s in
  if String.eqb w "" then ws else w :: ws.

(** Case-insensitively and after white-space normalisation. *)
Definition tokens (s : string) : list string := words (upper s).

(** The forms in which a card can be written, with the code it stands for. *)
Inductive card_form (s : string) (code : string) : Prop :=
| form_suit_rank S R su r :
    tokens s = [S; R] ->
    SUITS !! S = Some su -> RANKS !! R = Some r -> code = r ++ su ->
    card_form s code
| form_rank_suit S R su r :
    tokens s = [R; S] ->
    SUITS !! S = Some su -> RANKS !! R = Some r -> code = r ++ su ->
    card_form s code
| form_rank_of_suit S R su r :
    tokens s = [R; "OF"; S] ->
    SUITS !! S = Some su -> RANKS !! R = Some r -> code = r ++ su ->
    card_form s code.

(** Two words, or three with [OF] in the middle. *)
Definition card_shape (ws : list string) : Prop :=
  length ws = 2%nat \/ exists a b, ws = [a; "OF"; b].

(** C9 as the specification words it: a text is accepted exactly when it
    is [<Suit> <Rank>] or [<Rank> OF <Suit>]. *)
Definition in_claimed_form (s : string) : Prop :=
  exists S R,
    is_Some (SUITS !! S) /\ is_Some (RANKS !! R)
    /\ (tokens s = [S; R] \/ tokens s = [R; "OF"; S]).

Definition accepts_exactly_claimed_forms (s : string) : Prop :=
  (exists code, parse_card s = Ok code) <-> in_claimed_form s.

Lemma is_space_upper_char (c : ascii) : is_space (upper_char c) = is_space c.
Proof. by destruct c as [[] [] [] [] [] [] [] []]. Qed.

Lemma is_space_not_blank (c : ascii) :
  is_space c = false -> Ascii.eqb c " " = false.
Proof.
  intros H. destruct (Ascii.eqb_spec c " ") as [->|]; [|done].
  by vm_compute in H.
Qed.

Lemma upper_eqb_empty (s : string) :
  String.eqb (upper s) "" = String.eqb s "".
Proof. by destruct s. Qed.

Lemma upper_lstrip (s : string) : upper (lstrip s) = lstrip (upper s).
Proof.
  induction s as [|c s IH]; simpl; [done|].
  rewrite is_space_upper_char. by destruct (is_space c).
Qed.

Lemma upper_rstrip (s : string) : upper (rstrip s) = rstrip (upper s).
Proof.
  induction s as [|c s IH]; simpl; [done|].
  rewrite is_space_upper_char, <- IH, upper_eqb_empty.
  by destruct (is_space c && String.eqb (rstrip s) "").
Qed.

Lemma sub_ws_lstrip (s : string) : sub_ws false (lstrip s) = sub_ws true s.
Proof.
  induction s as [|c s IH]; simpl; [done|].
  destruct (is_space c) eqn:Hc; [done|]. simpl. by rewrite Hc.
Qed.

Lemma words_space (c : ascii) (s : string) :
  is_space c = true -> words (String c s) = words s.
Proof.
  intros Hc. unfold words. simpl. destruct (scan s) as [w ws]. by rewrite Hc.
Qed.

Lemma words_letter (c : ascii) (s : string) :
  is_space c = false ->
  words (String c s) = String c (fst (scan s)) :: snd (scan s).
Proof.
  intros Hc. unfold words. simpl. destruct (scan s) as [w ws]. by rewrite Hc.
Qed.

Lemma rstrip_blank (s : string) :
  String.eqb (rstrip s) "" = true <-> words s = [].
Proof.
  induction s as [|c s IH]; simpl; [done|].
  destruct (is_space c) eqn:Hc; simpl.
  - rewrite words_space by done. rewrite <- IH.
    by destruct (String.eqb (rstrip s) "").
  - by rewrite words_letter.
Qed.

Lemma scan_space (c : ascii) (s : string) :
  is_space c = true -> scan (String c s) = ("", words s).
Proof. intros Hc. unfold words. simpl. destruct (scan s). by rewrite Hc. Qed.

Lemma scan_letter (c : ascii) (s : string) :
  is_space c = false ->
  scan (String c s) = (String c (fst (scan s)), snd (scan s)).
Proof. intros Hc. simpl. destruct (scan s). by rewrite Hc. Qed.

Lemma split_blank_words (s : string) :
  split_blank (sub_ws false (rstrip s)) = fst (scan s) :: snd (scan s)
  /\ split_blank (sub_ws true (rstrip s))
     = match words s with [] => [""] | ws => ws end.
Proof.
  induction s as [|c s [IH1 IH2]]; [done|].
  destruct (is_space c) eqn:Hc.
  - rewrite words_space, scan_space by done.
    simpl rstrip. rewrite Hc. simpl andb.
    destruct (String.eqb (rstrip s) "") eqn:Hr.
    + apply rstrip_blank in Hr. by rewrite Hr.
    + simpl. rewrite Hc. simpl. rewrite IH2.
      destruct (words s) eqn:Hw; [|done].
      apply rstrip_blank in Hw. congruence.
  - rewrite words_letter, scan_letter by done.
    simpl. rewrite !Hc. simpl. rewrite !Hc.
    simpl. rewrite (is_space_not_blank _ Hc), IH1. done.
Qed.

(** The parts [parse_card] works on are the words of the upper-cased
    text, or one empty part when there is no word. *)
Lemma parse_card_parts (s : string) :
  split_blank (sub_ws false (upper (strip s)))
  = match tokens s with [] => [""] | ws => ws end.
Proof.
  unfold strip, tokens.
  rewrite upper_lstrip, upper_rstrip, sub_ws_lstrip.
  apply split_blank_words.
Qed.

Lemma SUITS_keys (w su : string) :
  SUITS !! w = Some su ->
  w ∈ ["SPADE"; "SPADES"; "HEART"; "HEARTS"; "DIAMOND"; "DIAMONDS"; "CLUB";
       "CLUBS"].
Proof.
  intros H. apply elem_of_list_to_map_2 in H.
  repeat (apply elem_of_cons in H as [H|H];
          [injection H as -> _; set_solver|]).
  by apply elem_of_nil in H.
Qed.

(** No word names both a suit and a rank. *)
Lemma SUITS_RANKS_disjoint (w su : string) :
  SUITS !! w = Some su -> RANKS !! w = None.
Proof.
  intros H. apply SUITS_keys in H.
  repeat (apply elem_of_cons in H as [->|H]; [by vm_compute|]).
  by apply elem_of_nil in H.
Qed.

Lemma card_code_Ok (suit_word rank_word code : string) :
  card_code suit_word rank_word = Ok code <->
  exists su r, SUITS !! suit_word = Some su /\ RANKS !! rank_word = Some r
               /\ code = r ++ su.
Proof.
  unfold card_code.
  destruct (SUITS !! suit_word) as [su|], (RANKS !! rank_word) as [r|];
    split; try done; try (by intros (? & ? & ? & ? & ?)).
  - intros [= <-]. by exists su, r.
  - by intros (? & ? & [= <-] & [= <-] & ->).
Qed.

Lemma card_code_cases (suit_word rank_word : string) :
  (exists code, card_code suit_word rank_word = Ok code)
  \/ card_code suit_word rank_word = Raise (ValueError MsgInvalidSuitOrRank).
Proof.
  unfold card_code.
  destruct (SUITS !! suit_word), (RANKS !! rank_word); eauto.
Qed.

Lemma parse_card_two (s a b : string) :
  tokens s = [a; b] ->
  parse_card s = if has_key RANKS a && has_key SUITS b
                 then card_code b a else card_code a b.
Proof. intros H. unfold parse_card. by rewrite parse_card_parts, H. Qed.

Lemma parse_card_three (s a b c : string) :
  tokens s = [a; b; c] ->
  parse_card s = if String.eqb b "OF" then card_code c a
                 else Raise (ValueError (MsgInvalidFormat s)).
Proof. intros H. unfold parse_card. by rewrite parse_card_parts, H. Qed.

Lemma parse_card_Ok (s code : string) :
  parse_card s = Ok code <-> card_form s code.
Proof.
  split.
  - intros H.
    destruct (tokens s) as [|a [|b [|c [|d ws]]]] eqn:Ht;
      try (unfold parse_card in H; rewrite parse_card_parts, Ht in H; done).
    + rewrite (parse_card_two _ _ _ Ht) in H.
      destruct (has_key RANKS a && has_key SUITS b);
        apply card_code_Ok in H as (su & r & HS & HR & ->).
      * by eapply form_rank_suit.
      * by eapply form_suit_rank.
    + rewrite (parse_card_three _ _ _ _ Ht) in H.
      destruct (String.eqb_spec b "OF") as [->|]; [|done].
      apply card_code_Ok in H as (su & r & HS & HR & ->).
      by eapply form_rank_of_suit.
  - intros [S R su r Ht HS HR ->|S R su r Ht HS HR ->|S R su r Ht HS HR ->].
    + rewrite (parse_card_two _ _ _ Ht).
      unfold has_key. rewrite (SUITS_RANKS_disjoint _ _ HS). simpl.
      apply card_code_Ok. eauto.
    + rewrite (parse_card_two _ _ _ Ht).
      unfold has_key. rewrite HS, HR. simpl.
      apply card_code_Ok. eauto.
    + rewrite (parse_card_three _ _ _ _ Ht). simpl.
      apply card_code_Ok. eauto.
Qed.

Lemma parse_card_InvalidFormat (s : string) (e : exn) :
  parse_card s = Raise e ->
  (kind_of e = InvalidFormat <-> ~ card_shape (tokens s))
  /\ (kind_of e = InvalidSuitOrRank <-> card_shape (tokens s)).
Proof.
  intros H. unfold card_shape.
  destruct (tokens s) as [|a [|b [|c [|d ws]]]] eqn:Ht.
  - unfold parse_card in H. rewrite parse_card_parts, Ht in H.
    injection H as <-. simpl. split; split; try done.
    + intros _ [?|(? & ? & ?)]; done.
    + intros [?|(? & ? & ?)]; done.
  - unfold parse_card in H. rewrite parse_card_parts, Ht in H.
    injection H as <-. simpl. split; split; try done.
    + intros _ [?|(? & ? & ?)]; done.
    + intros [?|(? & ? & ?)]; done.
  - rewrite (parse_card_two _ _ _ Ht) in H.
    assert (e = ValueError MsgInvalidSuitOrRank) as ->.
    { destruct (has_key RANKS a && has_key SUITS b).
      - destruct (card_code_cases b a) as [[? Hc]|Hc]; congruence.
      - destruct (card_code_cases a b) as [[? Hc]|Hc]; congruence. }
    simpl. split; split; try done.
    + intros Hn. destruct Hn. by left.
    + intros _. by left.
  - rewrite (parse_card_three _ _ _ _ Ht) in H.
    destruct (String.eqb_spec b "OF") as [->|Hof].
    + assert (e = ValueError MsgInvalidSuitOrRank) as ->.
      { destruct (card_code_cases c a) as [[? Hc]|Hc]; congruence. }
      simpl. split; split; try done.
      * intros Hn. destruct Hn. right. eauto.
      * intros _. right. eauto.
    + injection H as <-. simpl. split; split; try done.
      * intros _ [?|(? & ? & ?)]; [done|]. congruence.
      * intros [?|(? & ? & ?)]; [done|]. congruence.
  - unfold parse_card in H. rewrite parse_card_parts, Ht in H.
    injection H as <-. simpl. split; split; try done.
    + intros _ [?|(? & ? & ?)]; done.
    + intros [?|(? & ? & ?)]; done.
Qed.

(** C9, counterexample: "Ace Spades" is neither [<Suit> <Rank>] nor
    [<Rank> OF <Suit>], and is read as the ace of spades. *)
Lemma parse_card_counterexample :
  ~ accepts_exactly_claimed_forms "Ace Spades".
Proof.
  intros [H _].
  destruct H as (S & R & [su HS] & _ & [Ht|Ht]).
  - exists "As". by vm_compute.
  - vm_compute in Ht. injection Ht as <- <-. by vm_compute in HS.
  - vm_compute in Ht. discriminate.
Qed.

(** C9, amended. On ASCII text, case-insensitively and after white-space
    normalisation, the parser accepts exactly three forms:
    [<Suit> <Rank>], [<Rank> <Suit>] and [<Rank> OF <Suit>], the suit a
    key of [SUITS] (a word) and the rank a key of [RANKS] (a word, or a
    numeral from 2 to 10), and returns the card of that rank and suit.
    A text that is not two words, nor three with [OF] in the middle, fails
    with [InvalidFormat]; a text of that shape whose words do not name a
    suit and a rank fails with [InvalidSuitOrRank]. *)
Theorem parse_card_spec (s : string) :
  is_ascii_text s = true ->
  (forall code, parse_card s = Ok code <-> card_form s code)
  /\ ((exists e, parse_card s = Raise e /\ kind_of e = InvalidFormat)
      <-> ~ card_shape (tokens s))
  /\ ((exists e, parse_card s = Raise e /\ kind_of e = InvalidSuitOrRank)
      <-> card_shape (tokens s) /\ ~ exists code, card_form s code).
Proof.
  intros _. split; [apply parse_card_Ok|].
  destruct (parse_card s) as [code|e] eqn:Hp.
  - apply parse_card_Ok in Hp as Hform. split; split.
    + by intros (? & ? & _).
    + intros Hn. destruct Hn. unfold card_shape.
      destruct Hform as [? ? ? ? -> _ _ _|? ? ? ? -> _ _ _|? ? ? ? -> _ _ _];
        eauto.
    + by intros (? & ? & _).
    + intros [_ Hn]. destruct Hn. eauto.
  - destruct (parse_card_InvalidFormat s e Hp) as [Hf Hs]. split; split.
    + intros (e' & [= <-] & Hk). by apply Hf.
    + intros Hn. exists e. split; [done|]. by apply Hf.
    + intros (e' & [= <-] & Hk). split; [by apply Hs|].
      intros [code Hc]. apply parse_card_Ok in Hc. congruence.
    + intros [Hshape _]. exists e. split; [done|]. by apply Hs.
Qed.

Lemma parse_card_spec_witness :
  parse_card "  ten   OF hearts " = Ok "Th"
  <-> card_form "  ten   OF hearts " "Th".
Proof.
  destruct (parse_card_spec "  ten   OF hearts ") as [H _].
  - vm_compute. reflexivity.
  - exact (H "Th").
Defined.

(** ** Python floats

    A Python [float] is an IEEE 754 binary64 number. A finite one is kept
    as the rational number it denotes, and every operation rounds the
    exact result to the nearest binary64 number, ties to the even
    mantissa. *)

Inductive pyfloat :=
| Fin (q : Q)
| Inf (negative : bool)
| NaN.

(** Numerator and denominator of [(n / d) / 2^e]. *)
Definition shift_ratio (n : Z) (d : positive) (e : Z) : Z * Z :=
  if 0 <=? e then (n, Zpos d * 2 ^ e) else (n * 2 ^ (- e), Zpos d).

(** The integer nearest to [num / den], the even one of two candidates. *)
Definition round_half_even (num den : Z) : Z :=
  let q := num / den in
  let r := num mod den in
  match 2 * r ?= den with
  | Lt => q
  | Eq => if Z.even q then q else q + 1
  | Gt => q + 1
  end.

(** [floor (log2 (n / d))] *)
Definition ilog2_ratio (n d : positive) : Z :=
  let k := Z.log2 (Zpos n) - Z.log2 (Zpos d) in
  let '(a, b) := shift_ratio (Zpos n) d k in
  if b <=? a then k else k - 1.

(** The exponent of the last mantissa bit of a number in binade [k]:
    53 bits of precision, subnormal below [2^-1022]. *)
Definition ulp_exponent (k : Z) : Z := Z.max (k - 52) (-1074).

(** The number [m * 2^e]. *)
Definition dyadic (m e : Z) : Q :=
  if 0 <=? e then inject_Z (m * 2 ^ e) else m # Z.to_pos (2 ^ (- e)).

Definition fl_pos (n d : positive) : Q :=
  let e := ulp_exponent (ilog2_ratio n d) in
  let '(a, b) := shift_ratio (Zpos n) d e in
  dyadic (round_half_even a b) e.

(** Rounding to binary64, before the overflow test. *)
Definition fl (q : Q) : Q :=
  match Qnum q with
  | Z0 => 0%Q
  | Zpos n => fl_pos n (Qden q)
  | Zneg n => (- fl_pos n (Qden q))%Q
  end.

(** The rounded value, infinite from [2^1024] on. *)
Definition round64 (q : Q) : pyfloat :=
  let v := fl q in
  if Qle_bool (2 ^ 1024) (Qabs v) then Inf (Qle_bool v 0) else Fin v.

(** *** Arithmetic between Python numbers *)

(** [float(z)], also applied to the integer operand of a mixed operation:
    an integer too large for a float raises [OverflowError]. *)
Definition float_of_int (z : Z) : result pyfloat :=
  match round64 (inject_Z z) with
  | Inf _ => Raise OverflowError
  | x => Ok x
  end.

(** [a / b] on integers: the exact quotient, rounded once. *)
Definition int_truediv (a b : Z) : result pyfloat :=
  if b =? 0 then Raise ZeroDivisionError
  else match round64 (inject_Z a / inject_Z b) with
       | Inf _ => Raise OverflowError
       | x => Ok x
       end.

Definition Qnegative (q : Q) : bool := negb (Qle_bool 0 q).
Definition Qzero (q : Q) : bool := Qeq_bool q 0.

(** [x + y] on floats *)
Definition float_add (x y : pyfloat) : pyfloat :=
  match x, y with
  | NaN, _ | _, NaN => NaN
  | Inf s, Inf s' => if Bool.eqb s s' then Inf s else NaN
  | Inf s, Fin _ | Fin _, Inf s => Inf s
  | Fin a, Fin b => round64 (a + b)
  end.

(** [x - y] on floats *)
Definition float_sub (x y : pyfloat) : pyfloat :=
  match x, y with
  | NaN, _ | _, NaN => NaN
  | Inf s, Inf s' => if Bool.eqb s s' then NaN else Inf s
  | Inf s, Fin _ => Inf s
  | Fin _, Inf s => Inf (negb s)
  | Fin a, Fin b => round64 (a - b)
  end.

(** [x * y] on floats *)
Definition float_mul (x y : pyfloat) : pyfloat :=
  match x, y with
  | NaN, _ | _, NaN => NaN
  | Inf s, Inf s' => Inf (xorb s s')
  | Inf s, Fin a | Fin a, Inf s =>
      if Qzero a then NaN else Inf (xorb s (Qnegative a))
  | Fin a, Fin b => round64 (a * b)
  end.

(** [x / y] on floats: a zero divisor raises [ZeroDivisionError]. *)
Definition float_truediv (x y : pyfloat) : result pyfloat :=
  match x, y with
  | _, Fin b =>
      if Qzero b then Raise ZeroDivisionError
      else match x with
           | NaN => Ok NaN
           | Inf s => Ok (Inf (xorb s (Qnegative b)))
           | Fin a => Ok (round64 (a / b))
           end
  | NaN, _ | _, NaN => Ok NaN
  | Inf _, Inf _ => Ok NaN
  | Fin _, Inf _ => Ok (Fin 0)
  end.

(** [x > y] on floats *)
Definition float_gt (x y : pyfloat) : bool :=
  match x, y with
  | NaN, _ | _, NaN => false
  | Inf s, Inf s' => negb s && s'
  | Inf s, Fin _ => negb s
  | Fin _, Inf s => s
  | Fin a, Fin b => negb (Qle_bool a b)
  end.

(** [int(x)]: truncation towards zero. *)
Definition int_of_float (x : pyfloat) : result Z :=
  match x with
  | Fin q => Ok (Z.quot (Qnum q) (Zpos (Qden q)))
  | Inf _ => Raise OverflowError
  | NaN => Raise (ValueError MsgNaNToInteger)
  end.

(** The literals [0.0], [0.5] and [0.70]. *)
Definition float_0_0 : pyfloat := Fin 0.
Definition float_0_5 : pyfloat := Fin (1 # 2).
Definition float_0_70 : pyfloat := round64 (7 # 10).

(** *** The model against the reference

    The Standard Library specifies binary64 arithmetic on [spec_float]
    (sign, mantissa, exponent). On the samples below, which include
    subnormal numbers, halfway cases and overflow, its operations and
    the rounding of the exact result agree. *)
Module Reference.
Import Floats.SpecFloat.

Definition SF2Q (x : spec_float) : Q :=
  match x with
  | S754_finite s m e => ((if s then -1 else 1) * inject_Z (Zpos m) * 2 ^ e)%Q
  | _ => 0%Q
  end.

Definition Z2SF (z : Z) : spec_float := binary_normalize 53 1024 z 0 false.

Definition same (x : spec_float) (y : pyfloat) : bool :=
  match x, y with
  | S754_infinity s, Inf s' => Bool.eqb s s'
  | S754_nan, NaN => true
  | S754_zero _, Fin q => Qeq_bool q 0
  | S754_finite _ _ _, Fin q => Qeq_bool (SF2Q x) q
  | _, _ => false
  end.

Definition agree (x y : spec_float) : bool :=
  same (SFdiv 53 1024 x y) (round64 (SF2Q x / SF2Q y))
  && same (SFmul 53 1024 x y) (round64 (SF2Q x * SF2Q y))
  && same (SFadd 53 1024 x y) (round64 (SF2Q x + SF2Q y))
  && same (SFsub 53 1024 x y) (round64 (SF2Q x - SF2Q y)).

Definition samples : list spec_float :=
  [Z2SF 1; Z2SF 3; Z2SF 710; Z2SF (2 ^ 53 - 1);
   SFdiv 53 1024 (Z2SF 1) (Z2SF 3); SFdiv 53 1024 (Z2SF 7) (Z2SF 10);
   S754_finite false 3 (-1074); S754_finite false (2 ^ 52 + 1) (-600);
   S754_finite false (2 ^ 53 - 1) 971;
   SFopp (SFdiv 53 1024 (Z2SF 1) (Z2SF 3))].

End Reference.

Example round64_agrees_with_reference :
  forallb (fun x => forallb (Reference.agree x) Reference.samples)
          Reference.samples = true.
Proof. vm_compute. reflexivity. Qed.

Example int_truediv_agrees_with_reference :
  forallb (fun a =>
    match int_truediv (Z.of_nat a) 1000 with
    | Ok x => Reference.same
                (SpecFloat.SFdiv 53 1024 (Reference.Z2SF (Z.of_nat a))
                   (Reference.Z2SF 1000)) x
    | Raise _ => false
    end) (seq 0 1001) = true.
Proof. vm_compute. reflexivity. Qed.

(** [int(100 * (0.71 - 0.5))] is 20, as in Python: the product is
    20.999999999999996. *)
Example float_product_example :
  (match int_truediv 710 1000 with
   | Ok x => match float_of_int 100 with
             | Ok h => int_of_float (float_mul h (float_sub x float_0_5))
             | Raise e => Raise e
             end
   | Raise e => Raise e
   end) = Ok 20.
Proof. vm_compute. reflexivity. Qed.

(** ** 4. The strategy engine ([AIEngine])

    The engine draws on two things that are not part of the program:
    Python's global random generator, whose state is threaded through
    the estimator, and the treys library, which supplies the deck and
    the hand evaluator. *)

Section AIEngine.

(** The state of the random generator. *)
Variable rng : Type.

(** [random.shuffle(x)]: the list as it is afterwards. *)
Variable shuffle : list Z -> M rng (list Z).

(** The cards of a new treys [Deck()], which is shuffled when built. *)
Variable Deck_cards : M rng (list Z).

(** treys' [Evaluator]. [hand_rank] stands for its evaluators of five,
    six and seven cards, which give the rank of the best hand among the
    cards; lower is better. They are made for cards of the deck that
    are all different, and can raise on anything else. *)
Variable hand_rank : list Z -> result Z.

(** treys' [Evaluator.evaluate]: it joins its two lists of cards and
    looks the evaluator for that many cards up in [hand_size_map], whose
    keys are 5, 6 and 7; any other number of cards is a [KeyError]. *)
Definition evaluate (cards board : list Z) : result Z :=
  let all_cards := (cards ++ board)%list in
  match length all_cards with
  | 5%nat | 6%nat | 7%nat => hand_rank all_cards
  | n => Raise (KeyError (Z.of_nat n))
  end.

(** [l.pop()]: the last element, taken off the list. *)
Definition pop (l : list Z) : result (Z * list Z) :=
  match l with
  | [] => Raise IndexError
  | x :: l' => Ok (List.last l' x, removelast l)
  end.

(** [for _ in range(k): simulated_board.append(available_cards.pop())] *)
Fixpoint deal_board (k : nat) (available simulated_board : list Z)
  : result (list Z * list Z) :=
  match k with
  | O => Ok (available, simulated_board)
  | S k' =>
      match pop available with
      | Ok (c, available') => deal_board k' available' (simulated_board ++ [c])
      | Raise e => Raise e
      end
  end.

(** What one trial deals: the opponent's cards and the full board. *)
Record deal := mkDeal {
  opp_cards : list Z;
  simulated_board : list Z
}.

(** Steps 1 and 2 of the body of the simulation loop. *)
Definition deal_trial (known_cards : gset Z) (board_cards : list Z) : M rng deal :=
  let! full_deck := Deck_cards in
  let available_cards :=
    filter (fun c => c ∉ known_cards) full_deck in
  let! available_cards := shuffle available_cards in
  let! first := lift_result (pop available_cards) in
  let! second := lift_result (pop (snd first)) in
  let opp := [fst first; fst second] in
  let needed_board_cards := 5 - Z.of_nat (length board_cards) in
  let! dealt := lift_result (deal_board (Z.to_nat needed_board_cards)
                               (snd second) board_cards) in
  ret (mkDeal opp (snd dealt)).

(** Step 3: the new values of [wins] and [ties]. *)
Definition score (pocket_cards : list Z) (d : deal) (wins ties : Z)
  : result (Z * Z) :=
  match evaluate (simulated_board d) pocket_cards with
  | Raise e => Raise e
  | Ok ai_rank =>
      match evaluate (simulated_board d) (opp_cards d) with
      | Raise e => Raise e
      | Ok opp_rank =>
          Ok (if ai_rank <? opp_rank then (wins + 1, ties)
              else if ai_rank =? opp_rank then (wins, ties + 1)
              else (wins, ties))
      end
  end.

(** [for _ in range(iterations)], with [k] iterations left. *)
Fixpoint simulate (k : nat) (pocket_cards board_cards : list Z)
         (known_cards : gset Z) (wins ties : Z) : M rng (Z * Z) :=
  match k with
  | O => ret (wins, ties)
  | S k' =>
      let! d := deal_trial known_cards board_cards in
      let! tally := lift_result (score pocket_cards d wins ties) in
      simulate k' pocket_cards board_cards known_cards (fst tally) (snd tally)
  end.

(** [(wins + (ties / 2)) / iterations] *)
Definition equity_of (wins ties iterations : Z) : result pyfloat :=
  match int_truediv ties 2 with
  | Raise e => Raise e
  | Ok half =>
      match float_of_int wins with
      | Raise e => Raise e
      | Ok w =>
          match float_of_int iterations with
          | Raise e => Raise e
          | Ok n => float_truediv (float_add w half) n
          end
      end
  end.

(** [AIEngine._monte_carlo_equity] *)
Definition _monte_carlo_equity (pocket_cards board_cards : list Z)
           (iterations : Z) : M rng pyfloat :=
  match pocket_cards with
  | [] => ret float_0_0
  | _ =>
      let known_cards : gset Z := list_to_set (pocket_cards ++ board_cards) in
      let! tally := simulate (Z.to_nat iterations) pocket_cards board_cards
                             known_cards 0 0 in
      lift_result (equity_of (fst tally) (snd tally) iterations)
  end.

(** The texts of the [reason] entry, without the formatting of numbers. *)
Inductive reason :=
| HighEquityValueBet (equity : pyfloat)
| FreeCard
| PlusEVCall (equity pot_odds : pyfloat)
| FreeCardWithWeakHand
| MinusEV (equity pot_odds : pyfloat).

Record decision := mkDecision {
  action : string;
  amount_of : Z;
  reason_of : reason
}.

(** The decision logic of [get_decision], once the equity is known. *)
Definition decide (game : GameController) (ai_player : Player)
           (legal : legal_actions) (pot to_call : Z) (equity : pyfloat)
  : result decision :=
  match (if 0 <? to_call then int_truediv to_call (pot + to_call)
         else Ok (Fin 0)) with
  | Raise e => Raise e
  | Ok pot_odds =>
      if float_gt equity float_0_70 && truthy (RAISE_TO_MIN legal) then
        let min_raise_abs := highest_bet game + min_raise game in
        match float_of_int pot with
        | Raise e => Raise e
        | Ok pot_f =>
            match int_of_float (float_mul pot_f (float_sub equity float_0_5)) with
            | Raise e => Raise e
            | Ok bonus =>
                let target_amount := highest_bet game + bonus in
                let raise_size := Z.max min_raise_abs target_amount in
                let final_raise :=
                  Z.min raise_size (stack ai_player + current_bet ai_player) in
                Ok (mkDecision "RAISE" final_raise (HighEquityValueBet equity))
            end
        end
      else if float_gt equity pot_odds then
        if truthy (CHECK legal) then Ok (mkDecision "CHECK" 0 FreeCard)
        else Ok (mkDecision "CALL" to_call (PlusEVCall equity pot_odds))
      else
        if truthy (CHECK legal) then Ok (mkDecision "CHECK" 0 FreeCardWithWeakHand)
        else Ok (mkDecision "FOLD" 0 (MinusEV equity pot_odds))
  end.

(** [AIEngine.get_decision]; the equity is estimated with the default of
    500 iterations. *)
Definition get_decision (game : GameController) (ai_player : Player)
  : M rng decision :=
  let! legal := lift_result (get_legal_actions game) in
  let pot := get_total_pot_size (table game) in
  let to_call := if truthy (CALL legal) then as_int (CALL legal) else 0 in
  let! equity := _monte_carlo_equity (hole_cards ai_player)
                                     (community_cards (table game)) 500 in
  lift_result (decide game ai_player legal pot to_call equity).

End AIEngine.



(** ** Facts about rounding *)

Lemma round_half_even_bounds (a b : Z) :
  0 < b ->
  a / b <= round_half_even a b
  /\ (forall T, a <= T * b -> round_half_even a b <= T).
Proof.
  intros Hb. unfold round_half_even.
  pose proof (Z.div_mod a b ltac:(lia)) as Hdm.
  pose proof (Z.mod_pos_bound a b Hb) as Hr.
  split.
  - destruct (2 * (a mod b) ?= b); [destruct (Z.even (a / b))|..]; lia.
  - intros T HT.
    assert (a / b <= T) by (apply Z.div_le_upper_bound; lia).
    destruct (Z.compare_spec (2 * (a mod b)) b) as [He|Hl|Hg]; [|lia|].
    + destruct (Z.even (a / b)); [lia|]. nia.
    + nia.
Qed.

Lemma round_half_even_ge (a b T : Z) :
  0 < b -> T * b <= a -> T <= round_half_even a b.
Proof.
  intros Hb HT. destruct (round_half_even_bounds a b Hb) as [Hlo _].
  assert (T <= a / b) by (apply Z.div_le_lower_bound; lia). lia.
Qed.

Lemma dyadic_nonneg (m e : Z) : 0 <= m -> (0 <= dyadic m e)%Q.
Proof.
  intros Hm. unfold dyadic. destruct (0 <=? e) eqn:He.
  - apply Z.leb_le in He. rewrite <- (Zle_Qle 0). 
    apply Z.mul_nonneg_nonneg; [done|]. by apply Z.pow_nonneg.
  - unfold Qle. simpl. lia.
Qed.

Lemma pow2_pos (e : Z) : 0 < 2 ^ e \/ e < 0.
Proof.
  destruct (Z.le_gt_cases 0 e); [left|right; lia].
  by apply Z.pow_pos_nonneg.
Qed.

Lemma dyadic_le_int (m e B : Z) :
  e <= 0 -> m <= B * 2 ^ (- e) -> (dyadic m e <= inject_Z B)%Q.
Proof.
  intros He Hm. unfold dyadic. destruct (0 <=? e) eqn:Hle.
  - apply Z.leb_le in Hle. assert (e = 0) as -> by lia.
    rewrite <- Zle_Qle. simpl in *. lia.
  - unfold Qle. simpl. rewrite Z2Pos.id by (apply Z.pow_pos_nonneg; lia). lia.
Qed.

Lemma dyadic_ge_int (m e B : Z) :
  e <= 0 -> B * 2 ^ (- e) <= m -> (inject_Z B <= dyadic m e)%Q.
Proof.
  intros He Hm. unfold dyadic. destruct (0 <=? e) eqn:Hle.
  - apply Z.leb_le in Hle. assert (e = 0) as -> by lia.
    rewrite <- Zle_Qle. simpl in *. lia.
  - unfold Qle. simpl. rewrite Z2Pos.id by (apply Z.pow_pos_nonneg; lia). lia.
Qed.

(** [ilog2_ratio] does not overshoot: [2^k <= n / d]. *)
Lemma ilog2_ratio_lower (n d : positive) :
  let k := ilog2_ratio n d in
  snd (shift_ratio (Zpos n) d k) <= fst (shift_ratio (Zpos n) d k).
Proof.
  unfold ilog2_ratio.
  set (k := Z.log2 (Z.pos n) - Z.log2 (Z.pos d)).
  destruct (shift_ratio (Z.pos n) d k) as [a b] eqn:Hs.
  destruct (Z.leb_spec b a) as [Hle|Hgt]; [by rewrite Hs|].
  pose proof (Z.log2_spec (Zpos n) ltac:(lia)) as [Hn1 Hn2].
  pose proof (Z.log2_spec (Zpos d) ltac:(lia)) as [Hd1 Hd2].
  pose proof (Z.log2_nonneg (Zpos n)) as Hn0.
  pose proof (Z.log2_nonneg (Zpos d)) as Hd0.
  unfold shift_ratio. destruct (Z.leb_spec 0 (k - 1)) as [Hk|Hk]; simpl.
  - assert (2 ^ Z.log2 (Z.pos n)
            = 2 ^ (k - 1) * 2 ^ (Z.succ (Z.log2 (Z.pos d)))) as Heq.
    { rewrite <- Z.pow_add_r by lia. f_equal. lia. }
    assert (0 < 2 ^ (k - 1)) by (apply Z.pow_pos_nonneg; lia).
    nia.
  - assert (2 ^ Z.succ (Z.log2 (Z.pos d))
            = 2 ^ Z.log2 (Z.pos n) * 2 ^ (- (k - 1))) as Heq.
    { rewrite <- Z.pow_add_r by lia. f_equal. lia. }
    assert (0 < 2 ^ (- (k - 1))) by (apply Z.pow_pos_nonneg; lia).
    nia.
Qed.

Lemma ulp_exponent_small (n d : positive) (B : Z) :
  Zpos n <= B * Zpos d -> B <= 2 ^ 52 ->
  ulp_exponent (ilog2_ratio n d) <= 0.
Proof.
  intros Hq HB. pose proof (ilog2_ratio_lower n d) as Hk. simpl in Hk.
  unfold ulp_exponent.
  destruct (Z.le_gt_cases (ilog2_ratio n d) 52) as [?|Hbig]; [lia|exfalso].
  unfold shift_ratio in Hk.
  destruct (Z.leb_spec 0 (ilog2_ratio n d)); [|lia]. simpl in Hk.
  assert (2 ^ 52 < 2 ^ ilog2_ratio n d) by (apply Z.pow_lt_mono_r; lia).
  nia.
Qed.

Lemma shift_ratio_small (n : Z) (d : positive) (e : Z) :
  e <= 0 ->
  exists b, shift_ratio n d e = (n * 2 ^ (- e), b) /\ b = Zpos d.
Proof.
  intros He. unfold shift_ratio. destruct (Z.leb_spec 0 e).
  - assert (e = 0) as -> by lia. simpl. exists (Zpos d * 1).
    split; [f_equal|]; lia.
  - by exists (Zpos d).
Qed.

Lemma fl_pos_nonneg (n d : positive) : (0 <= fl_pos n d)%Q.
Proof.
  unfold fl_pos.
  destruct (shift_ratio (Z.pos n) d (ulp_exponent (ilog2_ratio n d)))
    as [a b] eqn:Hs.
  apply dyadic_nonneg.
  assert (0 <= a /\ 0 < b) as [Ha Hb].
  { unfold shift_ratio in Hs.
    destruct (0 <=? ulp_exponent (ilog2_ratio n d)) eqn:He; simplify_eq.
    - apply Z.leb_le in He. split; [lia|].
      assert (0 < 2 ^ ulp_exponent (ilog2_ratio n d))
        by (by apply Z.pow_pos_nonneg). nia.
    - apply Z.leb_gt in He. split; [|lia].
      assert (0 < 2 ^ (- ulp_exponent (ilog2_ratio n d)))
        by (apply Z.pow_pos_nonneg; lia). nia. }
  destruct (round_half_even_bounds a b Hb) as [Hlo _].
  pose proof (Z.div_pos a b Ha Hb). lia.
Qed.

Lemma fl_pos_le_int (n d : positive) (B : Z) :
  Zpos n <= B * Zpos d -> B <= 2 ^ 52 -> (fl_pos n d <= inject_Z B)%Q.
Proof.
  intros Hq HB. pose proof (ulp_exponent_small n d B Hq HB) as He.
  unfold fl_pos.
  destruct (shift_ratio_small (Zpos n) d _ He) as (b & -> & ->).
  apply dyadic_le_int; [done|].
  apply round_half_even_bounds; [lia|].
  assert (0 < 2 ^ (- ulp_exponent (ilog2_ratio n d)))
    by (apply Z.pow_pos_nonneg; lia). nia.
Qed.

Lemma fl_pos_ge_int (n d : positive) (B : Z) :
  B * Zpos d <= Zpos n -> Zpos n <= 2 ^ 52 * Zpos d ->
  (inject_Z B <= fl_pos n d)%Q.
Proof.
  intros Hq HB. pose proof (ulp_exponent_small n d (2 ^ 52) HB ltac:(lia)) as He.
  unfold fl_pos.
  destruct (shift_ratio_small (Zpos n) d _ He) as (b & -> & ->).
  apply dyadic_ge_int; [done|].
  apply round_half_even_ge; [lia|].
  assert (0 < 2 ^ (- ulp_exponent (ilog2_ratio n d)))
    by (apply Z.pow_pos_nonneg; lia). nia.
Qed.

Lemma fl_nonneg (q : Q) : (0 <= q)%Q -> (0 <= fl q)%Q.
Proof.
  intros Hq. unfold fl. destruct q as [[|n|n] d]; simpl.
  - done.
  - apply fl_pos_nonneg.
  - unfold Qle in Hq. simpl in Hq. lia.
Qed.

Lemma fl_le_int (q : Q) (B : Z) :
  (0 <= q)%Q -> (q <= inject_Z B)%Q -> B <= 2 ^ 52 -> (fl q <= inject_Z B)%Q.
Proof.
  intros H0 Hq HB. unfold fl. destruct q as [[|n|n] d]; simpl.
  - unfold Qle in *. simpl in *. lia.
  - apply fl_pos_le_int; [|done]. unfold Qle in Hq. simpl in Hq. lia.
  - unfold Qle in H0. simpl in H0. lia.
Qed.

Lemma fl_ge_int (q : Q) (B : Z) :
  (inject_Z B <= q)%Q -> (q <= inject_Z (2 ^ 52))%Q -> 0 < B ->
  (inject_Z B <= fl q)%Q.
Proof.
  intros Hq HB H0. unfold fl. destruct q as [[|n|n] d]; simpl.
  - unfold Qle in *. simpl in *. lia.
  - apply fl_pos_ge_int; unfold Qle in *; simpl in *; lia.
  - unfold Qle in Hq. simpl in Hq. lia.
Qed.

(** Within [0, 2^52] rounding does not overflow. *)
Lemma round64_Fin (q : Q) (B : Z) :
  (0 <= q)%Q -> (q <= inject_Z B)%Q -> B <= 2 ^ 52 ->
  round64 q = Fin (fl q) /\ (0 <= fl q)%Q /\ (fl q <= inject_Z B)%Q.
Proof.
  intros H0 Hq HB.
  pose proof (fl_nonneg q H0) as Hlo. pose proof (fl_le_int q B H0 Hq HB) as Hhi.
  split; [|done]. unfold round64.
  destruct (Qle_bool (2 ^ 1024) (Qabs (fl q))) eqn:Hov; [exfalso|done].
  apply Qle_bool_iff in Hov. rewrite Qabs_pos in Hov by done.
  assert (fl q <= inject_Z (2 ^ 52))%Q as Hb.
  { eapply Qle_trans; [exact Hhi|]. by rewrite <- Zle_Qle. }
  assert (inject_Z (2 ^ 52) < 2 ^ 1024)%Q as Hlt by (by vm_compute).
  apply (Qlt_not_le _ _ Hlt). eapply Qle_trans; [exact Hov|exact Hb].
Qed.

(** ** The equity estimator *)

Lemma pop_spec (l rest : list Z) (c : Z) :
  pop l = Ok (c, rest) <-> l = (rest ++ [c])%list.
Proof.
  split.
  - destruct l as [|x l']; simpl; [done|]. intros [= <- <-].
    assert (List.last l' x = List.last (x :: l') x) as -> by (by destruct l').
    by apply app_removelast_last.
  - intros ->. destruct rest as [|x rest'] eqn:Hr; [done|].
    rewrite <- Hr. assert ((rest ++ [c])%list <> []) as Hne by (by destruct rest).
    unfold pop. destruct (rest ++ [c])%list as [|y l'] eqn:Hl; [done|].
    assert (List.last l' y = List.last (y :: l') y) as -> by (by destruct l').
    rewrite <- Hl, List.last_last, removelast_last. done.
Qed.

Lemma pop_enough (l : list Z) :
  (0 < length l)%nat -> exists c rest, pop l = Ok (c, rest).
Proof. destruct l; simpl; [lia|eauto]. Qed.

(** Dealing [k] board cards takes the last [k] cards, last one first. *)
Lemma deal_board_spec (k : nat) (available board : list Z) :
  (k <= length available)%nat ->
  exists rest dealt,
    deal_board k available board = Ok (rest, (board ++ dealt)%list)
    /\ available = (rest ++ rev dealt)%list /\ length dealt = k.
Proof.
  revert available board. induction k as [|k IH]; intros available board Hk.
  - exists available, []. simpl. by rewrite !app_nil_r.
  - destruct (pop_enough available ltac:(lia)) as (c & rest & Hpop).
    simpl. rewrite Hpop. apply pop_spec in Hpop as ->.
    rewrite length_app in Hk. simpl in Hk.
    destruct (IH rest (board ++ [c])%list ltac:(lia)) as (rest' & dealt & -> & -> & Hlen).
    exists rest', (c :: dealt). simpl. rewrite <- !app_assoc. simpl.
    repeat split. lia.
Qed.

Lemma float_of_int_small (z : Z) :
  0 <= z -> z <= 2 ^ 52 ->
  exists q, float_of_int z = Ok (Fin q)
            /\ (0 <= q)%Q /\ (q <= inject_Z z)%Q
            /\ (0 < z -> (inject_Z z <= q)%Q).
Proof.
  intros H0 Hz. unfold float_of_int.
  assert (0 <= inject_Z z)%Q as Hq by (by rewrite <- (Zle_Qle 0)).
  destruct (round64_Fin (inject_Z z) z Hq ltac:(apply Qle_refl) Hz)
    as (-> & Hlo & Hhi).
  eexists. repeat split; try done.
  intros Hpos. apply fl_ge_int; [apply Qle_refl| |done].
  by rewrite <- Zle_Qle.
Qed.

(** With counts that fit the number of trials, the quotient is a
    finite float between 0 and 1. *)
Lemma equity_of_range (wins ties n : Z) :
  0 <= wins -> 0 <= ties -> wins + ties <= n -> 0 < n -> n <= 2 ^ 52 ->
  exists e, equity_of wins ties n = Ok (Fin e) /\ (0 <= e)%Q /\ (e <= 1)%Q.
Proof.
  intros Hw Ht Hsum Hn Hbig. unfold equity_of, int_truediv. simpl (2 =? 0).
  cbv iota.
  assert (0 <= inject_Z ties / inject_Z 2)%Q as Hh0.
  { apply Qle_shift_div_l; [done|]. rewrite Qmult_0_l.
    by rewrite <- (Zle_Qle 0). }
  assert (inject_Z ties / inject_Z 2 <= inject_Z ties)%Q as Hh1.
  { apply Qle_shift_div_r; [done|]. rewrite <- inject_Z_mult, <- Zle_Qle. lia. }
  destruct (round64_Fin _ ties Hh0 Hh1 ltac:(lia)) as (-> & Hhlo & Hhhi).
  destruct (float_of_int_small wins Hw ltac:(lia)) as (w & -> & Hwlo & Hwhi & _).
  destruct (float_of_int_small n ltac:(lia) Hbig) as (N & -> & HNlo & HNhi & HNge).
  specialize (HNge Hn). unfold float_add, float_truediv.
  assert (0 < N)%Q as HNpos.
  { eapply Qlt_le_trans; [|exact HNge]. by rewrite <- (Zlt_Qlt 0). }
  assert (Qzero N = false) as ->.
  { unfold Qzero. destruct (Qeq_bool N 0) eqn:Hz; [|done].
    apply Qeq_bool_eq in Hz. rewrite Hz in HNpos. by apply Qlt_irrefl in HNpos. }
  set (h := fl (inject_Z ties / inject_Z 2)) in *.
  assert (0 <= w + h)%Q as Hs0.
  { replace 0%Q with (0 + 0)%Q by done. by apply Qplus_le_compat. }
  assert (w + h <= inject_Z (wins + ties))%Q as Hs1.
  { rewrite inject_Z_plus. by apply Qplus_le_compat. }
  destruct (round64_Fin _ _ Hs0 Hs1 ltac:(lia)) as (-> & Hxlo & Hxhi).
  set (x := fl (w + h)) in *.
  assert (0 <= x / N)%Q as Hd0.
  { apply Qle_shift_div_l; [done|]. by rewrite Qmult_0_l. }
  assert (x / N <= inject_Z 1)%Q as Hd1.
  { apply Qle_shift_div_r; [done|]. rewrite Qmult_1_l.
    eapply Qle_trans; [exact Hxhi|]. eapply Qle_trans; [|exact HNge].
    by rewrite <- Zle_Qle. }
  destruct (round64_Fin _ 1 Hd0 Hd1 ltac:(lia)) as (-> & Helo & Hehi).
  eexists. split; [done|]. split; [done|exact Hehi].
Qed.


(** [evaluate] on five to seven cards is the evaluator for that many
    cards; on any other number it is a [KeyError]. *)
Lemma evaluate_sized (hand_rank : list Z -> result Z) (cards board : list Z) :
  (5 <= length cards + length board <= 7)%nat ->
  evaluate hand_rank cards board = hand_rank (cards ++ board)%list.
Proof.
  intros Hlen. unfold evaluate. rewrite length_app.
  destruct (length cards + length board)%nat
    as [|[|[|[|[|[|[|[|n]]]]]]]]; try lia; done.
Qed.

Lemma evaluate_KeyError (hand_rank : list Z -> result Z) (cards board : list Z) :
  (length cards + length board < 5 \/ 7 < length cards + length board)%nat ->
  evaluate hand_rank cards board
  = Raise (KeyError (Z.of_nat (length cards + length board))).
Proof.
  intros Hlen. unfold evaluate. rewrite length_app.
  destruct (length cards + length board)%nat
    as [|[|[|[|[|[|[|[|n]]]]]]]]; try lia; done.
Qed.

Section Estimator.

Variable rng : Type.
Variable shuffle : list Z -> M rng (list Z).
Variable Deck_cards : M rng (list Z).
Variable hand_rank : list Z -> result Z.

#[local] Abbreviation evaluate := (evaluate hand_rank).
#[local] Abbreviation score := (score hand_rank).
#[local] Abbreviation deal_trial := (deal_trial rng shuffle Deck_cards).
#[local] Abbreviation simulate := (simulate rng shuffle Deck_cards hand_rank).
#[local] Abbreviation _monte_carlo_equity :=
  (_monte_carlo_equity rng shuffle Deck_cards hand_rank).

(** The trials of one estimate, in the order in which they are dealt. *)
Fixpoint deals (k : nat) (known_cards : gset Z) (board_cards : list Z)
  : M rng (list deal) :=
  match k with
  | O => ret []
  | S k' =>
      let! d := deal_trial known_cards board_cards in
      let! ds := deals k' known_cards board_cards in
      ret (d :: ds)
  end.

(** Both hands of a trial get a rank. *)
Definition ranked (pocket_cards : list Z) (d : deal) : Prop :=
  exists ai_rank opp_rank,
    evaluate (simulated_board d) pocket_cards = Ok ai_rank
    /\ evaluate (simulated_board d) (opp_cards d) = Ok opp_rank.

(** The opponent's rank is strictly worse (greater) than the hero's. *)
Definition hero_wins (pocket_cards : list Z) (d : deal) : bool :=
  match evaluate (simulated_board d) pocket_cards,
        evaluate (simulated_board d) (opp_cards d) with
  | Ok ai_rank, Ok opp_rank => ai_rank <? opp_rank
  | _, _ => false
  end.

Definition hero_ties (pocket_cards : list Z) (d : deal) : bool :=
  match evaluate (simulated_board d) pocket_cards,
        evaluate (simulated_board d) (opp_cards d) with
  | Ok ai_rank, Ok opp_rank => ai_rank =? opp_rank
  | _, _ => false
  end.

Definition count (f : deal -> bool) (ds : list deal) : Z :=
  Z.of_nat (length (List.filter f ds)).

(** What the specification asks of the cards of one trial: two for the
    opponent and the missing board cards, all different, none of them a
    hole card of the hero or a card of the board. *)
Definition exact_draw (pocket_cards board_cards : list Z) (d : deal) : Prop :=
  length (opp_cards d) = 2%nat
  /\ exists completion,
       simulated_board d = (board_cards ++ completion)%list
       /\ length completion = (5 - length board_cards)%nat
       /\ NoDup (opp_cards d ++ completion)
       /\ (forall c, c ∈ (opp_cards d ++ completion)%list ->
                     (c ∉ pocket_cards) /\ (c ∉ board_cards)).

(** C10. With no hole cards the estimator returns 0.0 at once: no trial
    is run and the random generator is left as it was, whatever the board
    and the number of iterations. *)
Theorem no_pocket_cards_no_equity (board_cards : list Z) (iterations : Z) (r : rng) :
  _monte_carlo_equity [] board_cards iterations r = (Ok float_0_0, r)
  /\ float_0_0 = Fin 0.
Proof. split; reflexivity. Qed.

Lemma count_cons (f : deal -> bool) (d : deal) (ds : list deal) :
  count f (d :: ds) = (if f d then 1 else 0) + count f ds.
Proof. unfold count. simpl. destruct (f d); simpl; lia. Qed.

Lemma wins_or_ties (pocket : list Z) (d : deal) :
  hero_wins pocket d = true -> hero_ties pocket d = false.
Proof.
  unfold hero_wins, hero_ties.
  destruct (evaluate (simulated_board d) pocket) as [a|]; [|done].
  destruct (evaluate (simulated_board d) (opp_cards d)) as [o|]; [|done].
  rewrite Z.ltb_lt, Z.eqb_neq. lia.
Qed.

(** The score of a trial whose hands are ranked. *)
Lemma score_ranked (pocket : list Z) (d : deal) (wins ties : Z) :
  ranked pocket d ->
  score pocket d wins ties
  = Ok (wins + (if hero_wins pocket d then 1 else 0),
        ties + (if hero_ties pocket d then 1 else 0)).
Proof.
  intros (a & o & Ha & Ho). unfold score, hero_wins, hero_ties.
  rewrite Ha, Ho.
  destruct (Z.ltb_spec a o); [|destruct (Z.eqb_spec a o)].
  - replace (a =? o) with false by (symmetry; apply Z.eqb_neq; lia).
    by rewrite Z.add_0_r.
  - replace (a =? o) with true by (symmetry; by apply Z.eqb_eq).
    by rewrite Z.add_0_r.
  - replace (a =? o) with false by (symmetry; by apply Z.eqb_neq).
    by rewrite !Z.add_0_r.
Qed.


(** When every trial is ranked, the loop counts the wins and the ties of
    the trials dealt. *)
Lemma simulate_deals (k : nat) (pocket board : list Z) (known : gset Z)
      (wins ties : Z) (r r' : rng) (ds : list deal) :
  deals k known board r = (Ok ds, r') ->
  Forall (ranked pocket) ds ->
  simulate k pocket board known wins ties r
  = (Ok (wins + count (hero_wins pocket) ds,
         ties + count (hero_ties pocket) ds), r').
Proof.
  revert wins ties r ds. induction k as [|k IH]; intros wins ties r ds.
  { simpl. unfold ret. intros [= <- <-] _. unfold count. simpl.
    by rewrite !Z.add_0_r. }
  simpl. unfold bind, ret, lift_result.
  destruct (deal_trial known board r) as [[d|e] r1]; [|done].
  destruct (deals k known board r1) as [[ds'|e] r2] eqn:Hds; [|done].
  intros [= <- <-] Hall. apply Forall_cons in Hall as [Hd Hall].
  rewrite (score_ranked _ _ _ _ Hd). cbn [fst snd].
  rewrite (IH _ _ _ _ Hds Hall), !count_cons. by rewrite !Z.add_assoc.
Qed.


(** What is assumed of the two libraries: shuffling permutes; a new deck
    holds 52 different cards; and the evaluators of treys rank any five
    to seven different cards of the deck. *)
Variable is_card : Z -> Prop.
Hypothesis shuffle_permutes :
  forall l r, exists l' r', shuffle l r = (Ok l', r') /\ Permutation l l'.
Hypothesis Deck_cards_full :
  forall r, exists cards r',
    Deck_cards r = (Ok cards, r') /\ NoDup cards /\ length cards = 52%nat
    /\ Forall is_card cards.
Hypothesis hand_rank_total :
  forall cards,
    (5 <= length cards <= 7)%nat -> NoDup cards -> Forall is_card cards ->
    exists rank, hand_rank cards = Ok rank.

Lemma unknown_cards_left (known : list Z) (cards : list Z) :
  NoDup cards ->
  (length cards <= length (filter (fun c => c ∉ (list_to_set known : gset Z)) cards)
                   + length known)%nat.
Proof.
  intros Hnd.
  set (P := fun c : Z => c ∉ (list_to_set known : gset Z)).
  rewrite <- (Permutation_length (filter_app_complement P cards)).
  rewrite length_app. apply Nat.add_le_mono_l.
  apply submseteq_length, NoDup_submseteq; [by apply NoDup_filter|].
  intros x Hx. apply list_elem_of_filter in Hx as [Hx _].
  unfold P in Hx. apply dec_stable in Hx. by apply elem_of_list_to_set in Hx.
Qed.

Lemma deal_trial_exact (pocket board : list Z) (r : rng) :
  (length pocket <= 45)%nat -> (length board <= 5)%nat ->
  exists d r',
    deal_trial (list_to_set (pocket ++ board)) board r = (Ok d, r')
    /\ exact_draw pocket board d
    /\ Forall is_card (opp_cards d)
    /\ (forall c, c ∈ simulated_board d -> c ∈ board \/ is_card c).
Proof.
  intros Hp Hb. unfold deal_trial, exact_draw.
  destruct (Deck_cards_full r) as (cards & r1 & HD & Hnd & Hlen & Hcards).
  set (known := list_to_set (pocket ++ board) : gset Z).
  set (avail := filter (fun c => c ∉ known) cards).
  destruct (shuffle_permutes avail r1) as (avail' & r2 & HS & Hperm).
  assert (NoDup avail') as Hnd'.
  { rewrite <- Hperm. by apply NoDup_filter. }
  assert (7 - length board <= length avail')%nat as Hlen'.
  { rewrite <- (Permutation_length Hperm).
    pose proof (unknown_cards_left (pocket ++ board) cards Hnd) as Hu.
    rewrite length_app in Hu. fold known in Hu. fold avail in Hu. lia. }
  destruct (pop_enough avail' ltac:(lia)) as (c1 & rest1 & Hpop1).
  pose proof Hpop1 as E1. apply pop_spec in E1.
  assert (6 - length board <= length rest1)%nat as Hlen1.
  { rewrite E1, length_app in Hlen'. simpl in Hlen'. lia. }
  destruct (pop_enough rest1 ltac:(lia)) as (c2 & rest2 & Hpop2).
  pose proof Hpop2 as E2. apply pop_spec in E2.
  assert (5 - length board <= length rest2)%nat as Hlen2.
  { rewrite E2, length_app in Hlen1. simpl in Hlen1. lia. }
  replace (Z.to_nat (5 - Z.of_nat (length board))) with (5 - length board)%nat
    by lia.
  destruct (deal_board_spec (5 - length board) rest2 board Hlen2)
    as (rest3 & dealt & Hdeal & E3 & Hlen3).
  exists (mkDeal [c1; c2] (board ++ dealt)), r2. split.
  { unfold bind, lift_result, ret. rewrite HD. fold known. fold avail.
    rewrite HS, Hpop1. simpl. rewrite Hpop2. simpl. by rewrite Hdeal. }
  assert (avail' ≡ₚ rest3 ++ (c1 :: c2 :: dealt)) as Hall.
  { rewrite E1, E2, E3. rewrite <- !app_assoc.
    apply Permutation_app_head.
    rewrite <- Permutation_rev. simpl.
    rewrite (Permutation_app_comm dealt [c2; c1]). simpl. apply perm_swap. }
  assert (forall c, c ∈ c1 :: c2 :: dealt -> c ∈ avail) as Hin.
  { intros c Hc. rewrite Hperm, Hall. apply elem_of_app. by right. }
  assert (forall c, c ∈ c1 :: c2 :: dealt -> is_card c) as Hcard.
  { intros c Hc. apply Hin, list_elem_of_filter in Hc as [_ Hc].
    rewrite Forall_forall in Hcards. by apply Hcards. }
  simpl. split; [|split].
  - split; [done|]. exists dealt. split; [done|]. split; [done|]. split.
    + rewrite Hall in Hnd'. by apply NoDup_app in Hnd' as (_ & _ & ?).
    + intros c Hc. apply Hin, list_elem_of_filter in Hc as [Hk _].
      unfold known in Hk.
      rewrite elem_of_list_to_set, elem_of_app in Hk. tauto.
  - apply Forall_forall. intros c Hc. apply Hcard.
    apply elem_of_cons in Hc as [->|Hc]; [by left|].
    apply list_elem_of_singleton in Hc as ->. right. by left.
  - intros c [Hc|Hc]%elem_of_app; [by left|right].
    apply Hcard. by do 2 right.
Qed.

(** A trial dealt for one or two hole cards that are cards of the deck,
    different from one another and from the board, is ranked. *)
Lemma exact_draw_ranked (pocket board : list Z) (d : deal) :
  (1 <= length pocket <= 2)%nat -> (length board <= 5)%nat ->
  NoDup (pocket ++ board) -> Forall is_card (pocket ++ board) ->
  exact_draw pocket board d ->
  Forall is_card (opp_cards d) ->
  (forall c, c ∈ simulated_board d -> c ∈ board \/ is_card c) ->
  ranked pocket d.
Proof.
  intros Hp Hb Hnd Hcards (Hopp & completion & Hsb & Hlen & Hnd' & Hnew)
    Hoppc Hsbc.
  apply NoDup_app in Hnd as (Hndp & Hpb & Hndb).
  apply Forall_app in Hcards as [Hpc Hbc].
  rewrite Forall_forall in Hpc, Hbc, Hoppc.
  apply NoDup_app in Hnd' as (Hndo & Hoc & Hndc).
  assert (length (simulated_board d) = 5%nat) as Hl5.
  { rewrite Hsb, length_app. lia. }
  assert (NoDup (simulated_board d)) as Hndsb.
  { rewrite Hsb. apply NoDup_app. split; [done|]. split; [|done].
    intros c Hc Hc'.
    destruct (Hnew c) as [_ Hn]; [apply elem_of_app; by right|done]. }
  assert (Forall is_card (simulated_board d)) as Hsbcards.
  { apply Forall_forall. intros c Hc.
    destruct (Hsbc c Hc) as [Hc'|Hc']; [by apply Hbc|done]. }
  assert (exists a, evaluate (simulated_board d) pocket = Ok a) as [a Ha].
  { rewrite evaluate_sized by lia. apply hand_rank_total.
    - rewrite length_app. lia.
    - apply NoDup_app. split; [done|]. split; [|done].
      intros c Hc Hc'. rewrite Hsb in Hc.
      apply elem_of_app in Hc as [Hc|Hc].
      + by apply (Hpb c).
      + destruct (Hnew c) as [Hn _]; [apply elem_of_app; by right|done].
    - apply Forall_app. split; [done|by apply Forall_forall]. }
  assert (exists o, evaluate (simulated_board d) (opp_cards d) = Ok o)
    as [o Ho].
  { rewrite evaluate_sized by lia. apply hand_rank_total.
    - rewrite length_app. lia.
    - apply NoDup_app. split; [done|]. split; [|done].
      intros c Hc Hc'. rewrite Hsb in Hc.
      apply elem_of_app in Hc as [Hc|Hc].
      + destruct (Hnew c) as [_ Hn]; [apply elem_of_app; by left|done].
      + by apply (Hoc c).
    - apply Forall_app. split; [done|by apply Forall_forall]. }
  by exists a, o.
Qed.

Lemma deals_exact (k : nat) (pocket board : list Z) (r : rng) :
  (1 <= length pocket <= 2)%nat -> (length board <= 5)%nat ->
  NoDup (pocket ++ board) -> Forall is_card (pocket ++ board) ->
  exists ds r',
    deals k (list_to_set (pocket ++ board)) board r = (Ok ds, r')
    /\ length ds = k /\ Forall (exact_draw pocket board) ds
    /\ Forall (ranked pocket) ds.
Proof.
  intros Hp Hb Hnd Hcards. revert r. induction k as [|k IH]; intros r.
  { by exists [], r. }
  destruct (deal_trial_exact pocket board r ltac:(lia) Hb)
    as (d & r1 & Hd & Hex & Hoppc & Hsbc).
  destruct (IH r1) as (ds & r2 & Hds & Hlen & Hall & Hranked).
  exists (d :: ds), r2. simpl. unfold bind, ret. rewrite Hd, Hds.
  split; [done|]. split; [by rewrite Hlen|]. split; [by constructor|].
  constructor; [|done]. by eapply exact_draw_ranked.
Qed.

Lemma count_bounds (pocket : list Z) (ds : list deal) :
  0 <= count (hero_wins pocket) ds /\ 0 <= count (hero_ties pocket) ds
  /\ count (hero_wins pocket) ds + count (hero_ties pocket) ds
     <= Z.of_nat (length ds).
Proof.
  induction ds as [|d ds IH]; [done|]. rewrite !count_cons.
  pose proof (wins_or_ties pocket d) as Hwt.
  simpl length. destruct (hero_wins pocket d).
  - rewrite (Hwt eq_refl). lia.
  - destruct (hero_ties pocket d); lia.
Qed.

(** C8. For a hero hand of one or two cards (a Hold'em hand has two), a
    board of at most 5 cards, all of them cards of the deck and all
    different, and a number of iterations [n] from 1 to [2^52], the
    estimator runs [n] trials; each trial deals 2 opponent cards and
    [5 - |board|] board cards, all different and none of them a hole
    card of the hero or a card of the board; both hands of every trial
    are ranked on the full board, a trial is a win when the opponent's
    rank is greater than the hero's and a tie when the ranks are equal;
    the result is the float [(wins + ties / 2) / n], which lies between
    0 and 1. *)
Theorem monte_carlo_equity_spec (pocket board : list Z) (n : Z) (r : rng) :
  (1 <= length pocket <= 2)%nat -> (length board <= 5)%nat ->
  NoDup (pocket ++ board) -> Forall is_card (pocket ++ board) ->
  0 < n -> n <= 2 ^ 52 ->
  exists ds r' e,
    deals (Z.to_nat n) (list_to_set (pocket ++ board)) board r = (Ok ds, r')
    /\ Z.of_nat (length ds) = n
    /\ Forall (exact_draw pocket board) ds
    /\ Forall (ranked pocket) ds
    /\ _monte_carlo_equity pocket board n r = (Ok (Fin e), r')
    /\ equity_of (count (hero_wins pocket) ds) (count (hero_ties pocket) ds) n
       = Ok (Fin e)
    /\ (0 <= e)%Q /\ (e <= 1)%Q.
Proof.
  intros Hp Hb Hnd Hcards Hn Hbig.
  destruct (deals_exact (Z.to_nat n) pocket board r Hp Hb Hnd Hcards)
    as (ds & r' & Hds & Hlen & Hall & Hranked).
  destruct (count_bounds pocket ds) as (Hw & Ht & Hsum).
  destruct (equity_of_range (count (hero_wins pocket) ds)
              (count (hero_ties pocket) ds) n Hw Ht ltac:(lia) Hn Hbig)
    as (e & He & He0 & He1).
  exists ds, r', e. repeat split; try done; [lia|].
  unfold _monte_carlo_equity. destruct pocket as [|c pocket']; [simpl in Hp; lia|].
  unfold bind, lift_result.
  rewrite (simulate_deals _ _ _ _ _ _ _ _ _ Hds Hranked).
  simpl fst. simpl snd. rewrite !Z.add_0_l. by rewrite He.
Qed.

(** A hero hand of three cards or more (up to 45) makes the estimator
    raise: the first trial is dealt, and ranking the hero's hand on the
    five board cards asks treys for an evaluator of eight cards or
    more, a [KeyError]. *)
Theorem monte_carlo_equity_KeyError (pocket board : list Z) (n : Z) (r : rng) :
  (3 <= length pocket <= 45)%nat -> (length board <= 5)%nat ->
  0 < n ->
  exists r',
    _monte_carlo_equity pocket board n r
    = (Raise (KeyError (5 + Z.of_nat (length pocket))), r').
Proof.
  intros Hp Hb Hn.
  destruct (deal_trial_exact pocket board r ltac:(lia) Hb)
    as (d & r1 & Hd & (_ & completion & Hsb & Hlen & _) & _).
  exists r1. unfold _monte_carlo_equity.
  destruct pocket as [|c pocket'] eqn:Hpocket; [simpl in Hp; lia|].
  rewrite <- Hpocket in *.
  destruct (Z.to_nat n) as [|k] eqn:Hk; [lia|].
  unfold bind, lift_result. simpl simulate. unfold bind, lift_result.
  rewrite Hd. unfold score.
  rewrite evaluate_KeyError
    by (rewrite Hsb, length_app; lia).
  do 3 f_equal. rewrite Hsb, length_app. lia.
Qed.

End Estimator.

(** A generator for examples: the state counts the draws, a shuffle
    reverses the list, the deck is the numbers 0 to 51 and the rank of
    some cards is minus their sum. *)
Module Example.

Definition shuffle (l : list Z) : M nat (list Z) :=
  fun r => (Ok (rev l), S r).
Definition Deck_cards : M nat (list Z) :=
  fun r => (Ok (map Z.of_nat (seq 0 52)), S r).
Definition hand_rank (cards : list Z) : result Z :=
  Ok (- fold_right Z.add 0 cards).
Definition is_card (c : Z) : Prop := 0 <= c < 52.

Lemma shuffle_permutes :
  forall l r, exists l' r', shuffle l r = (Ok l', r') /\ Permutation l l'.
Proof. intros l r. exists (rev l), (S r). split; [done|apply Permutation_rev]. Qed.

Lemma Deck_cards_full :
  forall r, exists cards r',
    Deck_cards r = (Ok cards, r') /\ NoDup cards /\ length cards = 52%nat
    /\ Forall is_card cards.
Proof.
  intros r. eexists _, _. split; [done|]. split; [|split; [done|]].
  - apply (bool_decide_unpack _). by vm_compute.
  - apply Forall_forall. intros c Hc.
    apply list_elem_of_fmap in Hc as (k & -> & Hk).
    apply elem_of_seq in Hk. unfold is_card. lia.
Qed.

Lemma hand_rank_total :
  forall cards,
    (5 <= length cards <= 7)%nat -> NoDup cards -> Forall is_card cards ->
    exists rank, hand_rank cards = Ok rank.
Proof. intros cards _ _ _. by eexists. Qed.

End Example.

Lemma monte_carlo_equity_spec_witness :
  exists ds r' e,
    deals nat Example.shuffle Example.Deck_cards 3
          (list_to_set ([50; 51] ++ [1; 2; 3])) [1; 2; 3] 0%nat = (Ok ds, r')
    /\ Z.of_nat (length ds) = 3
    /\ Forall (exact_draw [50; 51] [1; 2; 3]) ds
    /\ Forall (ranked Example.hand_rank [50; 51]) ds
    /\ _monte_carlo_equity nat Example.shuffle Example.Deck_cards
         Example.hand_rank [50; 51] [1; 2; 3] 3 0%nat = (Ok (Fin e), r')
    /\ equity_of (count (hero_wins Example.hand_rank [50; 51]) ds)
         (count (hero_ties Example.hand_rank [50; 51]) ds) 3
       = Ok (Fin e)
    /\ (0 <= e)%Q /\ (e <= 1)%Q.
Proof.
  apply (monte_carlo_equity_spec nat Example.shuffle Example.Deck_cards
           Example.hand_rank Example.is_card Example.shuffle_permutes
           Example.Deck_cards_full Example.hand_rank_total
           [50; 51] [1; 2; 3] 3 0%nat).
  - simpl. lia.
  - simpl. lia.
  - apply (bool_decide_unpack _). by vm_compute.
  - repeat constructor; unfold Example.is_card; lia.
  - lia.
  - vm_compute. discriminate.
Defined.

Lemma monte_carlo_equity_KeyError_witness :
  exists r',
    _monte_carlo_equity nat Example.shuffle Example.Deck_cards
      Example.hand_rank [49; 50; 51] [1; 2; 3] 500 0%nat
    = (Raise (KeyError 8), r').
Proof.
  apply (monte_carlo_equity_KeyError nat Example.shuffle Example.Deck_cards
           Example.hand_rank Example.is_card Example.shuffle_permutes
           Example.Deck_cards_full [49; 50; 51] [1; 2; 3] 500 0%nat).
  - simpl. lia.
  - simpl. lia.
  - lia.
Defined.

(** ** The decision policy *)









Section Policy.

Variable rng : Type.
Variable shuffle : list Z -> M rng (list Z).
Variable Deck_cards : M rng (list Z).
Variable hand_rank : list Z -> result Z.

#[local] Abbreviation deals := (deals rng shuffle Deck_cards).
#[local] Abbreviation _monte_carlo_equity :=
  (_monte_carlo_equity rng shuffle Deck_cards hand_rank).
#[local] Abbreviation get_decision :=
  (get_decision rng shuffle Deck_cards hand_rank).

Lemma deals_length (k : nat) (known : gset Z) (board : list Z)
      (r r' : rng) (ds : list deal) :
  deals k known board r = (Ok ds, r') -> length ds = k.
Proof.
  revert r r' ds.
  induction k as [|k IH]; intros r r' ds; simpl; unfold bind, ret.
  { by intros [= <- _]. }
  destruct (deal_trial rng shuffle Deck_cards known board r) as [[d|e] r1];
    [|done].
  destruct (deals k known board r1) as [[ds'|e] r2] eqn:Hds; [|done].
  intros [= <- _]. simpl. f_equal. by eapply IH.
Qed.



End Policy.



(** * Further properties of the code *)

(** ** Turn order: [_next_active] *)

Lemma next_active_loop_first (ps : list Player) (n start_idx i : Z) (k : nat) :
  0 < n ->
  let r := next_active_loop ps n start_idx i k in
  (r = -1
   /\ forall j p, i <= j < i + Z.of_nat k ->
        ps !! Z.to_nat ((start_idx + j) mod n) = Some p -> can_act p = false)
  \/ (exists j p,
        i <= j < i + Z.of_nat k /\ r = (start_idx + j) mod n
        /\ ps !! Z.to_nat r = Some p /\ can_act p = true
        /\ forall j' q, i <= j' < j ->
             ps !! Z.to_nat ((start_idx + j') mod n) = Some q ->
             can_act q = false).
Proof.
  intros Hn. revert i. induction k as [|k IH]; intros i; simpl.
  { left. split; [done|]. intros j p Hj. lia. }
  assert (forall j, i <= j < i + Z.pos (Pos.of_succ_nat k) ->
            j = i \/ i + 1 <= j < i + 1 + Z.of_nat k) as Hsplit by lia.
  destruct (IH (i + 1)) as [[Hr Hall]|(j & q & Hj & Hr & Hq & Hc & Hbefore)].
  - destruct (ps !! Z.to_nat ((start_idx + i) mod n)) as [p|] eqn:Hp.
    + destruct (can_act p) eqn:Hact.
      * right. exists i, p. repeat split; try done; try lia.
      * left. split; [done|]. intros j p' Hj Hp'.
        destruct (Hsplit j Hj) as [->|Hj']; [congruence|by eapply Hall].
    + left. split; [done|]. intros j p' Hj Hp'.
      destruct (Hsplit j Hj) as [->|Hj']; [congruence|by eapply Hall].
  - assert (forall j' q', i <= j' < j ->
              (forall p, ps !! Z.to_nat ((start_idx + i) mod n) = Some p ->
                         can_act p = false) ->
              ps !! Z.to_nat ((start_idx + j') mod n) = Some q' ->
              can_act q' = false) as Hrest.
    { intros j' q' Hj' Hi Hq'. destruct (Z.eq_dec j' i) as [->|].
      - by apply Hi.
      - apply (Hbefore j' q'); [lia|done]. }
    destruct (ps !! Z.to_nat ((start_idx + i) mod n)) as [p|] eqn:Hp.
    + destruct (can_act p) eqn:Hact.
      * right. exists i, p. repeat split; try done; try lia.
      * right. exists j, q. repeat split; try done; try lia.
        intros j' q' Hj' Hq'. apply (Hrest j' q'); [done| |done].
        intros p' [= <-]. done.
    + right. exists j, q. repeat split; try done; try lia.
      intros j' q' Hj' Hq'. apply (Hrest j' q'); [done| |done]. done.
Qed.

(** Every seat is visited by the scan. *)
Lemma seat_offset (n start_idx m : Z) :
  0 <= m < n ->
  exists j, 1 <= j < 1 + n /\ (start_idx + j) mod n = m.
Proof.
  intros Hm. exists ((m - start_idx - 1) mod n + 1).
  pose proof (Z.mod_pos_bound (m - start_idx - 1) n ltac:(lia)).
  split; [lia|].
  replace (start_idx + ((m - start_idx - 1) mod n + 1))
    with ((start_idx + 1) + (m - start_idx - 1) mod n) by lia.
  rewrite Zplus_mod_idemp_r.
  replace (start_idx + 1 + (m - start_idx - 1)) with m by lia.
  apply Z.mod_small. lia.
Qed.

(** When [_next_active] finds nobody, nobody at the table can act. *)
Lemma next_active_none (g : GameController) (start_idx : Z) :
  _next_active g start_idx = -1 ->
  forall p, p ∈ players (table g) -> can_act p = false.
Proof.
  unfold _next_active. intros Hr p Hp.
  apply list_elem_of_lookup in Hp as [m Hm].
  assert (0 <= Z.of_nat m < Z.of_nat (length (players (table g)))) as Hrange.
  { apply lookup_lt_Some in Hm. lia. }
  destruct (next_active_loop_first (players (table g))
              (Z.of_nat (length (players (table g)))) start_idx 1
              (length (players (table g))) ltac:(lia))
    as [[_ Hall]|(j & q & Hj & Hq & _)].
  - destruct (seat_offset _ start_idx (Z.of_nat m) Hrange) as (j & Hj & Hmod).
    apply (Hall j p); [lia|]. by rewrite Hmod, Nat2Z.id.
  - pose proof (Z.mod_pos_bound (start_idx + j)
                  (Z.of_nat (length (players (table g)))) ltac:(lia)).
    lia.
Qed.

(** [_next_active] returns -1 exactly when no player can act; otherwise
    it returns the seat of the first player after [start_idx], going
    round the table, who is active and not all-in. *)
Theorem next_active_spec (g : GameController) (start_idx : Z) :
  (_next_active g start_idx = -1
   <-> forall p, p ∈ players (table g) -> can_act p = false)
  /\ (_next_active g start_idx <> -1 ->
      exists j p,
        1 <= j <= Z.of_nat (length (players (table g)))
        /\ _next_active g start_idx
           = (start_idx + j) mod Z.of_nat (length (players (table g)))
        /\ 0 <= _next_active g start_idx < Z.of_nat (length (players (table g)))
        /\ players (table g) !! Z.to_nat (_next_active g start_idx) = Some p
        /\ can_act p = true
        /\ forall j' q, 1 <= j' < j ->
             players (table g)
               !! Z.to_nat ((start_idx + j')
                            mod Z.of_nat (length (players (table g)))) = Some q ->
             can_act q = false).
Proof.
  pose proof (next_active_none g start_idx) as Hnobody. revert Hnobody.
  set (ps := players (table g)). set (n := Z.of_nat (length ps)).
  unfold _next_active. fold ps. fold n. intros Hnobody.
  destruct (Z.eq_dec n 0) as [Hz|Hnz].
  { assert (ps = []) as -> by (destruct ps; [done|simpl in *; lia]).
    simpl. split; [|done]. split; [|done]. intros _ p Hp.
    by apply elem_of_nil in Hp. }
  assert (0 < n) as Hn by lia.
  destruct (next_active_loop_first ps n start_idx 1 (length ps) Hn)
    as [[Hr Hall]|(j & p & Hj & Hr & Hp & Hact & Hbefore)].
  - split; [|done]. split; [exact Hnobody|done].
  - assert (0 <= (start_idx + j) mod n < n) as Hb
        by (apply Z.mod_pos_bound; lia).
    split.
    + split; [exact Hnobody|].
      intros Hnone. exfalso.
      assert (can_act p = false); [|congruence].
      apply Hnone. apply list_elem_of_lookup. eauto.
    + intros _. exists j, p. fold n in Hj, Hr. rewrite <- Hr.
      repeat split; try done; try lia.
Qed.

(** ** Chips on the table *)

(** Σ(player.stack) *)
Definition stacks_sum (ps : list Player) : Z :=
  fold_right Z.add 0 (map stack ps).

(** Everything the players hold plus everything in the pots. *)
Definition chips_on_table (g : GameController) : Z :=
  stacks_sum (players (table g)) + get_total_pot_size (table g).

Lemma stacks_sum_insert (ps : list Player) (i : nat) (p p' : Player) :
  ps !! i = Some p ->
  stacks_sum (<[i := p']> ps) = stacks_sum ps - stack p + stack p'.
Proof.
  unfold stacks_sum. revert i.
  induction ps as [|q ps IH]; intros [|i] H; simplify_eq/=; [lia|].
  rewrite (IH i H). lia.
Qed.

Lemma stacks_sum_reset_for_hand (ps : list Player) :
  stacks_sum (map Player_reset_for_hand ps) = stacks_sum ps.
Proof. unfold stacks_sum. induction ps as [|q ps IH]; simpl; lia. Qed.

Lemma stacks_sum_reset_for_round (ps : list Player) :
  stacks_sum (map Player_reset_for_round ps) = stacks_sum ps.
Proof. unfold stacks_sum. induction ps as [|q ps IH]; simpl; lia. Qed.

Lemma accepted_chips g i p action amount g1 :
  players (table g) !! i = Some p ->
  accepted g i p action amount g1 ->
  chips_on_table g1 = chips_on_table g.
Proof.
  intros Hp Hacc. unfold chips_on_table.
  destruct Hacc as [amt|amt Hz|amt Hpots|amt Hpots Hl Hm Ha Hb Hcb].
  - simpl. rewrite (stacks_sum_insert _ _ _ _ Hp). simpl.
    unfold get_total_pot_size. simpl. lia.
  - done.
  - unfold do_call. rewrite pot_add_game_size by done.
    simpl. rewrite (stacks_sum_insert _ _ _ _ Hp).
    destruct (Player_bet_fields p (Z.min (highest_bet g - current_bet p) (stack p)))
      as (Hs & _).
    rewrite Hs. unfold get_total_pot_size. simpl. lia.
  - unfold do_raise.
    assert (forall h,
              chips_on_table
                (set_highest_bet
                   (if min_raise g <=? amt - highest_bet g
                    then set_acted (set_min_raise h (amt - highest_bet g)) ∅
                    else h) amt)
              = chips_on_table h) as Hif by (intros; by case_match).
    unfold chips_on_table in Hif. rewrite Hif.
    rewrite pot_add_game_size by done.
    simpl. rewrite (stacks_sum_insert _ _ _ _ Hp).
    destruct (Player_bet_fields p (amt - current_bet p)) as (Hs & _).
    rewrite Hs. unfold get_total_pot_size. simpl. lia.
Qed.

Lemma process_action_chips (g : GameController) (action : string) (amount : Z) :
  chips_on_table (snd (process_action action amount g)) = chips_on_table g.
Proof.
  destruct (process_action action amount g) as [[[]|e] g'] eqn:H.
  - apply process_action_Ok in H as (i & p & g1 & Hcur & Hacc & ->).
    apply current_player_Some in Hcur as [_ Hp].
    unfold chips_on_table. simpl. rewrite table_finish_action.
    by eapply accepted_chips.
  - by apply process_action_Raise in H as ->.
Qed.

Lemma advance_phase_chips (g : GameController) :
  chips_on_table (snd (advance_phase g)) = chips_on_table g.
Proof.
  unfold chips_on_table, advance_phase. run_monad.
  destruct (GamePhase_of_value (GamePhase_value (phase g) + 1)); simpl; [|done].
  by rewrite stacks_sum_reset_for_round.
Qed.

Lemma start_hand_chips (g : GameController) :
  chips_on_table (snd (start_hand g)) = stacks_sum (players (table g)).
Proof.
  destruct (players (table g)) as [|q qs] eqn:Hps.
  - unfold chips_on_table, start_hand, bind, gets, modify, ret, raise. simpl.
    rewrite Hps. simpl. rewrite Hps. done.
  - assert (players (table g) <> []) as Hne by congruence.
    destruct (start_hand_run g Hne)
      as (i_sb & p_sb & i_bb & p_bb & _ & Hp1 & _ & Hp2 & ->).
    rewrite <- Hps. unfold chips_on_table. simpl snd.
    change (table (hand_open ?h ?b)) with (table h).
    rewrite pot_add_game_size by (simpl; done).
    simpl in Hp1, Hp2. simpl.
    rewrite (stacks_sum_insert _ _ _ _ Hp2).
    rewrite (stacks_sum_insert _ _ _ _ Hp1).
    rewrite stacks_sum_reset_for_hand.
    destruct (Player_bet_fields p_sb (small_blind_amount (table g)))
      as (Hs1 & _).
    destruct (Player_bet_fields p_bb (big_blind_amount (table g)))
      as (Hs2 & _).
    rewrite Hs1, Hs2. unfold get_total_pot_size. simpl. lia.
Qed.

(** Betting moves chips, it neither makes nor loses them: whatever the
    state and whatever the action, accepted or rejected,
    [process_action] leaves the sum of the stacks and the pots as it
    was, and so does [advance_phase]. [start_hand] empties the pot it
    finds: after it, stacks and pot together hold what the stacks alone
    held before. *)
Theorem chips_on_table_preserved (g : GameController) (action : string) (amount : Z) :
  chips_on_table (snd (process_action action amount g)) = chips_on_table g
  /\ chips_on_table (snd (advance_phase g)) = chips_on_table g
  /\ chips_on_table (snd (start_hand g)) = stacks_sum (players (table g)).
Proof.
  split; [|split].
  - apply process_action_chips.
  - apply advance_phase_chips.
  - apply start_hand_chips.
Qed.

(** ** Stacks *)

(** [Player.bet] never leaves a negative stack, whatever was asked; and
    a stack it brings to zero belongs to a player marked all-in. *)
Lemma Player_bet_stack (p : Player) (amount : Z) :
  let p' := fst (Player_bet p amount) in
  0 <= stack p' /\ (stack p' = 0 -> is_all_in p' = true).
Proof.
  unfold Player_bet. destruct (Z.leb_spec (stack p) amount); simpl; lia.
Qed.

(** Whoever may still act has chips left. *)
Definition actors_have_chips (g : GameController) : Prop :=
  forall p, p ∈ players (table g) -> can_act p = true -> 0 < stack p.

Lemma elem_of_insert_cases {A} (l : list A) (i : nat) (x y : A) :
  y ∈ <[i := x]> l -> y = x \/ y ∈ l.
Proof.
  intros Hy. apply list_elem_of_lookup in Hy as [j Hj].
  apply list_lookup_insert_Some in Hj as [(_ & -> & _)|[_ Hj]]; [by left|].
  right. apply list_elem_of_lookup. eauto.
Qed.

(** The player objects after an accepted action: only the actor's
    changed, by a fold or by one bet. *)
Lemma accepted_players g i p action amount g1 :
  players (table g) !! i = Some p ->
  accepted g i p action amount g1 ->
  exists p',
    players (table g1) = <[i := p']> (players (table g))
    /\ (p' = p \/ p' = Player_fold p \/ exists amt, p' = fst (Player_bet p amt)).
Proof.
  intros Hp Hacc.
  destruct Hacc as [amt|amt Hz|amt Hpots|amt Hpots Hl Hm Ha Hb Hcb].
  - exists (Player_fold p). split; [done|]. by right; left.
  - exists p. split; [|by left]. by rewrite list_insert_id.
  - eexists. split; [done|]. right; right. by eexists.
  - eexists. split; [|right; right; by eexists].
    unfold do_raise. by case_match.
Qed.

Lemma process_action_players (action : string) (amount : Z) (g : GameController) :
  players (table (snd (process_action action amount g))) = players (table g)
  \/ exists i p p',
       current_player g = Ok (i, p)
       /\ players (table (snd (process_action action amount g)))
          = <[i := p']> (players (table g))
       /\ (p' = p \/ p' = Player_fold p \/ exists amt, p' = fst (Player_bet p amt)).
Proof.
  destruct (process_action action amount g) as [[[]|e] g'] eqn:H.
  - apply process_action_Ok in H as (i & p & g1 & Hcur & Hacc & ->).
    right. exists i, p.
    destruct (current_player_Some _ _ _ Hcur) as [_ Hp].
    destruct (accepted_players _ _ _ _ _ _ Hp Hacc) as (p' & Hps & Hp').
    exists p'. simpl. by rewrite table_finish_action.
  - apply process_action_Raise in H as ->. by left.
Qed.

Lemma start_hand_players (g : GameController) :
  forall p, p ∈ players (table (snd (start_hand g))) ->
    (exists q amt, q ∈ players (table g)
                   /\ p = fst (Player_bet (Player_reset_for_hand q) amt))
    \/ (exists q amt amt', q ∈ players (table g)
          /\ p = fst (Player_bet (fst (Player_bet (Player_reset_for_hand q) amt)) amt'))
    \/ exists q, q ∈ players (table g) /\ p = Player_reset_for_hand q.
Proof.
  intros p Hin. destruct (players (table g)) as [|q0 qs] eqn:Hps.
  { exfalso. revert Hin.
    unfold start_hand, bind, gets, modify, ret, raise. simpl.
    rewrite Hps. simpl. rewrite Hps. simpl. apply not_elem_of_nil. }
  assert (players (table g) <> []) as Hne by congruence.
  rewrite <- Hps.
  destruct (start_hand_run g Hne)
    as (i_sb & p_sb & i_bb & p_bb & _ & Hp1 & _ & Hp2 & Hrun).
  rewrite Hrun in Hin. simpl snd in Hin.
  change (table (hand_open ?h ?b)) with (table h) in Hin.
  simpl in Hin, Hp1, Hp2.
  assert (forall j r, map Player_reset_for_hand (players (table g)) !! j = Some r ->
            exists q, q ∈ players (table g) /\ r = Player_reset_for_hand q) as Hreset.
  { intros j r Hr. rewrite list_lookup_fmap in Hr.
    destruct (players (table g) !! j) as [q|] eqn:Hq; simplify_eq/=.
    exists q. split; [|done]. apply list_elem_of_lookup. eauto. }
  apply elem_of_insert_cases in Hin as [->|Hin].
  - apply list_lookup_insert_Some in Hp2 as [(_ & <- & _)|[_ Hp2]].
    + destruct (Hreset _ _ Hp1) as (q & Hq & ->). right; left. eauto.
    + destruct (Hreset _ _ Hp2) as (q & Hq & ->). left. eauto.
  - apply elem_of_insert_cases in Hin as [->|Hin].
    + destruct (Hreset _ _ Hp1) as (q & Hq & ->). left. eauto.
    + apply list_elem_of_lookup in Hin as [j Hj].
      destruct (Hreset _ _ Hj) as (q & Hq & ->). right; right. eauto.
Qed.

Lemma advance_phase_players (g : GameController) :
  players (table (snd (advance_phase g))) = players (table g)
  \/ players (table (snd (advance_phase g)))
     = map Player_reset_for_round (players (table g)).
Proof.
  unfold advance_phase. run_monad.
  destruct (GamePhase_of_value (GamePhase_value (phase g) + 1)); simpl; auto.
Qed.

(** After [start_hand], from whatever state it was called in, every
    player who may still act has chips; [process_action] and
    [advance_phase] keep it so. *)
Theorem players_to_act_have_chips (g : GameController) (action : string) (amount : Z) :
  actors_have_chips (snd (start_hand g))
  /\ (actors_have_chips g ->
      actors_have_chips (snd (process_action action amount g))
      /\ actors_have_chips (snd (advance_phase g))).
Proof.
  assert (forall q amt, can_act (fst (Player_bet q amt)) = true ->
            0 < stack (fst (Player_bet q amt))) as Hbet.
  { intros q amt Hc. apply can_act_iff in Hc as [_ Hn].
    destruct (Player_bet_stack q amt) as [H0 Hz].
    destruct (Z.eq_dec (stack (fst (Player_bet q amt))) 0) as [He|]; [|lia].
    rewrite (Hz He) in Hn. done. }
  split; [|intros Hinv; split].
  - intros p Hin Hc.
    destruct (start_hand_players g p Hin)
      as [(q & amt & _ & ->)|[(q & amt & amt' & _ & ->)|(q & _ & ->)]];
      try by apply Hbet.
    apply can_act_iff in Hc as [Ha _]. simpl in *. lia.
  - intros p' Hin Hc.
    destruct (process_action_players action amount g)
      as [Heq|(i & p & p1 & Hcur & Heq & Hp1)]; rewrite Heq in Hin.
    + by apply Hinv.
    + apply elem_of_insert_cases in Hin as [->|Hin]; [|by apply Hinv].
      destruct (current_player_Some _ _ _ Hcur) as [_ Hp].
      destruct Hp1 as [->|[->|[amt ->]]].
      * apply Hinv; [|done]. apply list_elem_of_lookup. eauto.
      * apply can_act_iff in Hc as [Ha _]. done.
      * by apply Hbet.
  - intros p' Hin Hc.
    destruct (advance_phase_players g) as [Heq|Heq]; rewrite Heq in Hin.
    + by apply Hinv.
    + apply list_elem_of_fmap in Hin as (q & -> & Hq). by apply (Hinv q).
Qed.

(** No player owes chips. *)
Definition no_debt (g : GameController) : Prop :=
  forall p, p ∈ players (table g) -> 0 <= stack p.

(** Stacks that are not negative stay so: [start_hand],
    [process_action] and [advance_phase] never take from a player more
    than the stack holds. *)
Theorem stacks_never_negative (g : GameController) (action : string) (amount : Z) :
  no_debt g ->
  no_debt (snd (start_hand g))
  /\ no_debt (snd (process_action action amount g))
  /\ no_debt (snd (advance_phase g)).
Proof.
  intros Hinv.
  assert (forall q amt, 0 <= stack (fst (Player_bet q amt))) as Hbet
      by (intros q amt; apply Player_bet_stack).
  split; [|split].
  - intros p Hin.
    destruct (start_hand_players g p Hin)
      as [(q & amt & _ & ->)|[(q & amt & amt' & _ & ->)|(q & Hq & ->)]];
      try apply Hbet.
    by apply (Hinv q).
  - intros p' Hin.
    destruct (process_action_players action amount g)
      as [Heq|(i & p & p1 & Hcur & Heq & Hp1)]; rewrite Heq in Hin.
    + by apply Hinv.
    + apply elem_of_insert_cases in Hin as [->|Hin]; [|by apply Hinv].
      destruct (current_player_Some _ _ _ Hcur) as [_ Hp].
      assert (0 <= stack p) as H0.
      { apply Hinv. apply list_elem_of_lookup. eauto. }
      destruct Hp1 as [->|[->|[amt ->]]]; [done|done|apply Hbet].
  - intros p' Hin.
    destruct (advance_phase_players g) as [Heq|Heq]; rewrite Heq in Hin.
    + by apply Hinv.
    + apply list_elem_of_fmap in Hin as (q & -> & Hq). by apply (Hinv q).
Qed.

Lemma stacks_never_negative_witness :
  no_debt (scenario 20 1000)
  /\ no_debt (snd (start_hand (scenario 20 1000)))
  /\ no_debt (snd (process_action "CALL" 0 (scenario 20 1000)))
  /\ no_debt (snd (advance_phase (scenario 20 1000))).
Proof.
  assert (no_debt (scenario 20 1000)) as H.
  { intros p Hin. simpl in Hin.
    apply elem_of_cons in Hin as [->|Hin]; [simpl; lia|].
    apply elem_of_cons in Hin as [->|Hin]; [simpl; lia|].
    by apply elem_of_nil in Hin. }
  split; [exact H|].
  exact (stacks_never_negative (scenario 20 1000) "CALL" 0 H).
Defined.

(** ** What an action may touch *)

(** [process_action] changes no player but the one whose turn it is,
    and of that player neither the name nor the cards; a folded player
    stays folded and an all-in player stays all-in. The seats, the
    board, the blinds, the button and the phase are left alone. *)
Theorem process_action_only_actor
        (g : GameController) (action : string) (amount : Z) (i : nat) (p : Player) :
  current_player g = Ok (i, p) ->
  let g' := snd (process_action action amount g) in
  length (players (table g')) = length (players (table g))
  /\ (forall j, j <> i -> players (table g') !! j = players (table g) !! j)
  /\ (exists p', players (table g') !! i = Some p'
                 /\ name p' = name p /\ is_ai p' = is_ai p
                 /\ hole_cards p' = hole_cards p
                 /\ (is_active p = false -> is_active p' = false)
                 /\ (is_all_in p = true -> is_all_in p' = true))
  /\ community_cards (table g') = community_cards (table g)
  /\ small_blind_amount (table g') = small_blind_amount (table g)
  /\ big_blind_amount (table g') = big_blind_amount (table g)
  /\ button_idx (table g') = button_idx (table g)
  /\ phase g' = phase g.
Proof.
  intros Hcur g'. subst g'.
  destruct (current_player_Some _ _ _ Hcur) as [_ Hp].
  destruct (process_action action amount g) as [[[]|e] g'] eqn:H.
  - apply process_action_Ok in H as (i0 & p0 & g1 & Hcur0 & Hacc & ->).
    rewrite Hcur in Hcur0. injection Hcur0 as <- <-.
    simpl snd. rewrite table_finish_action.
    assert (phase (finish_action g1) = phase g1) as ->
        by (unfold finish_action; by case_match).
    destruct (accepted_players _ _ _ _ _ _ Hp Hacc) as (p' & Hps & Hp').
    rewrite Hps, length_insert.
    split; [done|]. split.
    { intros j Hj. by rewrite list_lookup_insert_ne. }
    split.
    { exists p'. split.
      - apply list_lookup_insert_eq. by eapply lookup_lt_Some.
      - destruct Hp' as [->|[->|[amt ->]]]; [done|done|].
        destruct (Player_bet_fields p amt) as (_ & _ & _ & Ha & Hall).
        rewrite Ha, Hall. unfold Player_bet.
        destruct (stack p <=? amt); simpl; repeat split; try done.
        all: by intros ->. }
    destruct Hacc as [amt|amt Hz|amt Hpots|amt Hpots Hl Hm Ha Hb Hcb]; try done.
    unfold do_raise. by case_match.
  - apply process_action_Raise in H as ->. simpl.
    split; [done|]. split; [done|]. split; [|done]. by exists p.
Qed.

Lemma process_action_only_actor_witness :
  length (players (table (snd (process_action "CALL" 0 after_blinds))))
  = length (players (table after_blinds))
  /\ forall j, j <> 0%nat ->
       players (table (snd (process_action "CALL" 0 after_blinds))) !! j
       = players (table after_blinds) !! j.
Proof.
  destruct (process_action_only_actor after_blinds "CALL" 0 0
              (mkPlayer "P1" 990 false [] true false 10 10) after_blinds_actor)
    as (Hlen & Hother & _).
  exact (conj Hlen Hother).
Defined.

(** ** Which actions are accepted *)

(** The conditions under which [RAISE amount] passes every test of
    [process_action] for player [p]. *)
Definition raise_allowed (g : GameController) (p : Player) (amount : Z) : Prop :=
  pots (table g) <> []
  /\ highest_bet g - current_bet p < stack p
  /\ Z.min (highest_bet g + min_raise g) (stack p + current_bet p) <> 0
  /\ amount <> 0
  /\ (highest_bet g + min_raise g <= amount \/ amount = stack p + current_bet p)
  /\ current_bet p <= amount.

Lemma accepted_runs (g : GameController) (i : nat) (p : Player)
      (action : string) (amount : Z) (g1 : GameController) :
  current_player g = Ok (i, p) ->
  accepted g i p action amount g1 ->
  process_action action amount g = (Ok tt, finish_action g1).
Proof.
  intros Hcur Hacc.
  destruct (current_player_Some _ _ _ Hcur) as [Hidx Hp].
  unfold process_action, process_raise, get_legal_actions. run_monad.
  rewrite Hidx. simpl. rewrite Hcur. simpl.
  rewrite legal_for_CALL, legal_for_CHECK, legal_for_RAISE_truthy. simpl.
  destruct Hacc as [amt|amt Hz|amt Hpots|amt Hpots Hl Hm Ha Hb Hcb]; simpl.
  - rewrite Hp. simpl. unfold finish_action. simpl. by case_match.
  - replace (highest_bet g - current_bet p =? 0) with true
      by (symmetry; by apply Z.eqb_eq).
    simpl. unfold finish_action. simpl. by case_match.
  - destruct (pots (table g)) as [|pot rest] eqn:Hpots'; [done|].
    rewrite Hp. simpl.
    unfold finish_action, do_call, pot_add_game. simpl. rewrite Hpots'.
    destruct (Player_bet p (Z.min (highest_bet g - current_bet p) (stack p)))
      as [p' actual] eqn:Hbet.
    simpl. rewrite Hpots'. simpl. by case_match.
  - replace (highest_bet g - current_bet p <? stack p) with true
      by (symmetry; by apply Z.ltb_lt).
    replace (Z.min (highest_bet g + min_raise g) (stack p + current_bet p) =? 0)
      with false by (symmetry; by apply Z.eqb_neq).
    simpl.
    replace (amt =? 0) with false by (symmetry; by apply Z.eqb_neq).
    rewrite Hp.
    replace ((amt <? highest_bet g + min_raise g)
             && negb (amt =? stack p + current_bet p)) with false.
    2:{ symmetry. apply andb_false_iff. destruct Hb as [Hb| ->].
        - left. apply Z.ltb_ge. lia.
        - right. by rewrite Z.eqb_refl. }
    replace (amt - current_bet p <? 0) with false
      by (symmetry; apply Z.ltb_ge; lia).
    destruct (pots (table g)) as [|pot rest] eqn:Hpots'; [done|].
    rewrite Hp. simpl.
    unfold finish_action, do_raise, pot_add_game. simpl. rewrite Hpots'.
    destruct (Player_bet p (amt - current_bet p)) as [p' actual] eqn:Hbet.
    simpl. rewrite Hpots'. simpl.
    repeat (case_match; simplify_eq; simpl in *; try done).
Qed.

(** For the player whose turn it is, [process_action] returns without an
    error exactly in these cases: [FOLD], always; [CHECK], when the
    player's bet equals the highest bet; [CALL], always (as long as the
    table has a pot to pay into); [RAISE], when the player holds more
    than the call, the amount is not 0, is not below what the player
    has already bet, and reaches [highest_bet + min_raise] or is exactly
    the player's all-in. Any other action word is rejected. *)
Theorem process_action_accepts
        (g : GameController) (i : nat) (p : Player) (action : string) (amount : Z) :
  current_player g = Ok (i, p) ->
  fst (process_action action amount g) = Ok tt
  <-> action = "FOLD"
      \/ (action = "CHECK" /\ highest_bet g = current_bet p)
      \/ (action = "CALL" /\ pots (table g) <> [])
      \/ (action = "RAISE" /\ raise_allowed g p amount).
Proof.
  intros Hcur. split.
  - destruct (process_action action amount g) as [[[]|e] g'] eqn:H; [|done].
    intros _.
    apply process_action_Ok in H as (i0 & p0 & g1 & Hcur0 & Hacc & _).
    rewrite Hcur in Hcur0. injection Hcur0 as <- <-.
    destruct Hacc as [amt|amt Hz|amt Hpots|amt Hpots Hl Hm Ha Hb Hcb].
    + by left.
    + right; left. split; [done|lia].
    + right; right; left. done.
    + right; right; right. by repeat split.
  - intros [->|[[-> Hz]|[[-> Hpots]|[-> (Hpots & Hl & Hm & Ha & Hb & Hcb)]]]].
    + by rewrite (accepted_runs g i p "FOLD" amount _ Hcur (acc_fold g i p amount)).
    + assert (highest_bet g - current_bet p = 0) as Hz' by lia.
      by rewrite (accepted_runs g i p "CHECK" amount _ Hcur
                    (acc_check g i p amount Hz')).
    + by rewrite (accepted_runs g i p "CALL" amount _ Hcur
                    (acc_call g i p amount Hpots)).
    + by rewrite (accepted_runs g i p "RAISE" amount _ Hcur
                    (acc_raise g i p amount Hpots Hl Hm Ha Hb Hcb)).
Qed.

Lemma process_action_accepts_witness :
  fst (process_action "CHECK" 0 after_blinds) = Ok tt
  <-> "CHECK" = "FOLD"
      \/ ("CHECK" = "CHECK"
          /\ highest_bet after_blinds
             = current_bet (mkPlayer "P1" 990 false [] true false 10 10))
      \/ ("CHECK" = "CALL" /\ pots (table after_blinds) <> [])
      \/ ("CHECK" = "RAISE"
          /\ raise_allowed after_blinds
               (mkPlayer "P1" 990 false [] true false 10 10) 0).
Proof.
  exact (process_action_accepts after_blinds 0
           (mkPlayer "P1" 990 false [] true false 10 10) "CHECK" 0
           after_blinds_actor).
Defined.

(** ** Whose turn it is *)

Lemma round_over_no_actor (g : GameController) :
  (forall p, p ∈ players (table g) -> can_act p = false) ->
  is_round_over g = true.
Proof.
  intros Hnone. unfold is_round_over. apply round_over_loop_spec.
  intros j p Hp Hact. rewrite Hnone in Hact; [done|].
  apply list_elem_of_lookup. eauto.
Qed.

Lemma py_index_nonneg {A} (l : list A) (i : Z) :
  0 <= i < Z.of_nat (length l) -> py_index l i = Some (Z.to_nat i).
Proof.
  intros Hi. unfold py_index.
  replace ((0 <=? i) && (i <? Z.of_nat (length l))) with true; [done|].
  symmetry. apply andb_true_iff. split; [apply Z.leb_le|apply Z.ltb_lt]; lia.
Qed.

(** A state whose turn index came out of [_next_active]. *)
Lemma turn_from_next_active (g : GameController) (start_idx : Z) :
  current_idx g = _next_active g start_idx ->
  is_round_over g = false ->
  exists i p, current_player g = Ok (i, p)
              /\ Z.of_nat i = current_idx g /\ can_act p = true.
Proof.
  intros Hidx Hopen.
  destruct (Z.eq_dec (_next_active g start_idx) (-1)) as [Hneg|Hpos].
  { pose proof (round_over_no_actor g (next_active_none g start_idx Hneg)).
    congruence. }
  assert (players (table g) <> []) as Hne.
  { intros Hnil. apply Hpos. unfold _next_active. by rewrite Hnil. }
  destruct (next_active_range g start_idx Hne)
    as [Hneg|(Hrange & p & Hp & Hact)]; [done|].
  exists (Z.to_nat (_next_active g start_idx)), p.
  unfold current_player. rewrite Hidx, (py_index_nonneg _ _ Hrange), Hp.
  split; [done|]. split; [lia|done].
Qed.

Lemma is_round_over_set_current_idx (g : GameController) (i : Z) :
  is_round_over (set_current_idx g i) = is_round_over g.
Proof.
  unfold is_round_over. simpl.
  generalize 0. induction (players (table g)) as [|q qs IH]; intros k; [done|].
  simpl. by rewrite IH.
Qed.

(** After [start_hand], an accepted [process_action] or
    [advance_phase], unless the betting round is over, the turn is on a
    seat of the table (never the -1 of "nobody") whose player is active
    and not all-in. *)
Theorem turn_is_on_a_player_who_can_act (g g' : GameController) :
  start_hand g = (Ok tt, g')
  \/ (exists action amount, process_action action amount g = (Ok tt, g'))
  \/ advance_phase g = (Ok tt, g') ->
  is_round_over g' = false ->
  exists i p, current_player g' = Ok (i, p)
              /\ Z.of_nat i = current_idx g' /\ can_act p = true.
Proof.
  intros [H|[(action & amount & H)|H]] Hopen.
  - destruct (players (table g)) as [|q qs] eqn:Hps.
    { exfalso. revert H.
      unfold start_hand, bind, gets, modify, ret, raise. simpl.
      rewrite Hps. simpl. done. }
    assert (players (table g) <> []) as Hne by congruence.
    destruct (start_hand_run g Hne)
      as (i_sb & p_sb & i_bb & p_bb & _ & _ & _ & _ & Hrun).
    rewrite Hrun in H. injection H as <-.
    eapply turn_from_next_active; [|done]. simpl. reflexivity.
  - apply process_action_Ok in H as (i & p & g1 & _ & _ & ->).
    unfold finish_action in *.
    destruct (is_round_over (set_acted g1 ({[current_idx g1]} ∪ acted_this_round g1)))
      eqn:Hover; [congruence|].
    eapply turn_from_next_active; [|done]. simpl. reflexivity.
  - revert H. unfold advance_phase. run_monad.
    destruct (GamePhase_of_value (GamePhase_value (phase g) + 1)); simpl; [|done].
    intros [= <-].
    eapply turn_from_next_active; [|done]. simpl. reflexivity.
Qed.

Lemma turn_is_on_a_player_who_can_act_witness :
  exists i p, current_player after_blinds = Ok (i, p)
              /\ Z.of_nat i = current_idx after_blinds /\ can_act p = true.
Proof.
  apply (turn_is_on_a_player_who_can_act (scenario 20 1000) after_blinds).
  - left. vm_compute. reflexivity.
  - vm_compute. reflexivity.
Defined.

(** ** A player to act, and a pot to pay into *)

(** The table has a pot, and the turn index is a seat or the -1 of
    [_next_active]. *)
Definition seated (g : GameController) : Prop :=
  pots (table g) <> []
  /\ (players (table g) = []
      \/ -1 <= current_idx g < Z.of_nat (length (players (table g)))).

Lemma seated_next_active (g h : GameController) (start_idx : Z) :
  pots (table g) <> [] ->
  players (table g) = players (table h) ->
  current_idx g = _next_active h start_idx ->
  seated g.
Proof.
  intros Hpots Hps Hidx. split; [done|].
  destruct (players (table g)) as [|q qs] eqn:Hg; [by left|right].
  assert (players (table h) <> []) as Hne by congruence.
  rewrite Hidx, Hps.
  destruct (next_active_range h start_idx Hne) as [->|[Hr _]]; [|lia].
  rewrite <- Hps. simpl. lia.
Qed.

Lemma accepted_seated g i p action amount g1 :
  players (table g) !! i = Some p ->
  accepted g i p action amount g1 ->
  pots (table g) <> [] ->
  pots (table g1) <> []
  /\ length (players (table g1)) = length (players (table g))
  /\ current_idx g1 = current_idx g.
Proof.
  intros Hp Hacc Hpots.
  destruct (accepted_players _ _ _ _ _ _ Hp Hacc) as (p' & -> & _).
  rewrite length_insert.
  destruct Hacc as [amt|amt Hz|amt _|amt _ Hl Hm Ha Hb Hcb]; simpl; try done.
  - repeat split. by destruct (pots (table g)).
  - unfold do_raise. case_match; simpl; repeat split;
      by destruct (pots (table g)).
Qed.

Lemma reachable_seated (g : GameController) : reachable g -> seated g.
Proof.
  induction 1 as [t Ht|g _ IH|g action amt _ IH|g _ IH].
  - destruct (table_setup_fresh t Ht) as [_ Hp]. split.
    + simpl. by rewrite Hp.
    + simpl. destruct (players t); [by left|right; simpl; lia].
  - destruct (players (table g)) as [|q qs] eqn:Hps.
    + unfold seated, start_hand, bind, gets, modify, ret, raise. simpl.
      rewrite Hps. simpl. rewrite Hps. split; [done|by left].
    + assert (players (table g) <> []) as Hne by congruence.
      destruct (start_hand_run g Hne)
        as (i_sb & p_sb & i_bb & p_bb & _ & _ & _ & _ & ->).
      simpl snd. eapply seated_next_active; [|reflexivity|reflexivity].
      simpl. done.
  - destruct IH as [Hpots Hidx].
    destruct (process_action action amt g) as [[[]|e] g'] eqn:H.
    + apply process_action_Ok in H as (i & p & g1 & Hcur & Hacc & ->).
      apply current_player_Some in Hcur as [_ Hp].
      destruct (accepted_seated _ _ _ _ _ _ Hp Hacc Hpots) as (Hpots1 & Hlen & Hcur1).
      simpl snd. unfold finish_action. case_match.
      * split; [done|]. simpl. rewrite Hlen, Hcur1.
        destruct Hidx as [Hnil|Hidx]; [|by right].
        rewrite Hnil in Hp. done.
      * eapply seated_next_active; [done|reflexivity|]. simpl. reflexivity.
    + by apply process_action_Raise in H as ->.
  - destruct IH as [Hpots Hidx]. unfold advance_phase. run_monad.
    destruct (GamePhase_of_value (GamePhase_value (phase g) + 1)); simpl; [|done].
    eapply seated_next_active; [done|reflexivity|]. simpl. reflexivity.
Qed.

(** In every state reachable from a table with at least one player there
    is a player whose turn it is, and that player's [FOLD] and [CALL]
    are never rejected. *)
Theorem fold_and_call_always_accepted (g : GameController) (amount : Z) :
  reachable g ->
  players (table g) <> [] ->
  (exists i p, current_player g = Ok (i, p))
  /\ fst (process_action "FOLD" amount g) = Ok tt
  /\ fst (process_action "CALL" amount g) = Ok tt.
Proof.
  intros Hreach Hne. destruct (reachable_seated g Hreach) as [Hpots [Hnil|Hidx]];
    [done|].
  assert (0 < Z.of_nat (length (players (table g)))) as Hlen
      by (destruct (players (table g)); [done|simpl; lia]).
  assert (exists i, py_index (players (table g)) (current_idx g) = Some i)
    as [i Hi].
  { unfold py_index.
    destruct (Z.leb_spec 0 (current_idx g)); simpl.
    - replace (current_idx g <? Z.of_nat (length (players (table g)))) with true
        by (symmetry; apply Z.ltb_lt; lia). eauto.
    - replace (- Z.of_nat (length (players (table g))) <=? current_idx g) with true
        by (symmetry; apply Z.leb_le; lia).
      replace (current_idx g <? 0) with true by (symmetry; apply Z.ltb_lt; lia).
      simpl. eauto. }
  destruct (current_player_index g i Hi) as [p Hcur].
  split; [eauto|]. split.
  - by rewrite (accepted_runs g i p "FOLD" amount _ Hcur (acc_fold g i p amount)).
  - by rewrite (accepted_runs g i p "CALL" amount _ Hcur
                  (acc_call g i p amount Hpots)).
Qed.

Lemma fold_and_call_always_accepted_witness :
  (exists i p, current_player after_blinds = Ok (i, p))
  /\ fst (process_action "FOLD" 0 after_blinds) = Ok tt
  /\ fst (process_action "CALL" 0 after_blinds) = Ok tt.
Proof.
  apply (fold_and_call_always_accepted after_blinds 0).
  - apply reach_start_hand, scenario_reachable.
  - vm_compute. discriminate.
Defined.

(** ** Moving to the next street *)

Lemma round_over_nobody_acted (g : GameController) :
  acted_this_round g = ∅ ->
  (is_round_over g = true
   <-> forall p, p ∈ players (table g) -> can_act p = false).
Proof.
  intros Hacted. split; [|apply round_over_no_actor].
  unfold is_round_over. rewrite round_over_loop_spec.
  intros H p Hin. apply list_elem_of_lookup in Hin as [j Hj].
  destruct (can_act p) eqn:Hact; [|done].
  destruct (H j p Hj Hact) as [Hin _]. rewrite Hacted in Hin.
  by apply not_elem_of_empty in Hin.
Qed.

(** The state [advance_phase] leaves when the next phase is [ph]. *)
Definition next_street (g : GameController) (ph : GamePhase) : GameController :=
  let h :=
    set_acted
      (set_min_raise
         (set_highest_bet
            (set_table (set_phase g ph)
               (set_players (table g)
                  (map Player_reset_for_round (players (table g))))) 0)
         (big_blind_amount (table g))) ∅ in
  set_current_idx h (_next_active h (button_idx (table g))).

Lemma advance_phase_run (g : GameController) (ph : GamePhase) :
  GamePhase_of_value (GamePhase_value (phase g) + 1) = Ok ph ->
  advance_phase g = (Ok tt, next_street g ph).
Proof. intros H. unfold advance_phase. run_monad. by rewrite H. Qed.

Lemma next_street_round_over (g : GameController) (ph : GamePhase) :
  is_round_over (next_street g ph) = true
  <-> forall p, p ∈ players (table g) -> can_act p = false.
Proof.
  unfold next_street. rewrite is_round_over_set_current_idx.
  rewrite round_over_nobody_acted by done. simpl. split.
  - intros H p Hin.
    assert (can_act (Player_reset_for_round p) = false) as Hc; [|exact Hc].
    apply H. apply list_elem_of_fmap. eauto.
  - intros H p Hin. apply list_elem_of_fmap in Hin as (q & -> & Hq).
    exact (H q Hq).
Qed.

(** [advance_phase] at [SHOWDOWN] raises the [ValueError] of
    [GamePhase(5)] and changes nothing. At any other phase it moves to
    the next one, clears the bets of the round (every [current_bet], the
    highest bet, the acted-set) and puts [min_raise] back to the big
    blind, while stacks, invested totals, fold and all-in marks and the
    pots stay; the new round is over at once exactly when no player is
    left who can act. *)
Theorem advance_phase_spec (g : GameController) :
  (phase g = SHOWDOWN ->
   advance_phase g = (Raise (ValueError (MsgNotAGamePhase 5)), g))
  /\ (phase g <> SHOWDOWN ->
      exists g',
        advance_phase g = (Ok tt, g')
        /\ GamePhase_value (phase g') = GamePhase_value (phase g) + 1
        /\ highest_bet g' = 0
        /\ min_raise g' = big_blind_amount (table g)
        /\ acted_this_round g' = ∅
        /\ (forall p, p ∈ players (table g') -> current_bet p = 0)
        /\ map stack (players (table g')) = map stack (players (table g))
        /\ map total_invested (players (table g'))
           = map total_invested (players (table g))
        /\ map is_active (players (table g')) = map is_active (players (table g))
        /\ map is_all_in (players (table g')) = map is_all_in (players (table g))
        /\ pots (table g') = pots (table g)
        /\ (is_round_over g' = true
            <-> forall p, p ∈ players (table g) -> can_act p = false)).
Proof.
  split.
  - intros Hph. unfold advance_phase. run_monad. by rewrite Hph.
  - intros Hph.
    assert (exists ph, GamePhase_of_value (GamePhase_value (phase g) + 1) = Ok ph
                       /\ GamePhase_value ph = GamePhase_value (phase g) + 1)
      as (ph & Hnext & Hval).
    { destruct (phase g); try done; simpl; eauto. }
    exists (next_street g ph). split; [by apply advance_phase_run|].
    split; [exact Hval|].
    split; [done|]. split; [done|]. split; [done|].
    split.
    { simpl. intros p Hin. by apply list_elem_of_fmap in Hin as (q & -> & _). }
    simpl. rewrite !map_map. simpl.
    repeat (split; [done|]).
    apply next_street_round_over.
Qed.

Lemma advance_phase_spec_witness :
  exists g',
    advance_phase after_blinds = (Ok tt, g')
    /\ GamePhase_value (phase g') = GamePhase_value (phase after_blinds) + 1
    /\ highest_bet g' = 0.
Proof.
  destruct (advance_phase_spec after_blinds) as [_ H].
  destruct H as (g' & Hrun & Hph & Hhb & _).
  - vm_compute. discriminate.
  - exists g'. exact (conj Hrun (conj Hph Hhb)).
Defined.

(** ** The raise sizes on offer *)

Lemma raise_run (g : GameController) (i : nat) (p : Player) (amount : Z) :
  current_player g = Ok (i, p) ->
  raise_allowed g p amount ->
  exists g',
    process_action "RAISE" amount g = (Ok tt, g')
    /\ highest_bet g' = amount
    /\ players (table g') !! i = Some (fst (Player_bet p (amount - current_bet p))).
Proof.
  intros Hcur (Hpots & Hl & Hm & Ha & Hb & Hcb).
  destruct (current_player_Some _ _ _ Hcur) as [_ Hp].
  eexists. split.
  { exact (accepted_runs g i p "RAISE" amount _ Hcur
             (acc_raise g i p amount Hpots Hl Hm Ha Hb Hcb)). }
  destruct (finish_action_fields (do_raise g i p amount)) as (-> & _).
  split; [done|]. rewrite table_finish_action.
  unfold do_raise.
  assert (forall h, players (table
            (set_highest_bet
               (if min_raise g <=? amount - highest_bet g
                then set_acted (set_min_raise h (amount - highest_bet g)) ∅
                else h) amount)) = players (table h)) as -> by (intros; by case_match).
  simpl. apply list_lookup_insert_eq. by eapply lookup_lt_Some.
Qed.

(** Every amount between the [RAISE_TO_MIN] and the [RAISE_TO_MAX] that
    [get_legal_actions] offers is accepted by [process_action] (given a
    pot, an amount that is not 0 and not below the player's own bet).
    The player's bet then is exactly [amount], which is the new highest
    bet; the stack pays the difference, and the player is all-in
    exactly when the amount is [RAISE_TO_MAX] (or was all-in before). *)
Theorem offered_raise_is_accepted
        (g : GameController) (i : nat) (p : Player) (legal : legal_actions)
        (lo hi amount : Z) :
  current_player g = Ok (i, p) ->
  get_legal_actions g = Ok legal ->
  RAISE_TO_MIN legal = VInt lo ->
  RAISE_TO_MAX legal = VInt hi ->
  pots (table g) <> [] ->
  lo <> 0 -> amount <> 0 -> current_bet p <= amount ->
  lo <= amount <= hi ->
  exists g' p',
    process_action "RAISE" amount g = (Ok tt, g')
    /\ highest_bet g' = amount
    /\ players (table g') !! i = Some p'
    /\ current_bet p' = amount
    /\ stack p' = stack p - (amount - current_bet p)
    /\ (is_all_in p' = true <-> amount = hi \/ is_all_in p = true).
Proof.
  intros Hcur Hlegal Hlo Hhi Hpots Hlo0 Ha Hcb Hrange.
  unfold get_legal_actions in Hlegal. rewrite Hcur in Hlegal.
  injection Hlegal as <-. unfold legal_for in Hlo, Hhi.
  destruct (Z.ltb_spec (highest_bet g - current_bet p) (stack p)) as [Hl|];
    [|done].
  simpl in Hlo, Hhi. injection Hlo as <-. injection Hhi as <-.
  assert (raise_allowed g p amount) as Hallowed.
  { repeat split; try done. lia. }
  destruct (raise_run g i p amount Hcur Hallowed) as (g' & Hrun & Hhb & Hp').
  exists g', (fst (Player_bet p (amount - current_bet p))).
  split; [done|]. split; [done|]. split; [done|].
  destruct (Player_bet_fields p (amount - current_bet p))
    as (Hs & Hc & _ & _ & Hall).
  rewrite Hs, Hc, Hall, Player_bet_actual.
  split; [lia|]. split; [lia|].
  rewrite orb_true_iff, Z.leb_le. split.
  - intros [H|H]; [by right|left; lia].
  - intros [H|H]; [right; lia|by left].
Qed.

Lemma offered_raise_is_accepted_witness :
  exists g' p',
    process_action "RAISE" 40 after_blinds = (Ok tt, g')
    /\ highest_bet g' = 40
    /\ players (table g') !! 0%nat = Some p'
    /\ current_bet p' = 40
    /\ stack p' = 990 - (40 - 10).
Proof.
  destruct (offered_raise_is_accepted after_blinds 0
              (mkPlayer "P1" 990 false [] true false 10 10)
              (legal_for after_blinds (mkPlayer "P1" 990 false [] true false 10 10))
              40 1000 40)
    as (g' & p' & Hrun & Hhb & Hp' & Hc & Hs & _).
  - exact after_blinds_actor.
  - vm_compute. reflexivity.
  - vm_compute. reflexivity.
  - vm_compute. reflexivity.
  - vm_compute. discriminate.
  - lia.
  - lia.
  - simpl. lia.
  - lia.
  - exists g', p'. exact (conj Hrun (conj Hhb (conj Hp' (conj Hc Hs)))).
Defined.



(** * The deck manager *)

(** ** [DeckManager.draw_specific]

    treys' [Card.new] turns the two-character code into the integer of
    the card. The set [drawn_cards] and the list [deck.cards] hold such
    integers. *)

Record DeckManager := mkDeckManager {
  deck_cards : list Z;
  drawn_cards : gset Z
}.

(** [list.remove(x)], called only when [x] is in the list. *)
Fixpoint list_remove (x : Z) (l : list Z) : list Z :=
  match l with
  | [] => []
  | y :: l' => if y =? x then l' else y :: list_remove x l'
  end.

(** How a call of [draw_specific] ends: with the card, with the error of
    [parse_card], or with the [ValueError] "Duplicate card detected". *)
Inductive draw_outcome :=
| Drawn (card_int : Z)
| ParseError (e : exn)
| DuplicateCard (card_int : Z).

Section Drawing.

Variable Card_new : string -> Z.

Definition draw_specific (card_str : string) (d : DeckManager)
  : draw_outcome * DeckManager :=
  match parse_card card_str with
  | Raise e => (ParseError e, d)
  | Ok code =>
      let card_int := Card_new code in
      if bool_decide (card_int ∈ drawn_cards d) then (DuplicateCard card_int, d)
      else
        (Drawn card_int,
         mkDeckManager
           (if bool_decide (card_int ∈ deck_cards d)
            then list_remove card_int (deck_cards d)
            else deck_cards d)
           ({[card_int]} ∪ drawn_cards d))
  end.

(** A run of calls, one for each text, collecting the cards returned;
    the calls that raise return none. *)
Fixpoint draw_each (texts : list string) (d : DeckManager)
  : list Z * DeckManager :=
  match texts with
  | [] => ([], d)
  | s :: rest =>
      match draw_specific s d with
      | (Drawn c, d') => let '(cs, d'') := draw_each rest d' in (c :: cs, d'')
      | (_, d') => draw_each rest d'
      end
  end.

Lemma filter_all (P : Z -> Prop) `{forall y, Decision (P y)} (l : list Z) :
  (forall y, y ∈ l -> P y) -> filter P l = l.
Proof.
  induction l as [|y l IH]; intros Hall; [done|].
  rewrite filter_cons_True by (apply Hall; by left).
  rewrite IH; [done|]. intros z Hz. apply Hall. by right.
Qed.

Lemma list_remove_filter (x : Z) (l : list Z) :
  NoDup l -> list_remove x l = filter (fun y => y <> x) l.
Proof.
  induction 1 as [|y l Hy Hl IH]; [done|]. simpl.
  destruct (Z.eqb_spec y x) as [->|Hne].
  - rewrite filter_cons_False by (intros H; by apply H).
    symmetry. apply filter_all. intros z Hz ->. done.
  - rewrite filter_cons_True by done. by rewrite IH.
Qed.

Lemma draw_each_drawn (texts : list string) (d : DeckManager) :
  let '(cs, d') := draw_each texts d in
  NoDup cs
  /\ (forall c, c ∈ cs -> c ∉ drawn_cards d)
  /\ drawn_cards d' = list_to_set cs ∪ drawn_cards d.
Proof.
  revert d. induction texts as [|s rest IH]; intros d; simpl.
  { split; [constructor|]. split; [by intros c Hc%elem_of_nil|].
    by rewrite union_empty_l_L. }
  unfold draw_specific.
  destruct (parse_card s) as [code|e]; [|apply IH].
  destruct (bool_decide (Card_new code ∈ drawn_cards d)) eqn:Hin; [apply IH|].
  apply bool_decide_eq_false in Hin.
  match goal with |- context [draw_each rest ?d1] =>
    specialize (IH d1); destruct (draw_each rest d1) as [cs d''] end.
  simpl in IH. destruct IH as (Hnd & Hnew & Hset).
  assert (forall c, c ∈ cs -> c <> Card_new code /\ c ∉ drawn_cards d) as Hnew'.
  { intros c Hc. specialize (Hnew c Hc). rewrite not_elem_of_union in Hnew.
    destruct Hnew as [Hne Hnd']. split; [|done].
    intros ->. apply Hne. by apply elem_of_singleton. }
  split; [|split].
  - constructor; [|done]. intros Hc. by destruct (Hnew' _ Hc).
  - intros c [->|Hc]%elem_of_cons; [done|]. by destruct (Hnew' _ Hc).
  - rewrite Hset. simpl.
    rewrite (union_comm_L {[Card_new code]} (list_to_set cs)).
    by rewrite union_assoc_L.
Qed.

(** Whatever texts are entered and however they are spelled, the cards
    that successive calls of [draw_specific] return are pairwise
    different, none of them had been drawn before, and [drawn_cards]
    ends as what it was together with exactly these cards. *)
Theorem no_card_is_drawn_twice (texts : list string) (d : DeckManager) :
  NoDup (fst (draw_each texts d))
  /\ (forall c, c ∈ fst (draw_each texts d) -> c ∉ drawn_cards d)
  /\ drawn_cards (snd (draw_each texts d))
     = list_to_set (fst (draw_each texts d)) ∪ drawn_cards d.
Proof.
  pose proof (draw_each_drawn texts d) as H.
  by destruct (draw_each texts d) as [cs d'].
Qed.

(** The deck holds no card twice and none that was drawn. *)
Definition deck_consistent (d : DeckManager) : Prop :=
  NoDup (deck_cards d) /\ forall c, c ∈ drawn_cards d -> c ∉ deck_cards d.

(** The cards a call returns: one or none. *)
Definition returned (o : draw_outcome) : list Z :=
  match o with
  | Drawn c => [c]
  | _ => []
  end.

Lemma filter_not_in_nil (l : list Z) : filter (fun y => y ∉ @nil Z) l = l.
Proof. apply filter_all. intros y _. apply not_elem_of_nil. Qed.

Lemma draw_specific_deck (s : string) (d : DeckManager) :
  deck_consistent d ->
  deck_consistent (snd (draw_specific s d))
  /\ deck_cards (snd (draw_specific s d))
     = filter (fun y => y ∉ returned (fst (draw_specific s d))) (deck_cards d).
Proof.
  intros [Hnd Hdis]. unfold draw_specific.
  destruct (parse_card s) as [code|e]; cbn [fst snd returned];
    [|by rewrite filter_not_in_nil].
  destruct (bool_decide (Card_new code ∈ drawn_cards d)) eqn:Hin;
    cbn [fst snd returned deck_cards drawn_cards]; [by rewrite filter_not_in_nil|].
  set (c := Card_new code).
  assert ((if bool_decide (c ∈ deck_cards d)
           then list_remove c (deck_cards d) else deck_cards d)
          = filter (fun y => y ∉ [c]) (deck_cards d)) as ->.
  { assert (filter (fun y => y ∉ [c]) (deck_cards d)
            = filter (fun y => y <> c) (deck_cards d)) as ->.
    { apply list_filter_iff. intros y. rewrite list_elem_of_singleton. done. }
    destruct (bool_decide (c ∈ deck_cards d)) eqn:Hdeck.
    - by apply list_remove_filter.
    - apply bool_decide_eq_false in Hdeck. symmetry.
      apply filter_all. intros y Hy ->. done. }
  split; [|done]. split.
  - by apply NoDup_filter.
  - intros y Hy Hin'. apply list_elem_of_filter in Hin' as [Hne Hin'].
    apply elem_of_union in Hy as [Hy|Hy].
    + apply Hne. apply elem_of_singleton in Hy as ->. by left.
    + by apply (Hdis y).
Qed.

(** If the deck holds no card twice and no card that was drawn, then
    after any run of calls this is still so, and the deck has lost
    exactly the cards the calls returned. *)
Theorem drawn_cards_leave_the_deck (texts : list string) (d : DeckManager) :
  deck_consistent d ->
  deck_consistent (snd (draw_each texts d))
  /\ deck_cards (snd (draw_each texts d))
     = filter (fun y => y ∉ fst (draw_each texts d)) (deck_cards d).
Proof.
  revert d. induction texts as [|s rest IH]; intros d Hd; cbn [draw_each].
  { split; [done|]. cbn [fst snd]. by rewrite filter_not_in_nil. }
  destruct (draw_specific_deck s d Hd) as [Hd1 Hdeck1].
  destruct (draw_specific s d) as [o d1]. cbn [fst snd] in Hd1, Hdeck1.
  destruct (IH d1 Hd1) as [Hd2 Hdeck2].
  destruct o as [c|e|c]; cbn [returned] in Hdeck1;
    rewrite ?filter_not_in_nil in Hdeck1.
  - destruct (draw_each rest d1) as [cs d2]. cbn [fst snd] in *.
    split; [done|]. rewrite Hdeck2, Hdeck1, list_filter_filter.
    apply list_filter_iff. intros y.
    rewrite !not_elem_of_cons. pose proof (not_elem_of_nil y). tauto.
  - split; [done|]. by rewrite Hdeck2, Hdeck1.
  - split; [done|]. by rewrite Hdeck2, Hdeck1.
Qed.

(** Once a card has been drawn, every later call that names the same
    card, in whatever form or spelling, fails as a duplicate and changes
    nothing. *)
Theorem same_card_is_a_duplicate
        (s s' : string) (texts : list string) (d d1 : DeckManager) (c : Z) :
  draw_specific s d = (Drawn c, d1) ->
  parse_card s' = parse_card s ->
  let d2 := snd (draw_each texts d1) in
  draw_specific s' d2 = (DuplicateCard c, d2).
Proof.
  intros Hdraw Hsame d2. unfold draw_specific in *. rewrite Hsame.
  destruct (parse_card s) as [code|e]; [|done].
  destruct (bool_decide (Card_new code ∈ drawn_cards d)); [done|].
  injection Hdraw as <- <-.
  pose proof (draw_each_drawn texts
              {| deck_cards :=
                  if bool_decide (Card_new code ∈ deck_cards d)
                  then list_remove (Card_new code) (deck_cards d)
                  else deck_cards d;
                drawn_cards := {[Card_new code]} ∪ drawn_cards d |})
    as Hrun.
  subst d2.
  destruct (draw_each texts _) as [cs d2]. destruct Hrun as (_ & _ & Hset).
  simpl. rewrite bool_decide_eq_true_2; [done|].
  rewrite Hset. apply elem_of_union_r, elem_of_union_l.
  by apply elem_of_singleton.
Qed.

End Drawing.

(** An instance for the examples: a card is numbered by the two
    characters of its code. *)
Module ExampleCards.

Definition Card_new (code : string) : Z :=
  match code with
  | String r (String su _) => 256 * Z.of_N (N_of_ascii r) + Z.of_N (N_of_ascii su)
  | _ => 0
  end.

Definition three_cards : DeckManager :=
  mkDeckManager [Card_new "As"; Card_new "Kd"; Card_new "2c"] ∅.

Lemma three_cards_consistent : deck_consistent three_cards.
Proof.
  split.
  - apply (bool_decide_unpack _). by vm_compute.
  - intros c Hc. by apply not_elem_of_empty in Hc.
Qed.

End ExampleCards.

Lemma drawn_cards_leave_the_deck_witness :
  let texts := ["ace of spades"; "Spade  ACE"; "two clubs"; "joker"] in
  deck_consistent (snd (draw_each ExampleCards.Card_new texts ExampleCards.three_cards))
  /\ deck_cards (snd (draw_each ExampleCards.Card_new texts ExampleCards.three_cards))
     = filter (fun y => y ∉ fst (draw_each ExampleCards.Card_new texts
                                   ExampleCards.three_cards))
              (deck_cards ExampleCards.three_cards).
Proof.
  exact (drawn_cards_leave_the_deck ExampleCards.Card_new
           ["ace of spades"; "Spade  ACE"; "two clubs"; "joker"]
           ExampleCards.three_cards ExampleCards.three_cards_consistent).
Defined.

Lemma same_card_is_a_duplicate_witness :
  let d1 := snd (draw_specific ExampleCards.Card_new "ace of spades"
                   ExampleCards.three_cards) in
  let d2 := snd (draw_each ExampleCards.Card_new ["king diamond"] d1) in
  draw_specific ExampleCards.Card_new "Spade  ACE" d2
  = (DuplicateCard (ExampleCards.Card_new "As"), d2).
Proof.
  apply (same_card_is_a_duplicate ExampleCards.Card_new
           "ace of spades" "Spade  ACE" ["king diamond"]
           ExampleCards.three_cards).
  - vm_compute. reflexivity.
  - vm_compute. reflexivity.
Defined.

(** * The bot at the table *)

Section BotPlays.

Variable rng : Type.
Variable shuffle : list Z -> M rng (list Z).
Variable Deck_cards : M rng (list Z).
Variable hand_rank : list Z -> result Z.

#[local] Abbreviation get_decision :=
  (get_decision rng shuffle Deck_cards hand_rank).

(** [main] hands the decision of [get_decision] to [process_action]
    outside any [try]. For the player whose turn it is, with chips left,
    a bet between 0 and the highest bet, and a [min_raise] that is not
    negative, whatever [get_decision] returns is accepted: the bot never
    makes the engine raise an error. *)
Theorem bot_decision_is_accepted
        (game : GameController) (i : nat) (p : Player) (r r' : rng) (d : decision) :
  current_player game = Ok (i, p) ->
  pots (table game) <> [] ->
  0 < stack p ->
  0 <= current_bet p <= highest_bet game ->
  0 <= min_raise game ->
  get_decision game p r = (Ok d, r') ->
  fst (process_action (action d) (amount_of d) game) = Ok tt.
Proof.
  intros Hcur Hpots Hs Hcb Hmr.
  unfold get_decision, get_legal_actions, bind, lift_result.
  rewrite Hcur.
  destruct (_monte_carlo_equity rng shuffle Deck_cards hand_rank
              (hole_cards p) (community_cards (table game)) 500 r)
    as [[equity|e] r1]; [|done].
  unfold decide.
  destruct (if 0 <? _ then int_truediv _ _ else Ok (Fin 0)) as [pot_odds|e];
    [|done].
  rewrite legal_for_CHECK, legal_for_RAISE_truthy. simpl truthy.
  assert (forall amt, (highest_bet game - current_bet p =? 0) = true ->
            fst (process_action "CHECK" amt game) = Ok tt) as Hcheck.
  { intros amt Hz. apply Z.eqb_eq in Hz.
    by rewrite (accepted_runs game i p "CHECK" amt _ Hcur
                  (acc_check game i p amt Hz)). }
  assert (forall amt, fst (process_action "CALL" amt game) = Ok tt) as Hcall.
  { intros amt.
    by rewrite (accepted_runs game i p "CALL" amt _ Hcur
                  (acc_call game i p amt Hpots)). }
  assert (forall amt, fst (process_action "FOLD" amt game) = Ok tt) as Hfold.
  { intros amt.
    by rewrite (accepted_runs game i p "FOLD" amt _ Hcur
                  (acc_fold game i p amt)). }
  destruct (float_gt equity float_0_70
            && ((highest_bet game - current_bet p <? stack p)
                && negb (Z.min (highest_bet game + min_raise game)
                               (stack p + current_bet p) =? 0))) eqn:Hraise.
  - apply andb_true_iff in Hraise as [_ Hlegal].
    apply andb_true_iff in Hlegal as [Hl Hm].
    apply Z.ltb_lt in Hl. apply negb_true_iff, Z.eqb_neq in Hm.
    destruct (float_of_int _) as [pot_f|e]; [|done].
    destruct (int_of_float _) as [bonus|e]; [|done].
    intros [= <- _]. simpl.
    set (amt := Z.min (Z.max (highest_bet game + min_raise game)
                             (highest_bet game + bonus))
                      (stack p + current_bet p)).
    assert (accepted game i p "RAISE" amt (do_raise game i p amt)) as Hacc.
    { apply acc_raise; try done; subst amt; lia. }
    by rewrite (accepted_runs game i p "RAISE" amt _ Hcur Hacc).
  - destruct (float_gt equity pot_odds);
      destruct (highest_bet game - current_bet p =? 0) eqn:Hz;
      intros [= <- _]; simpl; auto.
Qed.

End BotPlays.

Lemma bot_decision_is_accepted_witness :
  exists d r',
    get_decision nat Example.shuffle Example.Deck_cards Example.hand_rank
      after_blinds (mkPlayer "P1" 990 false [] true false 10 10) 0%nat
    = (Ok d, r')
    /\ fst (process_action (action d) (amount_of d) after_blinds) = Ok tt.
Proof.
  destruct (get_decision nat Example.shuffle Example.Deck_cards Example.hand_rank
              after_blinds (mkPlayer "P1" 990 false [] true false 10 10) 0%nat)
    as [[d|e] r'] eqn:Hd.
  - exists d, r'. split; [reflexivity|].
    apply (bot_decision_is_accepted nat Example.shuffle Example.Deck_cards
             Example.hand_rank after_blinds 0
             (mkPlayer "P1" 990 false [] true false 10 10) 0%nat r' d).
    + exact after_blinds_actor.
    + vm_compute. discriminate.
    + simpl. lia.
    + vm_compute. split; discriminate.
    + vm_compute. discriminate.
    + exact Hd.
  - exfalso. vm_compute in Hd. discriminate.
Defined.

(** * More on the card parser *)

(** ** The codes handed to [Card.new] *)

Definition rank_chars : list string :=
  ["2"; "3"; "4"; "5"; "6"; "7"; "8"; "9"; "T"; "J"; "Q"; "K"; "A"].

Definition suit_chars : list string := ["s"; "h"; "d"; "c"].

(** Rank character, then suit character: the 52 codes of treys. *)
Definition card_codes : list string :=
  flat_map (fun r => map (fun su => r ++ su) suit_chars) rank_chars.

(** One way of writing the card of a code. *)
Definition spell (code : string) : string :=
  match code with
  | String r (String su EmptyString) =>
      (if Ascii.eqb su "s" then "Spade"
       else if Ascii.eqb su "h" then "Heart"
       else if Ascii.eqb su "d" then "Diamond" else "Club")
      ++ " "
      ++ (if Ascii.eqb r "T" then "Ten"
          else if Ascii.eqb r "J" then "Jack"
          else if Ascii.eqb r "Q" then "Queen"
          else if Ascii.eqb r "K" then "King"
          else if Ascii.eqb r "A" then "Ace" else String r EmptyString)
  | _ => ""
  end.

Lemma SUITS_values (w su : string) :
  SUITS !! w = Some su -> su ∈ suit_chars.
Proof.
  intros H. apply elem_of_list_to_map_2 in H.
  repeat (apply elem_of_cons in H as [H|H];
          [injection H as _ ->;
           apply (bool_decide_unpack _); by vm_compute|]).
  by apply elem_of_nil in H.
Qed.

Lemma RANKS_values (w r : string) :
  RANKS !! w = Some r -> r ∈ rank_chars.
Proof.
  intros H. apply elem_of_list_to_map_2 in H.
  repeat (apply elem_of_cons in H as [H|H];
          [injection H as _ ->;
           apply (bool_decide_unpack _); by vm_compute|]).
  by apply elem_of_nil in H.
Qed.

Lemma card_codes_elem (code : string) :
  code ∈ card_codes
  <-> exists r su, r ∈ rank_chars /\ su ∈ suit_chars /\ code = r ++ su.
Proof.
  unfold card_codes. rewrite list_elem_of_In, in_flat_map. split.
  - intros (r & Hr & Hc). apply in_map_iff in Hc as (su & <- & Hsu).
    exists r, su. by rewrite !list_elem_of_In.
  - intros (r & su & Hr & Hsu & ->). exists r.
    rewrite in_map_iff, <- list_elem_of_In. split; [done|].
    exists su. by rewrite <- list_elem_of_In.
Qed.

(** What [parse_card] hands to [Card.new] is always one of the 52
    two-character codes, rank then suit; and every one of the 52 cards
    can be entered. *)
Theorem parse_card_codes :
  (forall s code, parse_card s = Ok code -> code ∈ card_codes)
  /\ (forall code, code ∈ card_codes -> parse_card (spell code) = Ok code)
  /\ NoDup card_codes
  /\ length card_codes = 52%nat.
Proof.
  split; [|split; [|split]].
  - intros s code H. apply parse_card_Ok in H. apply card_codes_elem.
    destruct H as [S R su r _ HS HR ->|S R su r _ HS HR ->|S R su r _ HS HR ->];
      exists r, su; eauto using SUITS_values, RANKS_values.
  - assert (forallb (fun code =>
                       match parse_card (spell code) with
                       | Ok c => String.eqb c code
                       | Raise _ => false
                       end) card_codes = true) as Hall by (by vm_compute).
    intros code Hin. apply list_elem_of_In in Hin.
    pose proof (proj1 (forallb_forall _ _) Hall code Hin) as Hc.
    cbv beta in Hc.
    destruct (parse_card (spell code)) as [c|e]; [|done].
    by apply String.eqb_eq in Hc as ->.
  - apply (bool_decide_unpack _). by vm_compute.
  - reflexivity.
Qed.

(** ** Spelling *)

Lemma card_shape_dec (ws : list string) : card_shape ws \/ ~ card_shape ws.
Proof.
  unfold card_shape. destruct ws as [|a [|b [|c [|d ws]]]].
  - right. intros [?|(? & ? & ?)]; done.
  - right. intros [?|(? & ? & ?)]; done.
  - left. by left.
  - destruct (String.eqb_spec b "OF") as [->|Hof].
    + left. right. eauto.
    + right. intros [?|(? & ? & ?)]; [done|congruence].
  - right. intros [?|(? & ? & ?)]; done.
Qed.

Lemma card_form_tokens (s s' code : string) :
  tokens s = tokens s' -> card_form s code -> card_form s' code.
Proof.
  intros Ht [S R su r H HS HR ->|S R su r H HS HR ->|S R su r H HS HR ->];
    rewrite Ht in H.
  - by eapply form_suit_rank.
  - by eapply form_rank_suit.
  - by eapply form_rank_of_suit.
Qed.

(** [parse_card] looks at nothing but the upper-cased words of the
    text: two texts with the same words give the same card, or fail
    with an error of the same kind. Letter case and the amount of white
    space between, before and after the words never matter. *)
Theorem parse_card_ignores_case_and_spacing (s s' : string) :
  tokens s = tokens s' ->
  (forall code, parse_card s = Ok code <-> parse_card s' = Ok code)
  /\ (forall e, parse_card s = Raise e ->
        exists e', parse_card s' = Raise e' /\ kind_of e' = kind_of e).
Proof.
  intros Ht.
  assert (forall code, card_form s code <-> card_form s' code) as Hform.
  { intros code. split; by apply card_form_tokens. }
  split.
  - intros code. by rewrite !parse_card_Ok.
  - intros e He. destruct (parse_card s') as [code|e'] eqn:He'.
    + apply parse_card_Ok, Hform, parse_card_Ok in He'. congruence.
    + exists e'. split; [done|].
      destruct (parse_card_InvalidFormat s e He) as [Hf Hs].
      destruct (parse_card_InvalidFormat s' e' He') as [Hf' Hs'].
      rewrite Ht in Hf, Hs.
      destruct (card_shape_dec (tokens s')) as [Hshape|Hshape].
      * rewrite (proj2 Hs Hshape). by apply Hs'.
      * rewrite (proj2 Hf Hshape). by apply Hf'.
Qed.

Lemma parse_card_ignores_case_and_spacing_witness :
  parse_card "  ten   OF hearts " = Ok "Th"
  <-> parse_card "Ten of Hearts" = Ok "Th".
Proof.
  destruct (parse_card_ignores_case_and_spacing
              "  ten   OF hearts " "Ten of Hearts") as [H _].
  - vm_compute. reflexivity.
  - exact (H "Th").
Defined.

(** * Settling the pot

    The end of [main]: the pot goes to the only player left, or is split
    between the best hands shown. The cards the players enter at the
    show-down are in their [hole_cards] when this code runs; a player
    who mucks has none. A hand is ranked by treys'
    [Evaluator.evaluate], lower being better, which raises when hand
    and board together are not five to seven cards. *)

Section Showdown.

Variable hand_rank : list Z -> result Z.

#[local] Abbreviation evaluate := (evaluate hand_rank).

(** The players with their seats, in table order, from seat [i] on. *)
Fixpoint seats_from (i : nat) (ps : list Player) : list (nat * Player) :=
  match ps with
  | [] => []
  | p :: ps' => (i, p) :: seats_from (S i) ps'
  end.

Definition seats (t : Table) : list (nat * Player) := seats_from 0 (players t).

(** [table.get_active_players()] *)
Definition active_players (t : Table) : list (nat * Player) :=
  List.filter (fun ip => is_active ip.2) (seats t).

(** A list as a condition: [if p.hole_cards]. *)
Definition has_cards (p : Player) : bool :=
  match hole_cards p with [] => false | _ => true end.

(** [[p for p in active_players if p.hole_cards]] *)
Definition showdown_players (t : Table) : list (nat * Player) :=
  List.filter (fun ip => has_cards ip.2) (active_players t).

(** The loop over [showdown_players]. [best_rank] starts as
    [float('inf')], here [None]: every rank is below it and none equals
    it. An error of [evaluate] ends the loop. *)
Fixpoint find_winners (board : list Z) (sp : list (nat * Player))
         (best_rank : option Z) (winners : list nat)
  : result (option Z * list nat) :=
  match sp with
  | [] => Ok (best_rank, winners)
  | (i, p) :: rest =>
      match evaluate board (hole_cards p) with
      | Raise e => Raise e
      | Ok rank =>
          if match best_rank with None => true | Some b => rank <? b end then
            find_winners board rest (Some rank) [i]
          else if match best_rank with None => false | Some b => rank =? b end
          then find_winners board rest best_rank (winners ++ [i])%list
          else find_winners board rest best_rank winners
      end
  end.

(** [w.stack += win_amount] *)
Definition add_chips (win_amount : Z) (p : Player) : Player :=
  mkPlayer (name p) (stack p + win_amount) (is_ai p) (hole_cards p)
           (is_active p) (is_all_in p) (current_bet p) (total_invested p).

(** [for w in winners: w.stack += win_amount], on the seats of the
    winners. *)
Definition pay (winners : list nat) (win_amount : Z) (ps : list Player)
  : list Player :=
  fold_left (fun ps w => alter (add_chips win_amount) w ps) winners ps.

(** Who is paid: the only active player, or the winners of the
    show-down. *)
Definition winners_of (t : Table) : result (list nat) :=
  if (length (active_players t) =? 1)%nat then Ok (map fst (active_players t))
  else
    match find_winners (community_cards t) (showdown_players t) None [] with
    | Ok (_, winners) => Ok winners
    | Raise e => Raise e
    end.

(** The branch after the game loop. With one active player the pot is
    theirs. Otherwise the show-down begins by reading
    [table.players[0]], which needs a player; then the hands shown are
    ranked and the pot is divided, [pot_size // len(winners)] a head; if
    nobody shows cards nothing is paid. *)
Definition settle (t : Table) : result Table :=
  let pot_size := get_total_pot_size t in
  if (length (active_players t) =? 1)%nat then
    Ok (set_players t (pay (map fst (active_players t)) pot_size (players t)))
  else
    match players t with
    | [] => Raise IndexError
    | _ :: _ =>
        match showdown_players t with
        | [] => Ok t
        | _ =>
            match find_winners (community_cards t) (showdown_players t)
                    None [] with
            | Raise e => Raise e
            | Ok (_, winners) =>
                if (length winners =? 0)%nat then Raise ZeroDivisionError
                else
                  let win_amount := pot_size / Z.of_nat (length winners) in
                  Ok (set_players t (pay winners win_amount (players t)))
            end
        end
    end.

(** The rank of the hand a player shows. *)
Definition rank_of (board : list Z) (ip : nat * Player) : result Z :=
  evaluate board (hole_cards ip.2).

(** The hand gets a rank. *)
Definition is_ranked (board : list Z) (ip : nat * Player) : Prop :=
  exists rank, rank_of board ip = Ok rank.

Definition has_rank (board : list Z) (rank : Z) (ip : nat * Player) : bool :=
  match rank_of board ip with
  | Ok r => r =? rank
  | Raise _ => false
  end.

(** What the loop keeps true of the players [seen] so far. *)
Definition best_so_far (board : list Z) (seen : list (nat * Player))
           (best_rank : option Z) (winners : list nat) : Prop :=
  match best_rank with
  | None => seen = [] /\ winners = []
  | Some b =>
      (forall ip, In ip seen ->
         exists r, rank_of board ip = Ok r /\ b <= r)
      /\ winners = map fst (List.filter (has_rank board b) seen)
      /\ winners <> []
  end.

Lemma filter_none {A} (f : A -> bool) (l : list A) :
  (forall x, In x l -> f x = false) -> List.filter f l = [].
Proof.
  induction l as [|x l IH]; intros H; [done|]. simpl.
  rewrite (H x) by (by left). apply IH. intros y Hy. apply H. by right.
Qed.

Lemma find_winners_best (board : list Z) (sp seen : list (nat * Player))
      (best_rank best_rank' : option Z) (winners winners' : list nat) :
  best_so_far board seen best_rank winners ->
  find_winners board sp best_rank winners = Ok (best_rank', winners') ->
  best_so_far board (seen ++ sp)%list best_rank' winners'.
Proof.
  revert seen best_rank winners.
  induction sp as [|[i p] rest IH]; intros seen best_rank winners Hinv.
  { intros [= <- <-]. by rewrite app_nil_r. }
  replace (seen ++ (i, p) :: rest)%list with ((seen ++ [(i, p)]) ++ rest)%list
    by (by rewrite <- app_assoc).
  cbn [find_winners].
  destruct (evaluate board (hole_cards p)) as [rank|e] eqn:Hrank; [|done].
  assert (rank_of board (i, p) = Ok rank) as Hrank' by done.
  assert (forall b, has_rank board b (i, p) = (rank =? b)) as Hhas.
  { intros b. unfold has_rank. by rewrite Hrank'. }
  destruct best_rank as [b|].
  - destruct Hinv as (Hmin & Hw & Hne).
    destruct (Z.ltb_spec rank b) as [Hlt|Hge].
    + apply IH. split; [|split; [|done]].
      * intros ip [Hin|[<-|[]]]%in_app_or.
        -- destruct (Hmin ip Hin) as (r & Hr & Hle). exists r. split; [done|lia].
        -- exists rank. split; [done|lia].
      * rewrite List.filter_app. cbn [List.filter]. rewrite Hhas, Z.eqb_refl.
        replace (List.filter (has_rank board rank) seen)
          with (@nil (nat * Player)); [done|].
        symmetry. apply filter_none. intros ip Hin.
        destruct (Hmin ip Hin) as (r & Hr & Hle). unfold has_rank.
        rewrite Hr. apply Z.eqb_neq. lia.
    + destruct (Z.eqb_spec rank b) as [Heq|Hne'].
      * apply IH. split; [|split].
        -- intros ip [Hin|[<-|[]]]%in_app_or; [by apply Hmin|].
           exists rank. split; [done|lia].
        -- rewrite List.filter_app, map_app. cbn [List.filter].
           rewrite Hhas, Heq, Z.eqb_refl. by rewrite Hw.
        -- by destruct winners.
      * apply IH. split; [|split; [|done]].
        -- intros ip [Hin|[<-|[]]]%in_app_or; [by apply Hmin|].
           exists rank. split; [done|lia].
        -- rewrite List.filter_app. cbn [List.filter]. rewrite Hhas.
           replace (rank =? b) with false by (symmetry; by apply Z.eqb_neq).
           by rewrite app_nil_r.
  - destruct Hinv as [-> ->]. apply IH. split; [|split; [|done]].
    + intros ip [<-|[]]. exists rank. split; [done|lia].
    + cbn [app List.filter]. by rewrite Hhas, Z.eqb_refl.
Qed.

(** The loop returns when every hand shown gets a rank. *)
Lemma find_winners_returns (board : list Z) (sp : list (nat * Player))
      (best_rank : option Z) (winners : list nat) :
  (forall ip, In ip sp -> is_ranked board ip) ->
  exists res, find_winners board sp best_rank winners = Ok res.
Proof.
  revert best_rank winners.
  induction sp as [|[i p] rest IH]; intros best_rank winners Hall.
  { by eexists. }
  cbn [find_winners].
  destruct (Hall (i, p)) as [rank Hrank]; [by left|].
  unfold rank_of in Hrank. simpl in Hrank. rewrite Hrank.
  assert (forall ip, In ip rest -> is_ranked board ip) as Hrest
      by (intros ip Hin; apply Hall; by right).
  repeat case_match; by apply IH.
Qed.

(** The loop raises what the first hand without a rank raises. *)
Lemma find_winners_raises (board : list Z) (sp : list (nat * Player))
      (best_rank : option Z) (winners : list nat) :
  (exists ip, In ip sp /\ ~ is_ranked board ip) ->
  exists ip e, In ip sp /\ rank_of board ip = Raise e
               /\ find_winners board sp best_rank winners = Raise e.
Proof.
  revert best_rank winners.
  induction sp as [|[i p] rest IH]; intros best_rank winners (ip & Hin & Hno).
  { destruct Hin. }
  cbn [find_winners].
  destruct (evaluate board (hole_cards p)) as [rank|e] eqn:Hrank.
  - assert (exists ip, In ip rest /\ ~ is_ranked board ip) as Hrest.
    { destruct Hin as [<-|Hin]; [|by eauto].
      destruct Hno. by exists rank. }
    assert (forall b ws, exists ip e,
              In ip ((i, p) :: rest) /\ rank_of board ip = Raise e
              /\ find_winners board rest b ws = Raise e) as Hstep.
    { intros b ws. destruct (IH b ws Hrest) as (ip' & e & Hin' & Hr & Hrun).
      exists ip', e. split; [by right|done]. }
    repeat case_match; apply Hstep.
  - exists (i, p), e. split; [by left|]. by split.
Qed.

Lemma seats_from_In (i j : nat) (p : Player) (ps : list Player) :
  In (j, p) (seats_from i ps) <-> (i <= j)%nat /\ ps !! (j - i)%nat = Some p.
Proof.
  revert i. induction ps as [|q ps IH]; intros i; simpl.
  { split; [done|]. by intros [_ ?]. }
  rewrite IH. split.
  - intros [[= <- <-]|[Hle Hp]].
    + split; [lia|]. by rewrite Nat.sub_diag.
    + split; [lia|]. by replace (j - i)%nat with (S (j - S i)) by lia.
  - intros [Hle Hp]. destruct (Nat.eq_dec i j) as [<-|Hne].
    + left. rewrite Nat.sub_diag in Hp. simpl in Hp. congruence.
    + right. split; [lia|].
      by replace (j - i)%nat with (S (j - S i)) in Hp by lia.
Qed.

Lemma seats_from_NoDup (i : nat) (ps : list Player) :
  List.NoDup (map fst (seats_from i ps)).
Proof.
  revert i. induction ps as [|q ps IH]; intros i; simpl; constructor; [|done].
  intros Hin. apply in_map_iff in Hin as ([j p] & Hj & Hin). simpl in Hj. subst j.
  apply seats_from_In in Hin as [Hle _]. lia.
Qed.

Lemma filter_fst_NoDup {A B} (f : A * B -> bool) (l : list (A * B)) :
  List.NoDup (map fst l) -> List.NoDup (map fst (List.filter f l)).
Proof.
  induction l as [|x l IH]; simpl; [done|]. intros Hnd.
  apply List.NoDup_cons_iff in Hnd as [Hx Hnd].
  destruct (f x); [|by apply IH]. simpl. constructor; [|by apply IH].
  intros Hin. apply Hx. apply in_map_iff in Hin as (y & Hy & Hin).
  apply in_map_iff. exists y. split; [done|]. by apply filter_In in Hin as [? _].
Qed.

(** The winners of a show-down are the hands of the best rank. *)
Lemma find_winners_spec (t : Table) (best_rank : option Z) (winners : list nat) :
  showdown_players t <> [] ->
  find_winners (community_cards t) (showdown_players t) None []
  = Ok (best_rank, winners) ->
  exists best,
    best_rank = Some best
    /\ (forall ip, In ip (showdown_players t) ->
          exists r, rank_of (community_cards t) ip = Ok r /\ best <= r)
    /\ winners = map fst (List.filter (has_rank (community_cards t) best)
                            (showdown_players t))
    /\ winners <> [].
Proof.
  intros Hshow Hrun.
  pose proof (find_winners_best (community_cards t) (showdown_players t)
                [] None best_rank [] winners (conj eq_refl eq_refl) Hrun)
    as Hbest.
  simpl app in Hbest. destruct best_rank as [b|]; simpl in Hbest.
  - by exists b.
  - by destruct Hbest as [? _].
Qed.

(** The winners are seats of the table, each once. *)
Lemma winners_seated (t : Table) (winners : list nat) :
  winners_of t = Ok winners ->
  List.NoDup winners
  /\ forall w, In w winners -> (w < length (players t))%nat.
Proof.
  assert (forall sp : list (nat * Player),
            (forall ip, In ip sp -> In ip (seats t)) ->
            forall w, In w (map fst sp) -> (w < length (players t))%nat) as Hseat.
  { intros sp Hsub w Hin. apply in_map_iff in Hin as ([j p] & <- & Hin).
    apply Hsub, seats_from_In in Hin as [_ Hp]. simpl.
    apply lookup_lt_Some in Hp. lia. }
  assert (forall ip, In ip (active_players t) -> In ip (seats t)) as Hact.
  { intros ip Hin. by apply filter_In in Hin as [? _]. }
  assert (forall ip, In ip (showdown_players t) -> In ip (seats t)) as Hshow.
  { intros ip Hin. apply filter_In in Hin as [? _]. by apply Hact. }
  assert (List.NoDup (map fst (showdown_players t))) as Hnd.
  { do 2 apply filter_fst_NoDup. apply seats_from_NoDup. }
  unfold winners_of. destruct (length (active_players t) =? 1)%nat.
  - intros [= <-].
    split; [apply filter_fst_NoDup, seats_from_NoDup|by apply Hseat].
  - destruct (find_winners (community_cards t) (showdown_players t) None [])
      as [[best ws]|e] eqn:Hrun; [|done].
    intros [= <-].
    pose proof (find_winners_best (community_cards t) (showdown_players t)
                  [] None best [] ws (conj eq_refl eq_refl) Hrun) as Hbest.
    simpl app in Hbest. destruct best as [b|]; simpl in Hbest.
    + destruct Hbest as (_ & -> & _). split.
      * by apply filter_fst_NoDup.
      * apply Hseat. intros ip Hin. apply filter_In in Hin as [? _].
        by apply Hshow.
    + destruct Hbest as [_ ->]. split; [constructor|done].
Qed.

Lemma stacks_sum_alter (a : Z) (w : nat) (ps : list Player) :
  (w < length ps)%nat ->
  stacks_sum (alter (add_chips a) w ps) = stacks_sum ps + a.
Proof.
  intros Hw. destruct (lookup_lt_is_Some_2 ps w Hw) as [p Hp].
  assert (alter (add_chips a) w ps = <[w := add_chips a p]> ps) as ->.
  { apply list_eq. intros j. destruct (Nat.eq_dec j w) as [->|Hne].
    - rewrite list_lookup_alter_eq, Hp, list_lookup_insert_eq by done. done.
    - by rewrite list_lookup_alter_ne, list_lookup_insert_ne by done. }
  rewrite (stacks_sum_insert _ _ _ _ Hp). simpl. lia.
Qed.

Lemma pay_cons (w : nat) (ws : list nat) (a : Z) (ps : list Player) :
  pay (w :: ws) a ps = pay ws a (alter (add_chips a) w ps).
Proof. reflexivity. Qed.

Lemma pay_sum (ws : list nat) (a : Z) (ps : list Player) :
  (forall w, In w ws -> (w < length ps)%nat) ->
  stacks_sum (pay ws a ps) = stacks_sum ps + a * Z.of_nat (length ws).
Proof.
  revert ps. induction ws as [|w ws IH]; intros ps Hws.
  { unfold pay. simpl. lia. }
  rewrite pay_cons, IH.
  - rewrite stacks_sum_alter by (apply Hws; by left).
    change (length (w :: ws)) with (S (length ws)). lia.
  - intros w' Hw'. rewrite length_alter. apply Hws. by right.
Qed.

Lemma pay_lookup (ws : list nat) (a : Z) (ps : list Player) (j : nat) :
  List.NoDup ws ->
  pay ws a ps !! j
  = (fun p => if bool_decide (j ∈ ws) then add_chips a p else p) <$> ps !! j.
Proof.
  revert ps. induction ws as [|w ws IH]; intros ps Hnd.
  { unfold pay. simpl. by destruct (ps !! j). }
  apply List.NoDup_cons_iff in Hnd as [Hw Hnd].
  rewrite <- list_elem_of_In in Hw.
  rewrite pay_cons, IH by done.
  destruct (Nat.eq_dec j w) as [->|Hne].
  - rewrite list_lookup_alter_eq. destruct (ps !! w) as [p|]; [|done]. simpl.
    rewrite bool_decide_eq_false_2 by done.
    rewrite bool_decide_eq_true_2; [done|by left].
  - rewrite list_lookup_alter_ne by done.
    destruct (ps !! j) as [p|]; [|done]. simpl. f_equal.
    destruct (bool_decide (j ∈ ws)) eqn:Hin.
    + apply bool_decide_eq_true in Hin.
      rewrite bool_decide_eq_true_2; [done|by right].
    + apply bool_decide_eq_false in Hin.
      rewrite bool_decide_eq_false_2; [done|].
      intros [?|?]%elem_of_cons; [lia|done].
Qed.

(** At a show-down where somebody shows cards and every hand shown gets
    a rank, the winners are exactly the players, still in the hand and
    showing cards, whose hand has the lowest rank; there is at least
    one. *)
Theorem showdown_winners (t : Table) :
  length (active_players t) <> 1%nat ->
  showdown_players t <> [] ->
  (forall ip, In ip (showdown_players t) -> is_ranked (community_cards t) ip) ->
  exists best winners,
    winners_of t = Ok winners
    /\ (forall ip, In ip (showdown_players t) ->
          exists r, rank_of (community_cards t) ip = Ok r /\ best <= r)
    /\ winners
       = map fst (List.filter (has_rank (community_cards t) best)
                    (showdown_players t))
    /\ winners <> [].
Proof.
  intros Hmany Hshow Hranked. unfold winners_of.
  replace (length (active_players t) =? 1)%nat with false
    by (symmetry; by apply Nat.eqb_neq).
  destruct (find_winners_returns (community_cards t) (showdown_players t)
              None [] Hranked) as [[best_rank ws] Hrun].
  rewrite Hrun.
  destruct (find_winners_spec t best_rank ws Hshow Hrun)
    as (best & -> & Hmin & Hws & Hne).
  by exists best, ws.
Qed.

(** The ways [settle] ends at a table with players when the hands shown
    get a rank: nothing is paid, or the winners are. *)
Lemma settle_cases (t : Table) :
  players t <> [] ->
  length (active_players t) = 1%nat
  \/ (forall ip, In ip (showdown_players t) -> is_ranked (community_cards t) ip) ->
  (length (active_players t) <> 1%nat /\ showdown_players t = []
   /\ winners_of t = Ok [] /\ settle t = Ok t)
  \/ exists winners,
       (length (active_players t) = 1%nat \/ showdown_players t <> [])
       /\ winners_of t = Ok winners
       /\ (0 < length winners)%nat
       /\ settle t
          = Ok (set_players t
                  (pay winners
                     (get_total_pot_size t / Z.of_nat (length winners))
                     (players t))).
Proof.
  intros Hplayers Hranked. unfold settle, winners_of.
  destruct (length (active_players t) =? 1)%nat eqn:Hone.
  - apply Nat.eqb_eq in Hone. right. exists (map fst (active_players t)).
    rewrite length_map, Hone.
    split; [by left|]. split; [done|]. split; [lia|]. by rewrite Z.div_1_r.
  - apply Nat.eqb_neq in Hone.
    destruct Hranked as [?|Hranked]; [done|].
    destruct (players t) as [|q qs] eqn:Hps; [done|]. rewrite <- Hps.
    destruct (find_winners_returns (community_cards t) (showdown_players t)
                None [] Hranked) as [[best_rank ws] Hrun].
    pose proof (fun H => find_winners_spec t best_rank ws H Hrun) as Hspec.
    rewrite Hrun.
    destruct (showdown_players t) as [|ip sp] eqn:Hsp.
    + left. simpl in Hrun. injection Hrun as <- <-. by repeat split.
    + right. destruct Hspec as (best & _ & _ & _ & Hne); [done|].
      assert (0 < length ws)%nat as Hk by (destruct ws; [done|simpl; lia]).
      exists ws. split; [by right|]. split; [done|]. split; [done|].
      replace (length ws =? 0)%nat with false
        by (symmetry; apply Nat.eqb_neq; lia).
      done.
Qed.

(** [settle] never divides by zero. It fails on a table without
    players, with the [IndexError] of [table.players[0]], and when a
    hand shown at the show-down gets no rank, with the error of
    [evaluate]: a [KeyError] whenever the first hand shown and the
    board are not five to seven cards together. When every hand shown
    gets a rank, or one player is left, it returns: if nobody shows
    cards nothing is paid and the pot stays where it is; otherwise
    every winner's stack grows by the pot divided by the number of
    winners, rounded down, and nobody else's changes, so that the
    stacks grow by the pot less the remainder of that division, which
    no player receives. *)
Theorem settle_pays (t : Table) :
  (players t = [] -> settle t = Raise IndexError)
  /\ (players t <> [] ->
      length (active_players t) = 1%nat
      \/ (forall ip, In ip (showdown_players t) ->
            is_ranked (community_cards t) ip) ->
      exists t' winners,
        settle t = Ok t'
        /\ winners_of t = Ok winners
        /\ pots t' = pots t
        /\ (length (active_players t) <> 1%nat -> showdown_players t = [] ->
            t' = t)
        /\ (length (active_players t) = 1%nat \/ showdown_players t <> [] ->
            let k := Z.of_nat (length winners) in
            let pot_size := get_total_pot_size t in
            0 < k
            /\ stacks_sum (players t')
               = stacks_sum (players t) + pot_size - pot_size mod k
            /\ forall seat,
                 players t' !! seat
                 = (fun p => if bool_decide (seat ∈ winners)
                             then add_chips (pot_size / k) p else p)
                   <$> players t !! seat))
  /\ (players t <> [] -> length (active_players t) <> 1%nat ->
      (exists ip, In ip (showdown_players t)
                  /\ ~ is_ranked (community_cards t) ip) ->
      exists ip e,
        In ip (showdown_players t)
        /\ rank_of (community_cards t) ip = Raise e
        /\ settle t = Raise e)
  /\ (players t <> [] -> length (active_players t) <> 1%nat ->
      forall ip rest,
        showdown_players t = ip :: rest ->
        let n := (length (community_cards t) + length (hole_cards ip.2))%nat in
        (n < 5 \/ 7 < n)%nat ->
        settle t = Raise (KeyError (Z.of_nat n))).
Proof.
  split; [|split; [|split]].
  - intros Hnil. unfold settle, active_players, seats. by rewrite Hnil.
  - intros Hplayers Hranked.
    destruct (settle_cases t Hplayers Hranked)
      as [(Hmany & Hsp & Hnil & Hrun)|(ws & Hsome & Hws & Hk & Hrun)].
    + exists t, []. split; [done|]. split; [done|]. split; [done|].
      split; [done|]. intros [Hone|Hshow]; done.
    + destruct (winners_seated t ws Hws) as [Hnd Hseat].
      eexists _, ws. split; [exact Hrun|]. split; [done|]. split; [done|].
      split.
      * intros Hmany Hsp. destruct Hsome as [Hone|Hshow]; done.
      * intros _ k pot_size. split; [lia|]. split.
        -- simpl. rewrite pay_sum by done. fold k. fold pot_size.
           pose proof (Z.div_mod pot_size k ltac:(lia)). lia.
        -- intros seat. simpl. by apply pay_lookup.
  - intros Hplayers Hmany Hbad. unfold settle.
    replace (length (active_players t) =? 1)%nat with false
      by (symmetry; by apply Nat.eqb_neq).
    destruct (players t) as [|q qs] eqn:Hps; [done|]. rewrite <- Hps.
    destruct (find_winners_raises (community_cards t) (showdown_players t)
                None [] Hbad) as (ip & e & Hin & Hrank & Hrun).
    exists ip, e. split; [done|]. split; [done|].
    rewrite Hrun. destruct (showdown_players t); [destruct Hin|done].
  - intros Hplayers Hmany [i p] rest Hsp n Hn. unfold settle.
    replace (length (active_players t) =? 1)%nat with false
      by (symmetry; by apply Nat.eqb_neq).
    destruct (players t) as [|q qs] eqn:Hps; [done|]. rewrite <- Hps.
    rewrite Hsp. cbn [find_winners].
    by rewrite evaluate_KeyError.
Qed.

End Showdown.

(** A show-down for the examples: two players show hands of the same
    rank on a board of five cards and a third has folded; the pot holds
    201. *)
Definition showdown_table : Table :=
  mkTable [mkPlayer "AI_Bot" 900 true [50; 1] true false 0 100;
           mkPlayer "Human" 900 false [49; 2] true false 0 100;
           mkPlayer "Opponent_2" 999 false [] false false 0 1]
          [10; 11; 12; 13; 14] 10 20 1 [mkPot 201 []].

Lemma showdown_winners_witness :
  exists best winners,
    winners_of Example.hand_rank showdown_table = Ok winners
    /\ (forall ip, In ip (showdown_players showdown_table) ->
          exists r, rank_of Example.hand_rank
                      (community_cards showdown_table) ip = Ok r
                    /\ best <= r)
    /\ winners
       = map fst (List.filter
                    (has_rank Example.hand_rank
                       (community_cards showdown_table) best)
                    (showdown_players showdown_table))
    /\ winners <> [].
Proof.
  apply (showdown_winners Example.hand_rank showdown_table).
  - vm_compute. discriminate.
  - vm_compute. discriminate.
  - intros ip Hin. vm_compute in Hin.
    destruct Hin as [<-|[<-|[]]]; eexists; vm_compute; reflexivity.
Defined.

(** The two winners of [showdown_table] get 100 each; one chip of the
    201 goes to nobody. *)
Example split_pot_drops_the_odd_chip :
  exists t', settle Example.hand_rank showdown_table = Ok t'
             /\ map stack (players t') = [1000; 1000; 999]
             /\ stacks_sum (players t')
                = stacks_sum (players showdown_table) + 201 - 1.
Proof. eexists. split; [reflexivity|]. by vm_compute. Qed.

(** * More on the controller *)

(** ** Starting a hand *)

(** [start_hand] fails exactly on a table without players, with the
    [ZeroDivisionError] of [% len(self.table.players)]. On any other
    table it returns: the hand is at [PRE_FLOP] with an empty board, the
    button has moved one seat on (round the table), the highest bet and
    [min_raise] are the big blind, nobody has acted, and the same
    players sit in the same seats. *)
Theorem start_hand_spec (g : GameController) :
  (players (table g) = [] -> fst (start_hand g) = Raise ZeroDivisionError)
  /\ (players (table g) <> [] ->
      exists g',
        start_hand g = (Ok tt, g')
        /\ phase g' = PRE_FLOP
        /\ community_cards (table g') = []
        /\ button_idx (table g')
           = (button_idx (table g) + 1) mod Z.of_nat (length (players (table g)))
        /\ highest_bet g' = big_blind_amount (table g)
        /\ min_raise g' = big_blind_amount (table g)
        /\ acted_this_round g' = ∅
        /\ map name (players (table g')) = map name (players (table g))).
Proof.
  split.
  - intros Hnil. unfold start_hand, bind, gets, modify, ret, raise. simpl.
    rewrite Hnil. done.
  - intros Hne.
    destruct (start_hand_run g Hne)
      as (i_sb & p_sb & i_bb & p_bb & _ & Hp1 & _ & Hp2 & Hrun).
    eexists. split; [exact Hrun|].
    repeat (split; [done|]).
    simpl in Hp1, Hp2. simpl.
    assert (forall (ps : list Player) j q q',
              ps !! j = Some q -> name q' = name q ->
              map name (<[j := q']> ps) = map name ps) as Hins.
    { intros ps j q q' Hq Hn. rewrite list_fmap_insert, Hn.
      apply list_insert_id. by rewrite list_lookup_fmap, Hq. }
    rewrite (Hins _ _ _ _ Hp2) by (unfold Player_bet; by case_match).
    rewrite (Hins _ _ _ _ Hp1) by (unfold Player_bet; by case_match).
    rewrite map_map. done.
Qed.

Lemma start_hand_spec_witness :
  exists g',
    start_hand (scenario 20 1000) = (Ok tt, g')
    /\ phase g' = PRE_FLOP
    /\ button_idx (table g') = 1.
Proof.
  destruct (start_hand_spec (scenario 20 1000)) as [_ H].
  destruct H as (g' & Hrun & Hph & _ & Hb & _).
  - vm_compute. discriminate.
  - exists g'. exact (conj Hrun (conj Hph Hb)).
Defined.

(** ** The actions on offer *)

(** [get_legal_actions] fails, with [IndexError], exactly when
    [current_idx] is no index of the list of players. Otherwise [FOLD]
    is on offer; [CALL] is the amount missing to the highest bet, capped
    at the stack; [CHECK] is on offer exactly when nothing is missing;
    and a raise is on offer only to a player who holds more than the
    call, from [highest_bet + min_raise], capped at the all-in, up to
    the all-in [stack + current_bet]. *)
Theorem get_legal_actions_spec (g : GameController) :
  (get_legal_actions g = Raise IndexError
   <-> py_index (players (table g)) (current_idx g) = None)
  /\ forall i p,
       current_player g = Ok (i, p) ->
       let to_call := highest_bet g - current_bet p in
       exists legal,
         get_legal_actions g = Ok legal
         /\ FOLD legal = VBool true
         /\ CALL legal = VInt (Z.min to_call (stack p))
         /\ CHECK legal = VBool (to_call =? 0)
         /\ (stack p <= to_call ->
             RAISE_TO_MIN legal = VBool false /\ RAISE_TO_MAX legal = VBool false)
         /\ (to_call < stack p ->
             exists lo hi,
               RAISE_TO_MIN legal = VInt lo /\ RAISE_TO_MAX legal = VInt hi
               /\ hi = stack p + current_bet p
               /\ lo = Z.min (highest_bet g + min_raise g) hi
               /\ lo <= hi).
Proof.
  split.
  - unfold get_legal_actions, current_player.
    destruct (py_index (players (table g)) (current_idx g)) as [i|] eqn:Hi;
      [|done].
    destruct (py_index_Some _ _ _ Hi) as [Hlt _].
    destruct (lookup_lt_is_Some_2 _ _ Hlt) as [p Hp]. rewrite Hp. done.
  - intros i p Hcur to_call. exists (legal_for g p).
    unfold get_legal_actions. rewrite Hcur.
    split; [done|]. unfold legal_for. fold to_call.
    destruct (Z.ltb_spec to_call (stack p)) as [Hlt|Hge]; simpl.
    + split; [done|]. split; [done|]. split; [done|]. split; [lia|].
      intros _. eexists _, _. repeat (split; [done|]). lia.
    + split; [done|]. split; [done|]. split; [done|]. split; [done|]. lia.
Qed.

(** * A whole hand

    What [main] does to the controller between [start_hand] and the
    settling of the pot: it calls [process_action] and [advance_phase],
    writes the cards that are entered into [hole_cards] and
    [community_cards], and may move [current_idx] on. *)

(** [p.hole_cards = cards] for the player at seat [i]. *)
Definition set_hole_cards (g : GameController) (i : nat) (cards : list Z)
  : GameController :=
  set_table g
    (set_players (table g)
       (alter (fun p => mkPlayer (name p) (stack p) (is_ai p) cards (is_active p)
                          (is_all_in p) (current_bet p) (total_invested p))
              i (players (table g)))).

(** [table.community_cards.extend(board)] *)
Definition extend_board (g : GameController) (board : list Z) : GameController :=
  set_table g
    (mkTable (players (table g)) (community_cards (table g) ++ board)
             (small_blind_amount (table g)) (big_blind_amount (table g))
             (button_idx (table g)) (pots (table g))).

(** The states of the hand started from [g0]. *)
Inductive in_hand (g0 : GameController) : GameController -> Prop :=
| hand_started :
    in_hand g0 (snd (start_hand g0))
| hand_action g action amount :
    in_hand g0 g -> in_hand g0 (snd (process_action action amount g))
| hand_street g :
    in_hand g0 g -> in_hand g0 (snd (advance_phase g))
| hand_hole_cards g i cards :
    in_hand g0 g -> in_hand g0 (set_hole_cards g i cards)
| hand_board g board :
    in_hand g0 g -> in_hand g0 (extend_board g board)
| hand_skip g :
    in_hand g0 g ->
    in_hand g0 (set_current_idx g (_next_active g (current_idx g))).

Lemma stacks_sum_hole_cards (ps : list Player) (i : nat) (cards : list Z) :
  stacks_sum
    (alter (fun p => mkPlayer (name p) (stack p) (is_ai p) cards (is_active p)
                       (is_all_in p) (current_bet p) (total_invested p)) i ps)
  = stacks_sum ps.
Proof.
  unfold stacks_sum. revert i.
  induction ps as [|q ps IH]; intros [|i]; simpl; try done.
  by rewrite <- (IH i).
Qed.

Lemma start_hand_length (g : GameController) :
  length (players (table (snd (start_hand g)))) = length (players (table g)).
Proof.
  destruct (players (table g)) as [|q qs] eqn:Hps.
  - unfold start_hand, bind, gets, modify, ret, raise. simpl.
    rewrite Hps. simpl. by rewrite Hps.
  - assert (players (table g) <> []) as Hne by congruence.
    destruct (start_hand_run g Hne)
      as (i_sb & p_sb & i_bb & p_bb & _ & _ & _ & _ & ->).
    rewrite <- Hps. simpl. by rewrite !length_insert, length_map.
Qed.

(** The seats of a hand are those it started with. *)
Lemma in_hand_length (g0 g : GameController) :
  in_hand g0 g ->
  length (players (table g)) = length (players (table g0)).
Proof.
  induction 1 as [|g action amount _ IH|g _ IH|g i cards _ IH|g board _ IH|g _ IH].
  - apply start_hand_length.
  - rewrite <- IH.
    destruct (process_action_players action amount g)
      as [->|(i & p & p' & _ & -> & _)]; [done|by rewrite length_insert].
  - rewrite <- IH.
    destruct (advance_phase_players g) as [->| ->]; [done|by rewrite length_map].
  - rewrite <- IH. simpl. by rewrite length_alter.
  - by rewrite <- IH.
  - by rewrite <- IH.
Qed.

Lemma in_hand_chips (g0 g : GameController) :
  in_hand g0 g -> chips_on_table g = stacks_sum (players (table g0)).
Proof.
  induction 1 as [|g action amount _ IH|g _ IH|g i cards _ IH|g board _ IH|g _ IH].
  - apply start_hand_chips.
  - by rewrite process_action_chips.
  - by rewrite advance_phase_chips.
  - rewrite <- IH. unfold chips_on_table. simpl.
    by rewrite stacks_sum_hole_cards.
  - by rewrite <- IH.
  - by rewrite <- IH.
Qed.

Section WholeHand.

Variable hand_rank : list Z -> result Z.

#[local] Abbreviation settle := (settle hand_rank).
#[local] Abbreviation winners_of := (winners_of hand_rank).
#[local] Abbreviation is_ranked := (is_ranked hand_rank).

(** A hand makes no chips and loses fewer than there are winners. Take
    a hand started by [start_hand] at a table with players, and let the
    pot be settled when one player is left or every hand shown gets a
    rank. Then the pay-out returns and the stacks together hold what
    they held before the hand, less the remainder of dividing the pot
    between the winners; if nobody shows cards the whole pot is missing
    from the stacks. *)
Theorem hand_conserves_chips (g0 g : GameController) :
  players (table g0) <> [] ->
  in_hand g0 g ->
  length (active_players (table g)) = 1%nat
  \/ (forall ip, In ip (showdown_players (table g)) ->
        is_ranked (community_cards (table g)) ip) ->
  let pot_size := get_total_pot_size (table g) in
  exists t' winners,
    settle (table g) = Ok t'
    /\ winners_of (table g) = Ok winners
    /\ let k := Z.of_nat (length winners) in
       (winners <> [] ->
        stacks_sum (players t')
        = stacks_sum (players (table g0)) - pot_size mod k
        /\ 0 <= pot_size mod k < k)
       /\ (winners = [] ->
           stacks_sum (players t')
           = stacks_sum (players (table g0)) - pot_size).
Proof.
  intros Hplayers Hhand Hranked pot_size.
  assert (players (table g) <> []) as Hseats.
  { apply in_hand_length in Hhand.
    destruct (players (table g)), (players (table g0)); done. }
  apply in_hand_chips in Hhand.
  unfold chips_on_table in Hhand. fold pot_size in Hhand.
  destruct (settle_cases hand_rank (table g) Hseats Hranked)
    as [(_ & _ & Hnil & Hrun)|(ws & _ & Hws & Hk & Hrun)].
  - exists (table g), []. split; [done|]. split; [done|].
    intros k. split; [done|]. intros _. lia.
  - destruct (winners_seated hand_rank (table g) ws Hws) as [_ Hseat].
    eexists _, ws. split; [exact Hrun|]. split; [done|]. intros k. split.
    + intros _. simpl. rewrite pay_sum by done. fold k. fold pot_size.
      pose proof (Z.div_mod pot_size k ltac:(lia)).
      split; [lia|]. apply Z.mod_pos_bound. lia.
    + intros Hnil. rewrite Hnil in Hk. simpl in Hk. lia.
Qed.

End WholeHand.

(** A hand for the examples: blinds of 10 and 21, no further bet, two
    hands of the same rank shown on a board of five cards. *)
Definition shown_down : GameController :=
  extend_board
    (set_hole_cards
       (set_hole_cards (snd (start_hand (scenario 21 1000))) 0 [50; 1])
       1 [49; 2])
    [10; 11; 12; 13; 14].

Lemma hand_conserves_chips_witness :
  exists t' winners,
    settle Example.hand_rank (table shown_down) = Ok t'
    /\ winners_of Example.hand_rank (table shown_down) = Ok winners
    /\ let k := Z.of_nat (length winners) in
       (winners <> [] ->
        stacks_sum (players t')
        = stacks_sum (players (table (scenario 21 1000)))
          - get_total_pot_size (table shown_down) mod k
        /\ 0 <= get_total_pot_size (table shown_down) mod k < k)
       /\ (winners = [] ->
           stacks_sum (players t')
           = stacks_sum (players (table (scenario 21 1000)))
             - get_total_pot_size (table shown_down)).
Proof.
  apply (hand_conserves_chips Example.hand_rank (scenario 21 1000) shown_down).
  - vm_compute. discriminate.
  - apply hand_board, hand_hole_cards, hand_hole_cards, hand_started.
  - right. intros ip Hin. vm_compute in Hin.
    destruct Hin as [<-|[<-|[]]]; eexists; vm_compute; reflexivity.
Defined.

(** In that hand the pot of 31 is split 15 and 15; one chip is left. *)
Example odd_chip_of_a_hand :
  exists t',
    settle Example.hand_rank (table shown_down) = Ok t'
    /\ map stack (players t') = [1005; 994]
    /\ stacks_sum (players t') = 2000 - 1.
Proof. eexists. split; [by vm_compute|]. by vm_compute. Qed.

(** Shown before the flop, the same two hands cannot be ranked: treys
    has no evaluator for two cards. *)
Example showdown_before_the_flop :
  settle Example.hand_rank
    (table (set_hole_cards
              (set_hole_cards (snd (start_hand (scenario 21 1000))) 0 [50; 1])
              1 [49; 2]))
  = Raise (KeyError 2).
Proof. by vm_compute. Qed.

(** Heads-up, the small blind folds at once: the big blind takes the
    pot of 30 and the 2000 chips are all back in the stacks. *)
Example fold_gives_the_pot_to_the_other_player :
  exists t',
    settle Example.hand_rank
      (table (snd (process_action "FOLD" 0 after_blinds)))
    = Ok t'
    /\ map stack (players t') = [990; 1010].
Proof. eexists. split; [by vm_compute|]. by vm_compute. Qed.

(** * The pot after the blinds ([test_loop.py]) *)

(** [test_pot_size(bb, stack)], up to [start_hand]: the state it
    prints from. *)
Definition test_pot_size (bb stack_size : Z) : result unit * GameController :=
  let table0 := Table_init (bb / 2) bb in
  let p1 := Player_init "Human" stack_size false in
  let p2 := Player_init "AI_Bot" stack_size true in
  let table2 := Table_add_player (Table_add_player table0 p1) p2 in
  start_hand (GameController_init table2).

(** Heads-up with equal stacks that are not empty, the pot after
    [start_hand] is the small blind [bb // 2] and the big blind [bb],
    each capped at the stack; the first player is all-in exactly when
    the stack does not exceed the small blind, the second when it does
    not exceed the big blind. *)
Theorem test_pot_size_spec (bb stack_size : Z) :
  0 < stack_size ->
  let g := snd (test_pot_size bb stack_size) in
  fst (test_pot_size bb stack_size) = Ok tt
  /\ get_total_pot_size (table g) = Z.min (bb / 2) stack_size + Z.min bb stack_size
  /\ map is_all_in (players (table g)) = [stack_size <=? bb / 2; stack_size <=? bb]
  /\ map stack (players (table g))
     = [stack_size - Z.min (bb / 2) stack_size; stack_size - Z.min bb stack_size].
Proof.
  intros Hs. destruct stack_size as [|s|s]; try lia. clear Hs.
  unfold test_pot_size.
  set (g0 := GameController_init _).
  assert (players (table g0) <> []) as Hne by done.
  destruct (start_hand_run g0 Hne)
    as (i_sb & p_sb & i_bb & p_bb & Hsb & Hpsb & Hbb & Hpbb & Hrun).
  vm_compute in Hsb. injection Hsb as <-.
  vm_compute in Hbb. injection Hbb as <-.
  cbn in Hpsb. injection Hpsb as <-.
  cbn in Hpbb. injection Hpbb as <-.
  rewrite Hrun. cbn [fst snd]. split; [done|].
  change (table (hand_open ?h ?b)) with (table h).
  rewrite pot_add_game_size by done.
  rewrite !Player_bet_actual.
  cbn [table players set_player set_table set_players pot_add_game set_pots
       hand_reset Table_reset_for_hand small_blind_amount big_blind_amount
       stack].
  split; [unfold get_total_pot_size; cbn; lia|].
  cbn [insert list_insert map].
  destruct (Player_bet_fields (Player_reset_for_hand (Player_init "Human" (Z.pos s) false))
              (small_blind_amount (table g0))) as (Hs1 & _ & _ & _ & Ha1).
  destruct (Player_bet_fields (Player_reset_for_hand (Player_init "AI_Bot" (Z.pos s) true))
              (big_blind_amount (table g0))) as (Hs2 & _ & _ & _ & Ha2).
  rewrite Player_bet_actual in Hs1, Hs2.
  subst g0.
  cbn [is_all_in stack Player_reset_for_hand Player_init orb small_blind_amount
       big_blind_amount table GameController_init Table_add_player Table_init]
    in Hs1, Hs2, Ha1, Ha2.
  cbn [players table hand_reset set_table set_phase set_button_idx
       Table_reset_for_hand GameController_init Table_add_player Table_init
       app map insert list_insert small_blind_amount big_blind_amount].
  rewrite Ha1, Ha2, Hs1, Hs2. done.
Qed.

Lemma test_pot_size_spec_witness :
  get_total_pot_size (table (snd (test_pot_size 134 100))) = 167
  /\ map is_all_in (players (table (snd (test_pot_size 134 100)))) = [false; true].
Proof.
  destruct (test_pot_size_spec 134 100) as (_ & Hpot & Hall & _).
  - lia.
  - exact (conj Hpot Hall).
Defined.
